(** * Hospital matching: name decomposition, similarity scoring, city
      filtering and retrieval orchestration

    A shallow embedding of [backend/src/routes/chatRoutes.js] and of the
    index helpers [vectorSearch], [fuzzyMatchHospital] and [hybridSearch]
    it imports, followed by the properties of the matching subsystem.

    Modelling conventions.
    - A JavaScript string is a [string] of 8-bit code units (the Latin-1
      range); [toLowerCase], [\s], [\w], [\b] and [.] are the restrictions
      of the ECMAScript definitions to that range.
    - A JavaScript number that carries a score is an exact rational [Q];
      counts, lengths and limits are [nat].  The code computes a score in
      binary floating point; the reply bands of the chat route, which
      depend on the side of a threshold the best score falls on, are
      stated for scores at least [margin] away from the thresholds.
    - A payload field that may be missing is an [option string]; [None] is
      JavaScript's [undefined].
    - The embedding service and the vector index are oracles over an
      abstract world state; [console] output is kept in the state. *)

From Stdlib Require Import Strings.Ascii Strings.String.
From Stdlib Require Import NArith QArith Qminmax Lia Lqa.
From Stdlib Require Import Sorting.Sorted.
From stdpp Require Import base option list gmap strings pretty.

Local Open Scope string_scope.
Local Open Scope bool_scope.

(** ** JavaScript strings *)

Module JsString.

Definition code (c : ascii) : N := N_of_ascii c.

Definition between (lo hi : N) (c : ascii) : bool :=
  ((lo <=? code c) && (code c <=? hi))%N.

(** [String.prototype.toLowerCase], one code unit at a time: [A-Z] and
    the Latin-1 capitals U+00C0..U+00DE (but not the multiplication sign
    U+00D7) move up by 32. *)
Definition toLowerChar (c : ascii) : ascii :=
  if between 65 90 c || (between 192 222 c && negb (code c =? 215)%N)
  then ascii_of_N (code c + 32)
  else c.

Fixpoint toLowerCase (s : string) : string :=
  match s with
  | EmptyString => EmptyString
  | String c r => String (toLowerChar c) (toLowerCase r)
  end.

(** [\s]: TAB, LF, VT, FF, CR, SP and NBSP. *)
Definition isSpace (c : ascii) : bool :=
  between 9 13 c || (code c =? 32)%N || (code c =? 160)%N.

(** [\w]: [A-Za-z0-9_]. *)
Definition isWordChar (c : ascii) : bool :=
  between 97 122 c || between 65 90 c || between 48 57 c || (code c =? 95)%N.

(** [.]: anything but a line terminator. *)
Definition isDot (c : ascii) : bool :=
  negb ((code c =? 10)%N || (code c =? 13)%N).

Definition isEmpty (s : string) : bool :=
  match s with EmptyString => true | String _ _ => false end.

Fixpoint trimStart (s : string) : string :=
  match s with
  | EmptyString => EmptyString
  | String c r => if isSpace c then trimStart r else s
  end.

Fixpoint trimEnd (s : string) : string :=
  match s with
  | EmptyString => EmptyString
  | String c r =>
      let r' := trimEnd r in
      if isSpace c && isEmpty r' then EmptyString else String c r'
  end.

(** [String.prototype.trim] *)
Definition trim (s : string) : string := trimEnd (trimStart s).

Fixpoint startsWith (s t : string) : bool :=
  match t, s with
  | EmptyString, _ => true
  | String _ _, EmptyString => false
  | String b t', String a s' => Ascii.eqb a b && startsWith s' t'
  end.

(** [s.includes(t)] *)
Fixpoint includes (s t : string) : bool :=
  startsWith s t ||
  match s with
  | EmptyString => false
  | String _ r => includes r t
  end.

(** [s.split(/C+/)] for a character class [C]: the pieces between the
    maximal runs of separator characters, the empty pieces at either end
    included.  [cur] is the piece being read; [insep] tells that the
    previous character was a separator. *)
Fixpoint split_go (sep : ascii -> bool) (cur : string) (insep : bool)
    (s : string) : list string :=
  match s with
  | EmptyString => [cur]
  | String c r =>
      if sep c
      then if insep then split_go sep cur true r
           else cur :: split_go sep EmptyString true r
      else split_go sep (cur ++ String c EmptyString) false r
  end.

Definition split (sep : ascii -> bool) (s : string) : list string :=
  split_go sep EmptyString false s.

(** [words.join(sep)] *)
Fixpoint join (sep : string) (l : list string) : string :=
  match l with
  | [] => EmptyString
  | [x] => x
  | x :: r => x ++ sep ++ join sep r
  end.

(** [arr.includes(x)] on an array of strings *)
Definition arrayIncludes (l : list string) (x : string) : bool :=
  existsb (String.eqb x) l.

(** [[...new Set(arr)]]: first occurrences, in insertion order *)
Fixpoint uniq_from (seen : gset string) (l : list string) : list string :=
  match l with
  | [] => []
  | x :: r =>
      if decide (x ∈ seen) then uniq_from seen r
      else x :: uniq_from ({[x]} ∪ seen) r
  end.

Definition uniq (l : list string) : list string := uniq_from ∅ l.

End JsString.
Import JsString.

(** ** The regular expressions of the name decomposer

    A backtracking matcher for the fragment of ECMAScript regular
    expressions the source uses, every expression carrying the flags [gi].
    The continuation receives whether the last consumed character was a
    word character (for [\b]) and the rest of the input; the matcher
    answers with the rest of the input after the whole match. *)

Module Regex.

Inductive regex : Type :=
| RLit (s : string)              (* literal text *)
| RPlus (p : ascii -> bool)      (* [C+], greedy *)
| RStar (p : ascii -> bool)      (* [C*], greedy *)
| ROpt (r : regex)               (* [r?], greedy *)
| RAlt (r1 r2 : regex)           (* [r1|r2], left first *)
| RSeq (r1 r2 : regex)
| RWordB                         (* [\b] *)
| REnd.                          (* [$], no [m] flag *)

Definition cont : Type := bool -> string -> option string.

(** flag [i]: an ASCII pattern character matches both of its cases *)
Definition ci_eq (a c : ascii) : bool :=
  Ascii.eqb (toLowerChar a) (toLowerChar c).

Fixpoint lit (p : string) (k : cont) (prev : bool) (s : string)
    : option string :=
  match p with
  | EmptyString => k prev s
  | String a p' =>
      match s with
      | EmptyString => None
      | String c s' => if ci_eq a c then lit p' k (isWordChar c) s' else None
      end
  end.

(** as many [p] characters as possible, then fewer on failure of [k] *)
Fixpoint many (p : ascii -> bool) (k : cont) (prev : bool) (s : string)
    : option string :=
  match s with
  | EmptyString => k prev s
  | String c s' =>
      if p c
      then match many p k (isWordChar c) s' with
           | Some r => Some r
           | None => k prev s
           end
      else k prev s
  end.

Definition atWordStart (s : string) : bool :=
  match s with EmptyString => false | String c _ => isWordChar c end.

Fixpoint rmatch (r : regex) (k : cont) (prev : bool) (s : string)
    : option string :=
  match r with
  | RLit p => lit p k prev s
  | RPlus p =>
      match s with
      | EmptyString => None
      | String c s' => if p c then many p k (isWordChar c) s' else None
      end
  | RStar p => many p k prev s
  | ROpt r1 =>
      match rmatch r1 k prev s with
      | Some x => Some x
      | None => k prev s
      end
  | RAlt r1 r2 =>
      match rmatch r1 k prev s with
      | Some x => Some x
      | None => rmatch r2 k prev s
      end
  | RSeq r1 r2 => rmatch r1 (rmatch r2 k) prev s
  | RWordB => if xorb prev (atWordStart s) then k prev s else None
  | REnd => match s with EmptyString => k prev s | String _ _ => None end
  end.

(** [re.exec] at the current position: the length of the match *)
Definition exec (r : regex) (prev : bool) (s : string) : option nat :=
  match rmatch r (fun _ rest => Some rest) prev s with
  | Some rest => Some (String.length s - String.length rest)
  | None => None
  end.

(** [s.replace(re, '')] with the [g] flag.  [skip] counts the characters
    of the current match that are still to be dropped. *)
Fixpoint replace_go (r : regex) (skip : nat) (prev : bool) (s : string)
    : string :=
  match s with
  | EmptyString => EmptyString
  | String c s' =>
      match skip with
      | S n => replace_go r n (isWordChar c) s'
      | O =>
          match exec r prev s with
          | Some (S n) => replace_go r n (isWordChar c) s'
          | _ => String c (replace_go r 0 (isWordChar c) s')
          end
      end
  end.

Definition replaceAll (r : regex) (s : string) : string :=
  replace_go r 0 false s.

(** [s.match(re)] with the [g] flag: every match, left to right; the
    empty list stands for [null]. *)
Fixpoint match_go (r : regex) (skip : nat) (prev : bool) (s : string)
    : list string :=
  match s with
  | EmptyString =>
      match skip, exec r prev s with
      | O, Some _ => [EmptyString]
      | _, _ => []
      end
  | String c s' =>
      match skip with
      | S n => match_go r n (isWordChar c) s'
      | O =>
          match exec r prev s with
          | Some (S n) => substring 0 (S n) s :: match_go r n (isWordChar c) s'
          | Some O => EmptyString :: match_go r 0 (isWordChar c) s'
          | None => match_go r 0 (isWordChar c) s'
          end
      end
  end.

Definition matchAll (r : regex) (s : string) : list string :=
  match_go r 0 false s.

Fixpoint oneOf (w : string) (ws : list string) : regex :=
  match ws with
  | [] => RLit w
  | w' :: r => RAlt (RLit w) (oneOf w' r)
  end.

Definition cat (rs : list regex) : regex :=
  fold_right RSeq (RLit EmptyString) rs.

End Regex.
Import Regex.

(** ** 4.1 Name decomposer *)

(** [(sarjapur|jayanagar|...|commercial street)] *)
Definition gazetteer : regex :=
  oneOf "sarjapur"
    ["jayanagar"; "bannerghatta"; "whitefield"; "koramangala"; "indiranagar";
     "malleshwaram"; "rajajinagar"; "hebbal"; "marathahalli";
     "electronic city"; "silk board"; "btm"; "hsr"; "jp nagar"; "mg road";
     "brigade road"; "commercial street"].

(** [(road|street|cross|layout|nagar|pura)] *)
Definition roadWord : regex :=
  oneOf "road" ["street"; "cross"; "layout"; "nagar"; "pura"].

Definition locationPatterns : list regex :=
  [ cat [RWordB; gazetteer; RWordB];
    cat [RWordB; RPlus isWordChar; RPlus isSpace; roadWord; RWordB];
    cat [RWordB; oneOf "old" ["new"]; RPlus isSpace; RPlus isWordChar; RWordB] ].

Definition extractLocationTerms (hospitalName : string) : list string :=
  let name := toLowerCase hospitalName in
  let locationTerms :=
    flat_map (fun pattern => map trim (matchAll pattern name)) locationPatterns in
  uniq locationTerms.

(** [/\s+(sarjapur|...).*$/gi] *)
Definition stripLocality : regex :=
  cat [RPlus isSpace; gazetteer; RStar isDot; REnd].

(** [/\s+\w+\s+(road|street|cross|layout|nagar|pura).*$/gi] *)
Definition stripRoad : regex :=
  cat [RPlus isSpace; RPlus isWordChar; RPlus isSpace; roadWord;
       RStar isDot; REnd].

(** [/\s+(hospital|medical center|clinic)s?$/gi] *)
Definition stripSuffix : regex :=
  cat [RPlus isSpace; oneOf "hospital" ["medical center"; "clinic"];
       ROpt (RLit "s"); REnd].

Definition extractMainHospitalName (hospitalName : string) : string :=
  let mainName := toLowerCase hospitalName in
  let mainName := replaceAll stripLocality mainName in
  let mainName := replaceAll stripRoad mainName in
  let mainName := replaceAll stripSuffix mainName in
  trim mainName.

(** ** Index records *)

Record Payload : Type := {
  payload_name : option string;
  payload_address : option string;
  payload_city : option string;
  payload_unique_key : option string
}.

(** A point returned by the index: [{id, score, payload}]. *)
Record Hit : Type := {
  hit_id : nat;
  hit_score : option Q;
  hit_payload : option Payload
}.

(** [hit.payload?.field] *)
Definition field (f : Payload -> option string) (p : option Payload)
    : option string :=
  match p with Some pl => f pl | None => None end.

(** [v || ''] for an optional string *)
Definition orEmpty (v : option string) : string :=
  match v with Some s => s | None => EmptyString end.

(** [`${v}`] for an optional string *)
Definition show (v : option string) : string :=
  match v with Some s => s | None => "undefined" end.

(** ** 4.2 Similarity scorer *)

(** [n / d] for two counts *)
Definition ratio (n d : nat) : Q :=
  (inject_Z (Z.of_nat n) / inject_Z (Z.of_nat d))%Q.

(** the inner [for] of [calculateNameSimilarity], left by [break] at the
    first candidate word that matches *)
Fixpoint matchWord (searchWord : string) (hospitalWords : list string)
    (matchedWords : nat) : nat :=
  match hospitalWords with
  | [] => matchedWords
  | hospitalWord :: rest =>
      if includes hospitalWord searchWord || includes searchWord hospitalWord
      then S matchedWords
      else matchWord searchWord rest matchedWords
  end.

Definition calculateNameSimilarity (searchName hospitalName : string) : Q :=
  let search := trim (toLowerCase searchName) in
  let hospital := trim (toLowerCase hospitalName) in
  if String.eqb search hospital then 1%Q
  else if includes hospital search || includes search hospital then (9 # 10)%Q
  else
    let searchWords := split isSpace search in
    let hospitalWords := split isSpace hospital in
    let matchedWords :=
      fold_left (fun matchedWords searchWord =>
                   matchWord searchWord hospitalWords matchedWords)
                searchWords 0%nat in
    let wordMatchScore :=
      ratio matchedWords
            (Nat.max (List.length searchWords) (List.length hospitalWords)) in
    let keyTermBonus :=
      if existsb (fun word =>
           existsb (fun hWord =>
             includes hWord word && (4 <=? String.length word)%nat)
             hospitalWords) searchWords
      then (2 # 10)%Q else 0%Q in
    Qmin 1 (wordMatchScore + keyTermBonus)%Q.

Definition stopWords : list string :=
  ["hospital"; "medical"; "center"; "clinic"; "the"; "and"; "of"; "in";
   "at"; "on"].

Definition calculateAddressSimilarity (query address : string) : Q :=
  let queryLower := toLowerCase query in
  let addressLower := toLowerCase address in
  let queryTerms :=
    List.filter (fun term =>
              (3 <=? String.length term)%nat && negb (arrayIncludes stopWords term))
           (split isSpace queryLower) in
  let matchCount :=
    fold_left (fun matchCount term =>
                 if includes addressLower term then S matchCount else matchCount)
              queryTerms 0%nat in
  if (0 <? List.length queryTerms)%nat
  then ratio matchCount (List.length queryTerms)
  else 0%Q.

(** [/[\s-]+/] *)
Definition isSpaceOrHyphen (c : ascii) : bool :=
  isSpace c || (code c =? 45)%N.

(** the [for] over [termParts], left by [break] at the first part found *)
Fixpoint matchPart (termParts : list string) (addressLower nameLower : string)
    (matchedTerms : Q) : Q :=
  match termParts with
  | [] => matchedTerms
  | part :: rest =>
      if (3 <=? String.length part)%nat
         && (includes addressLower part || includes nameLower part)
      then (matchedTerms + (1 # 2))%Q
      else matchPart rest addressLower nameLower matchedTerms
  end.

(** one turn of the [for] over [locationTerms] *)
Definition matchTerm (addressLower nameLower : string) (matchedTerms : Q)
    (term : string) : Q :=
  let termLower := toLowerCase term in
  if includes addressLower termLower || includes nameLower termLower
  then (matchedTerms + 1)%Q
  else if (4 <? String.length termLower)%nat
  then matchPart (split isSpaceOrHyphen termLower) addressLower nameLower
                 matchedTerms
  else matchedTerms.

Record MatchDetails : Type := {
  md_mainName : string;
  md_locationTerms : list string;
  md_hospitalName : string;
  md_hospitalAddress : string
}.

Record Scoring : Type := {
  nameScore : Q;
  locationScore : Q;
  addressScore : Q;
  overallNameScore : Q;
  totalScore : Q;
  matchDetails : MatchDetails
}.

Definition calculateLocationScore (locationTerms : list string)
    (hospitalAddress hospitalName : string) : Q :=
  if (0 <? List.length locationTerms)%nat
  then
    let addressLower := toLowerCase hospitalAddress in
    let nameLower := toLowerCase hospitalName in
    let matchedTerms :=
      fold_left (matchTerm addressLower nameLower) locationTerms 0%Q in
    (Qmin 1 (matchedTerms / inject_Z (Z.of_nat (List.length locationTerms)))
     * (35 # 100))%Q
  else 0%Q.

Definition calculateEnhancedSimilarity (originalQuery mainName : string)
    (locationTerms : list string) (payload : option Payload) : Scoring :=
  let hospitalName := orEmpty (field payload_name payload) in
  let hospitalAddress := orEmpty (field payload_address payload) in
  let nameScore := (calculateNameSimilarity mainName hospitalName * (4 # 10))%Q in
  let locationScore :=
    calculateLocationScore locationTerms hospitalAddress hospitalName in
  let addressScore :=
    (calculateAddressSimilarity originalQuery hospitalAddress * (15 # 100))%Q in
  let overallNameScore :=
    (calculateNameSimilarity originalQuery hospitalName * (1 # 10))%Q in
  let totalScore :=
    (nameScore + locationScore + addressScore + overallNameScore)%Q in
  {| nameScore := nameScore;
     locationScore := locationScore;
     addressScore := addressScore;
     overallNameScore := overallNameScore;
     totalScore := totalScore;
     matchDetails :=
       {| md_mainName := mainName;
          md_locationTerms := locationTerms;
          md_hospitalName := hospitalName;
          md_hospitalAddress := hospitalAddress |} |}.

(** ** Exceptions *)

Record Error : Type := { message : string }.

(** a value, or the exception thrown instead *)
Inductive Res (A : Type) : Type :=
| Ok (a : A)
| Throw (e : Error).
Arguments Ok {A} a.
Arguments Throw {A} e.

(** ** 4.4 City filter *)

(** JavaScript truthiness of an optional string: [null], [undefined] and
    the empty string are falsy. *)
Definition truthy (v : option string) : bool :=
  match v with
  | None => false
  | Some s => negb (isEmpty s)
  end.

(** What [cityMappings[cityLower]] evaluates to.  [cityMappings] is an
    object literal, so besides its six own keys a lookup finds what the
    literal inherits from [Object.prototype]; of the inherited names only
    [constructor] and [__proto__] are in lower case, and both hold a truthy
    value that is not an array. *)
Inductive Lookup : Type :=
| Own (variations : list string)
| Inherited
| Absent.

Definition cityMappings (cityLower : string) : Lookup :=
  if String.eqb cityLower "bangalore" then Own ["bengaluru"; "banglore"]
  else if String.eqb cityLower "bengaluru" then Own ["bangalore"; "banglore"]
  else if String.eqb cityLower "mumbai" then Own ["bombay"]
  else if String.eqb cityLower "bombay" then Own ["mumbai"]
  else if String.eqb cityLower "delhi" then Own ["new delhi"]
  else if String.eqb cityLower "new delhi" then Own ["delhi"]
  else if String.eqb cityLower "constructor" || String.eqb cityLower "__proto__"
  then Inherited
  else Absent.

(** the callback of [results.filter] *)
Definition cityKeeps (cityLower : string) (payload : option Payload)
    : Res bool :=
  let resultCity := toLowerCase (orEmpty (field payload_city payload)) in
  let resultAddress := toLowerCase (orEmpty (field payload_address payload)) in
  if String.eqb resultCity cityLower then Ok true
  else if includes resultCity cityLower || includes resultAddress cityLower
  then Ok true
  else if includes cityLower resultCity && (3 <=? String.length resultCity)%nat
  then Ok true
  else
    let some variations :=
      existsb (fun variation =>
                 includes resultCity variation
                 || includes resultAddress variation)
              variations in
    match cityMappings cityLower with
    | Own variations => Ok (some variations)
    | Absent => Ok (some [])
    | Inherited => Throw {| message := "variations.some is not a function" |}
    end.

(** [Array.prototype.filter] with a callback that may throw: the first
    exception ends the call *)
Fixpoint filterRes {A : Type} (f : A -> Res bool) (l : list A)
    : Res (list A) :=
  match l with
  | [] => Ok []
  | x :: r =>
      match f x with
      | Throw e => Throw e
      | Ok b =>
          match filterRes f r with
          | Throw e => Throw e
          | Ok r' => Ok (if b then x :: r' else r')
          end
      end
  end.

Section FilterByCity.
Context {A : Type} (payloadOf : A -> option Payload).

Definition filterByCity (results : list A) (city : option string)
    : Res (list A) :=
  if negb (truthy city) then Ok results
  else
    let cityLower := toLowerCase (orEmpty city) in
    filterRes (fun h => cityKeeps cityLower (payloadOf h)) results.
End FilterByCity.

(** ** Effects: collaborators, exceptions and the console *)

Inductive Level : Type := LogLevel | WarnLevel | ErrorLevel.

Record LogEntry : Type := { level : Level; text : string }.

(** [{ key, match: { value } }] and [{ key, match: { text } }] *)
Inductive Match : Type :=
| MatchValue (v : string)
| MatchText (t : string).

Record Condition : Type := { key : string; match_ : Match }.

Record QdrantReply : Type := { result : option (list Hit) }.

(** What a [POST] to the index does: [fetch] rejects, or it resolves to a
    response that is not [ok] (with its [text()]), or to one that is (with
    what [json()] gives). *)
Inductive FetchOutcome : Type :=
| Rejected (e : Error)
| NotOk (txt : string)
| Replied (json : Res QdrantReply).

Section Effects.
Context {W Vec : Type}.

(** the body of a [points/search] request; [vector = None] is the zero
    vector [Array(768).fill(0.0)], [filter = None] is no filter *)
Record SearchBody : Type := {
  vector : option Vec;
  limit : nat;
  score_threshold : option Q;
  filter : option (list Condition)
}.

(** the two collaborators *)
Record Collaborators : Type := {
  embedding : string -> W -> Res Vec * W;
  qdrant : string -> SearchBody -> W -> FetchOutcome * W
}.

Record State : Type := { world : W; console : list LogEntry }.

Definition M (A : Type) : Type := State -> Res A * State.

Definition ret {A} (a : A) : M A := fun st => (Ok a, st).

Definition bind {A B} (m : M A) (k : A -> M B) : M B :=
  fun st =>
    match m st with
    | (Ok a, st') => k a st'
    | (Throw e, st') => (Throw e, st')
    end.

Definition throw {A} (e : Error) : M A := fun st => (Throw e, st).

(** [try { m } catch (error) { h error }] *)
Definition tryCatch {A} (m : M A) (h : Error -> M A) : M A :=
  fun st =>
    match m st with
    | (Ok a, st') => (Ok a, st')
    | (Throw e, st') => h e st'
    end.

Definition print (l : Level) (t : string) : M unit :=
  fun st =>
    (Ok tt, {| world := world st;
               console := console st ++ [{| level := l; text := t |}] |}).

Definition fromRes {A} (r : Res A) : M A := fun st => (r, st).

Definition lift {A} (f : W -> Res A * W) : M A :=
  fun st =>
    let '(r, w) := f (world st) in
    (r, {| world := w; console := console st |}).

End Effects.

Arguments SearchBody : clear implicits.
Arguments Collaborators : clear implicits.
Arguments State : clear implicits.
Arguments M : clear implicits.

Notation "x <- m ;; k" := (bind m (fun x => k))
  (at level 100, m at next level, right associativity).
Notation "m ;;; k" := (bind m (fun _ => k))
  (at level 100, right associativity).

(** ** Index helpers (the module imported as [qdrantClient.js]) *)

(** [`${payload?.name}|${payload?.city}|${payload?.address}`] *)
Definition tripleKey (p : option Payload) : string :=
  show (field payload_name p) ++ "|" ++ show (field payload_city p) ++ "|"
  ++ show (field payload_address p).

(** [payload?.unique_key || `${name}|${city}|${address}`] *)
Definition uniqueKeyOf (p : option Payload) : string :=
  let k := field payload_unique_key p in
  if truthy k then orEmpty k else tripleKey p.

(** one turn of the deduplicating loop of [hybridSearch] *)
Definition keepUnique (acc : gset string * list Hit) (r : Hit)
    : gset string * list Hit :=
  let '(seen, uniqueResults) := acc in
  let uniqueKey := uniqueKeyOf (hit_payload r) in
  if decide (uniqueKey ∈ seen) then (seen, uniqueResults)
  else ({[uniqueKey]} ∪ seen, (uniqueResults ++ [r])%list).

Definition cityOf (r : Hit) : string :=
  toLowerCase (orEmpty (field payload_city (hit_payload r))).

Definition addressOf (r : Hit) : string :=
  toLowerCase (orEmpty (field payload_address (hit_payload r))).

(** what [hybridSearch] does to [results.result] once the index replied *)
Definition rankHits (topK : nat) (cityFilter : option string)
    (hits : list Hit) : list Hit :=
  let uniqueResults := snd (fold_left keepUnique hits (∅, [])) in
  if truthy cityFilter then
    let cityLower := toLowerCase (orEmpty cityFilter) in
    let exactMatches :=
      List.filter (fun r => String.eqb (cityOf r) cityLower) uniqueResults in
    let partialMatches :=
      List.filter (fun r =>
                negb (String.eqb (cityOf r) cityLower)
                && (includes (cityOf r) cityLower
                    || includes (addressOf r) cityLower))
             uniqueResults in
    take topK (exactMatches ++ partialMatches)%list
  else take topK uniqueResults.

Section Index.
Context {W Vec : Type} (env : Collaborators W Vec).

Definition embedText (text : string) : M W Vec :=
  lift (embedding env text).

(** [fetch(url, { method: "POST", ... })], then the check of [resp.ok]
    and [resp.json()] that every helper repeats *)
Definition postSearch (collectionName : string) (body : SearchBody Vec)
    (failure : string) : M W QdrantReply :=
  fun st =>
    let '(out, w) := qdrant env collectionName body (world st) in
    let st' := {| world := w; console := console st |} in
    match out with
    | Rejected e => (Throw e, st')
    | NotOk txt => (Throw {| message := failure ++ txt |}, st')
    | Replied (Ok results) => (Ok results, st')
    | Replied (Throw e) => (Throw e, st')
    end.

Definition vectorSearch (collectionName : string) (vector : Vec)
    (topK : nat) : M W QdrantReply :=
  postSearch collectionName
    {| vector := Some vector; limit := topK;
       score_threshold := Some (3 # 10)%Q; filter := None |}
    "Qdrant search failed: ".

Definition fuzzyMatchHospital (collectionName query : string)
    : M W QdrantReply :=
  postSearch collectionName
    {| vector := None; limit := 20; score_threshold := None;
       filter := Some [ {| key := "name"; match_ := MatchText query |};
                        {| key := "address"; match_ := MatchText query |};
                        {| key := "city"; match_ := MatchText query |} ] |}
    "Qdrant fuzzy match failed: ".

Definition hybridBody (queryVector : Vec) (topK : nat)
    (cityFilter : option string) : SearchBody Vec :=
  {| vector := Some queryVector; limit := topK * 2;
     score_threshold := Some (1 # 10)%Q;
     filter :=
       if truthy cityFilter then
         let c := orEmpty cityFilter in
         Some [ {| key := "city_exact"; match_ := MatchValue c |};
                {| key := "city"; match_ := MatchText c |};
                {| key := "address"; match_ := MatchText c |} ]
       else None |}.

Definition hybridSearch (collectionName : string) (queryVector : Vec)
    (topK : nat) (cityFilter : option string) : M W QdrantReply :=
  let body := hybridBody queryVector topK cityFilter in
  results <- postSearch collectionName body "Qdrant hybridSearch failed: " ;;
  match result results with
  | Some hits => ret {| result := Some (rankHits topK cityFilter hits) |}
  | None => ret results
  end.

End Index.

(** ** Retrieval orchestrator ([chatRoutes.js]) *)

Definition COLLECTION : string := "hospitals".

Record Item : Type := {
  item_name : string;
  item_address : string;
  item_city : string;
  item_score : option Q
}.

(** [v?.trim() || d] *)
Definition trimmedOr (v : option string) (d : string) : string :=
  match v with
  | Some s => if isEmpty (trim s) then d else trim s
  | None => d
  end.

Definition toItem (h : Hit) : Item :=
  let p := hit_payload h in
  {| item_name := trimmedOr (field payload_name p) "Unknown";
     item_address := trimmedOr (field payload_address p) "N/A";
     item_city := trimmedOr (field payload_city p) "N/A";
     item_score := hit_score h |}.

Inductive Source : Type := semantic | fuzzy.

(** [{ ...hit, source, searchQuery }] *)
Record Candidate : Type := {
  cand_hit : Hit;
  source : Source;
  searchQuery : option string
}.

Definition cand_payload (c : Candidate) : option Payload :=
  hit_payload (cand_hit c).

(** [{ ...hit, ...scoring, totalSimilarity }] *)
Record ScoredMatch : Type := {
  sm_candidate : Candidate;
  sm_scoring : Scoring;
  totalSimilarity : Q
}.

(** What the route hands over as [hospitalName]: the classifier's JSON
    field, a string or (unexpectedly) a number. *)
Inductive JsValue : Type :=
| JsString (s : string)
| JsNumber (n : Z).

Definition dq : string := String (ascii_of_nat 34) EmptyString.
Definition quoted (s : string) : string := dq ++ s ++ dq.

(** one turn of [for (const hit of ...result)]: the hit is pushed unless
    its key was seen *)
Definition mergeHit (tag : Hit -> Candidate)
    (acc : gset string * list Candidate) (hit : Hit)
    : gset string * list Candidate :=
  let '(seen, allResults) := acc in
  let key := tripleKey (hit_payload hit) in
  if decide (key ∈ seen) then (seen, allResults)
  else ({[key]} ∪ seen, (allResults ++ [tag hit])%list).

(** [if (reply?.result) { for (const hit of reply.result) ... }] *)
Definition mergeReply (tag : Hit -> Candidate) (reply : QdrantReply)
    (acc : gset string * list Candidate) : gset string * list Candidate :=
  match result reply with
  | Some hits => fold_left (mergeHit tag) hits acc
  | None => acc
  end.

Definition tagSemantic (query : string) (hit : Hit) : Candidate :=
  {| cand_hit := hit; source := semantic; searchQuery := Some query |}.

Definition tagFuzzy (hit : Hit) : Candidate :=
  {| cand_hit := hit; source := fuzzy; searchQuery := None |}.

(** [Array.prototype.sort(cmp)]: stable; [x] stays in front of [y] unless
    [cmp(x, y) > 0]. *)
Fixpoint insertSorted {A} (cmp : A -> A -> Q) (x : A) (l : list A) : list A :=
  match l with
  | [] => [x]
  | y :: r =>
      if Qle_bool (cmp x y) 0 then x :: y :: r
      else y :: insertSorted cmp x r
  end.

Definition sort {A} (cmp : A -> A -> Q) (l : list A) : list A :=
  fold_right (insertSorted cmp) [] l.

Definition scoreCandidate (hospitalName mainHospitalName : string)
    (locationTerms : list string) (hit : Candidate) : ScoredMatch :=
  let scoring :=
    calculateEnhancedSimilarity hospitalName mainHospitalName locationTerms
                                (cand_payload hit) in
  {| sm_candidate := hit;
     sm_scoring := scoring;
     totalSimilarity := totalScore scoring |}.

(** lines 138-174: score, sort, threshold, top 3 *)
Definition topMatches (hospitalName mainHospitalName : string)
    (locationTerms : list string) (cityFiltered : list Candidate)
    : list ScoredMatch :=
  let scoredResults :=
    map (scoreCandidate hospitalName mainHospitalName locationTerms)
        cityFiltered in
  let scoredResults :=
    sort (fun a b => (totalSimilarity b - totalSimilarity a)%Q) scoredResults in
  let goodMatches :=
    List.filter (fun hit => Qle_bool (25 # 100) (totalSimilarity hit))
                scoredResults in
  take 3 goodMatches.

(** lines 136-174 *)
Definition rankCandidates (hospitalName mainHospitalName : string)
    (locationTerms : list string) (city : option string)
    (allResults : list Candidate) : Res (list ScoredMatch) :=
  match filterByCity cand_payload allResults city with
  | Ok cityFiltered =>
      Ok (topMatches hospitalName mainHospitalName locationTerms cityFiltered)
  | Throw e => Throw e
  end.

Section Orchestrator.
Context {W Vec : Type} (env : Collaborators W Vec).

Definition searchHospitals (city : option string) (limit : nat)
    : M W (list Item) :=
  results <-
    (if truthy city then
       let searchQuery := "hospitals in " ++ orEmpty city in
       vec <- embedText env searchQuery ;;
       hybridSearch env COLLECTION vec limit city
     else
       vec <- embedText env "hospitals" ;;
       vectorSearch env COLLECTION vec limit) ;;
  match result results with
  | Some hits =>
      ret (List.filter
             (fun it => negb (String.eqb (item_name it) "Unknown"))
             (map toItem hits))
  | None => throw {| message := "(hits || []).map is not a function" |}
  end.

(** one turn of [for (const query of searchQueries)], with its own
    [try]/[catch]; the hits are merged only after both awaits resolved,
    so a failing variant leaves [seen] and [allResults] as they were *)
Definition semanticStep (city : option string)
    (acc : gset string * list Candidate) (query : string)
    : M W (gset string * list Candidate) :=
  tryCatch
    (vec <- embedText env query ;;
     semanticResults <- hybridSearch env COLLECTION vec 15 city ;;
     ret (mergeReply (tagSemantic query) semanticResults acc))
    (fun error =>
       print WarnLevel
         ("Semantic search failed for query " ++ quoted query ++ ": "
          ++ message error) ;;;
       ret acc).

Definition fuzzyStep (hospitalName : string)
    (acc : gset string * list Candidate)
    : M W (gset string * list Candidate) :=
  tryCatch
    (fuzzyResults <- fuzzyMatchHospital env COLLECTION hospitalName ;;
     ret (mergeReply tagFuzzy fuzzyResults acc))
    (fun error =>
       print WarnLevel ("Fuzzy search failed: " ++ message error) ;;;
       ret acc).

Fixpoint forEach {A B} (f : B -> A -> M W B) (l : list A) (b : B) : M W B :=
  match l with
  | [] => ret b
  | a :: r => b' <- f b a ;; forEach f r b'
  end.

(** lines 93-134: the query variants and the merged candidate set *)
Definition collectResults (hospitalName mainHospitalName : string)
    (locationTerms : list string) (city : option string)
    : M W (gset string * list Candidate) :=
  let searchQueries :=
    [ hospitalName;
      mainHospitalName ++ " " ++ join " " locationTerms;
      if truthy city then hospitalName ++ " " ++ orEmpty city
      else hospitalName ] in
  acc <- forEach (semanticStep city) searchQueries (∅, []) ;;
  fuzzyStep hospitalName acc.

(** [hospitalName.toLowerCase()], the first thing the body evaluates *)
Definition receiver (hospitalName : JsValue) : M W string :=
  match hospitalName with
  | JsString s => ret s
  | JsNumber _ =>
      throw {| message := "hospitalName.toLowerCase is not a function" |}
  end.

Definition confirmHospital (hospitalName : JsValue) (city : option string)
    : M W (list ScoredMatch) :=
  tryCatch
    (hospitalName <- receiver hospitalName ;;
     let locationTerms := extractLocationTerms hospitalName in
     let mainHospitalName := extractMainHospitalName hospitalName in
     print LogLevel
       ("Searching for: " ++ quoted hospitalName ++ " -> Main: "
        ++ quoted mainHospitalName ++ ", Location: "
        ++ quoted (join ", " locationTerms) ++ ", City: "
        ++ quoted (show city)) ;;;
     acc <- collectResults hospitalName mainHospitalName locationTerms city ;;
     let allResults := snd acc in
     goodMatches <-
       fromRes (rankCandidates hospitalName mainHospitalName locationTerms
                               city allResults) ;;
     print LogLevel
       ("Hospital confirmation results for " ++ quoted hospitalName ++ ":") ;;;
     ret goodMatches)
    (fun error =>
       print ErrorLevel ("Error in confirmHospital: " ++ message error) ;;;
       ret []).

End Orchestrator.

(** ** The scoring rules in the words of the specification

    Second definitions of the name and location components, written from
    the prose of section 4.2, to be compared with the loops above. *)

Module Prose.

(** a token pair matches when either token contains the other *)
Definition tokensMatch (queryToken candidateToken : string) : bool :=
  includes candidateToken queryToken || includes queryToken candidateToken.

(** the query tokens that match some candidate token *)
Definition matchedTokens (queryTokens candidateTokens : list string) : nat :=
  List.length
    (List.filter (fun q => existsb (tokensMatch q) candidateTokens)
                 queryTokens).

(** bonus as the prose has it: some query token of length >= 4 has a
    containment match, in either direction, with a candidate token *)
Definition bonusEitherWay (queryTokens candidateTokens : list string) : Q :=
  if existsb (fun q => (4 <=? String.length q)%nat
                       && existsb (tokensMatch q) candidateTokens)
             queryTokens
  then (2 # 10)%Q else 0%Q.

(** bonus with containment in one direction: some query token of length
    >= 4 is contained in a candidate token *)
Definition bonusContained (queryTokens candidateTokens : list string) : Q :=
  if existsb (fun q => (4 <=? String.length q)%nat
                       && existsb (fun c => includes c q) candidateTokens)
             queryTokens
  then (2 # 10)%Q else 0%Q.

Definition tokenScore (bonus : list string -> list string -> Q)
    (query candidate : string) : Q :=
  let queryTokens := split isSpace (trim (toLowerCase query)) in
  let candidateTokens := split isSpace (trim (toLowerCase candidate)) in
  Qmin 1 (ratio (matchedTokens queryTokens candidateTokens)
                (Nat.max (List.length queryTokens)
                         (List.length candidateTokens))
          + bonus queryTokens candidateTokens)%Q.

(** neither exact case-insensitive equality nor containment applies *)
Definition tokenCase (query candidate : string) : bool :=
  let q := trim (toLowerCase query) in
  let c := trim (toLowerCase candidate) in
  negb (String.eqb q c) && negb (includes c q || includes q c).

Definition contained (address name term : string) : bool :=
  includes (toLowerCase address) (toLowerCase term)
  || includes (toLowerCase name) (toLowerCase term).

(** some hyphen/space-split sub-part of length >= 3 is contained *)
Definition partContained (address name term : string) : bool :=
  existsb (fun part => (3 <=? String.length part)%nat
                       && (includes (toLowerCase address) part
                           || includes (toLowerCase name) part))
          (split isSpaceOrHyphen (toLowerCase term)).

(** credit of one term as the prose has it *)
Definition creditAnyLength (address name term : string) : Q :=
  if contained address name term then 1%Q
  else if partContained address name term then (1 # 2)%Q
  else 0%Q.

(** credit of one term when half credit is open only to terms longer
    than 4 characters *)
Definition creditLongTerms (address name term : string) : Q :=
  if contained address name term then 1%Q
  else if (4 <? String.length term)%nat && partContained address name term
  then (1 # 2)%Q
  else 0%Q.

Definition sumCredits (credit : string -> Q) (terms : list string) : Q :=
  fold_right (fun term acc => (credit term + acc)%Q) 0%Q terms.

Definition locationComponent (credit : string -> string -> string -> Q)
    (terms : list string) (address name : string) : Q :=
  match terms with
  | [] => 0%Q
  | _ :: _ =>
      (Qmin 1 (sumCredits (credit address name) terms
               / inject_Z (Z.of_nat (List.length terms)))
       * (35 # 100))%Q
  end.

End Prose.

(** [const city = intent.city || ''] of the [confirm] branch of both routes *)
Definition routeCity (intentCity : option string) : option string :=
  Some (orEmpty intentCity).

(** * Vocabulary of the properties *)

(** The ordered pairs (query city, stored city), both lower-cased, that
    the alias table serves: three two-way pairs, and the stored misspelling
    [banglore] for the two spellings of Bangalore as the query. *)
Definition aliasPairs : list (string * string) :=
  [ ("bangalore", "bengaluru"); ("bengaluru", "bangalore");
    ("mumbai", "bombay"); ("bombay", "mumbai");
    ("delhi", "new delhi"); ("new delhi", "delhi");
    ("bangalore", "banglore"); ("bengaluru", "banglore") ].

Definition storedCity (payload : option Payload) : string :=
  toLowerCase (orEmpty (field payload_city payload)).

Section Order.
Context {A : Type} (f : A -> Q).

(** the comparator [(a, b) => f(b) - f(a)] *)
Definition descending (a b : A) : Q := (f b - f a)%Q.

Definition notBelow (a b : A) : Prop := (f b <= f a)%Q.

End Order.

(** both scores are present and the first is not below the second *)
Definition scoreNotBelow (a b : option Q) : Prop :=
  match a, b with
  | Some x, Some y => (y <= x)%Q
  | _, _ => False
  end.

Definition hitNotBelow (a b : Hit) : Prop :=
  scoreNotBelow (hit_score a) (hit_score b).

Definition itemNotBelow (a b : Item) : Prop :=
  scoreNotBelow (item_score a) (item_score b).

Definition named (h : Hit) : bool :=
  negb (String.eqb (item_name (toItem h)) "Unknown").

Definition candKey (c : Candidate) : string := tripleKey (cand_payload c).

(** the [(name, city, address)] of a candidate's payload *)
Definition candTriple (c : Candidate)
    : option string * option string * option string :=
  (field payload_name (cand_payload c),
   field payload_city (cand_payload c),
   field payload_address (cand_payload c)).

(** [mergeHit] on a hit that already carries its tag *)
Definition mergeCandidate (acc : gset string * list Candidate) (c : Candidate)
    : gset string * list Candidate :=
  let '(seen, allResults) := acc in
  if decide (candKey c ∈ seen) then (seen, allResults)
  else ({[candKey c]} ∪ seen, (allResults ++ [c])%list).

(** [seen] holds exactly the keys of [allResults], each once *)
Definition keyed (acc : gset string * list Candidate) : Prop :=
  (forall k, k ∈ fst acc <-> In k (map candKey (snd acc)))
  /\ List.NoDup (map candKey (snd acc)).

Definition hitsOf (reply : QdrantReply) : list Hit :=
  match result reply with Some hits => hits | None => [] end.

(** the state after one more line on the console *)
Definition logged {W : Type} (st : State W) (l : Level) (t : string) : State W :=
  {| world := world st; console := console st ++ [{| level := l; text := t |}] |}.

(** the three query variants of [confirmHospital] *)
Definition variant2 (mainHospitalName : string) (locationTerms : list string)
    : string :=
  mainHospitalName ++ " " ++ join " " locationTerms.

Definition variant3 (hospitalName : string) (city : option string) : string :=
  if truthy city then hospitalName ++ " " ++ orEmpty city else hospitalName.

Definition searchingLine (name : string) (city : option string) : string :=
  "Searching for: " ++ quoted name ++ " -> Main: "
  ++ quoted (extractMainHospitalName name) ++ ", Location: "
  ++ quoted (join ", " (extractLocationTerms name)) ++ ", City: "
  ++ quoted (show city).

(** a request that got no parsed reply *)
Definition failed (out : FetchOutcome) : bool :=
  match out with
  | Replied (Ok _) => false
  | _ => true
  end.

Section Sources.
Context {W Vec : Type} (env : Collaborators W Vec).

(** the two awaits of one query variant *)
Definition semanticRetrieval (city : option string) (query : string)
    : M W QdrantReply :=
  vec <- embedText env query ;; hybridSearch env COLLECTION vec 15 city.

(** the hits a source contributes: those of its reply, none when the
    retrieval threw or the reply has no [result] *)
Definition answered (r : Res QdrantReply * State W) : list Hit :=
  match fst r with
  | Ok reply => hitsOf reply
  | Throw _ => []
  end.

(** the state a step leaves behind; it does not depend on the
    accumulator *)
Definition afterSemantic (city : option string) (query : string)
    (st : State W) : State W :=
  snd (semanticStep env city (∅, []) query st).

Definition afterFuzzy (hospitalName : string) (st : State W) : State W :=
  snd (fuzzyStep env hospitalName (∅, []) st).

(** the tagged hits of the four sources, in the order they are merged,
    and the state after the last of them *)
Definition sourceStream (hospitalName mainName : string)
    (locationTerms : list string) (city : option string) (st : State W)
    : list Candidate * State W :=
  let q1 := hospitalName in
  let q2 := variant2 mainName locationTerms in
  let q3 := variant3 hospitalName city in
  let st1 := afterSemantic city q1 st in
  let st2 := afterSemantic city q2 st1 in
  let st3 := afterSemantic city q3 st2 in
  ((map (tagSemantic q1) (answered (semanticRetrieval city q1 st))
    ++ map (tagSemantic q2) (answered (semanticRetrieval city q2 st1))
    ++ map (tagSemantic q3) (answered (semanticRetrieval city q3 st2))
    ++ map tagFuzzy
           (answered (fuzzyMatchHospital env COLLECTION hospitalName st3)))%list,
   afterFuzzy hospitalName st3).

(** the index is down: no request gets a parsed reply *)
Definition indexDown : Prop :=
  forall collectionName body w,
    failed (fst (qdrant env collectionName body w)) = true.

End Sources.

(** already in lower case *)
Definition lowered (s : string) : Prop := toLowerCase s = s.

(** no locality clause, no road clause and no hospital/clinic suffix is
    left to strip *)
Definition settled (mainName : string) : Prop :=
  matchAll stripLocality mainName = []
  /\ matchAll stripRoad mainName = []
  /\ matchAll stripSuffix mainName = [].

(** ** Concrete collaborators and records *)

Module Scenario.

Definition record (n a c : string) : option Payload :=
  Some {| payload_name := Some n; payload_address := Some a;
          payload_city := Some c; payload_unique_key := None |}.

Definition hit (i : nat) (sc : Q) (n a c : string) : Hit :=
  {| hit_id := i; hit_score := Some sc; hit_payload := record n a c |}.

(** an index that answers every request with the same hits, and an
    embedding service that always answers *)
Definition answering (hits : list Hit) : Collaborators unit unit :=
  {| embedding := fun _ w => (Ok tt, w);
     qdrant := fun _ _ w => (Replied (Ok {| result := Some hits |}), w) |}.

(** an index that rejects every request *)
Definition offline : Collaborators unit unit :=
  {| embedding := fun _ w => (Ok tt, w);
     qdrant := fun _ _ w => (Rejected {| message := "ECONNREFUSED" |}, w) |}.

Definition start : State unit := {| world := tt; console := [] |}.

(** an index that rejects its first request and answers the later ones;
    the world counts the requests *)
Definition flaky (hits : list Hit) : Collaborators nat unit :=
  {| embedding := fun _ w => (Ok tt, w);
     qdrant := fun _ _ w =>
       match w with
       | O => (Rejected {| message := "socket hang up" |}, S w)
       | S _ => (Replied (Ok {| result := Some hits |}), S w)
       end |}.

Definition manipal : Hit :=
  hit 1 (8 # 10) "Manipal Hospital" "Sarjapur Road, Bangalore" "Bengaluru".

Definition inBangalore : Hit :=
  hit 2 (7 # 10) "City Clinic" EmptyString "Bangalore".

Definition naviMumbai : Hit :=
  hit 3 (9 # 10) "Sea View Hospital" "Vashi" "Navi Mumbai".

Definition inMumbai : Hit :=
  hit 4 (8 # 10) "Lilavati Hospital" "Bandra West" "Mumbai".

End Scenario.

(** * Further code and its vocabulary

    The other index helpers ([smartHospitalSearch], [searchByCity], the
    exact matches and [getAllExistingKeys]), the ingestion script
    [ingestCSV.js], the intent classification of [genaiClient.js] and the
    [/chat] route, each followed by the definitions its properties are
    stated with.

    Further conventions.
    - The lines the ingestion script prints are kept by statement and by
      the values they interpolate ([Ingest.Line]), its waits as
      [Ingest.Waited] events.
    - A value from [JSON.parse] or [resp.json()] is an [Intent.Json]; the
      [/chat] route reads the classifier's answer as a record of typed,
      optional fields ([Chat.Intent]).
    - A loop whose length the index decides takes a bound on its turns,
      and [None] stands for a loop that is still running at the bound. *)

(** every character is white space *)
Fixpoint blank (s : string) : bool :=
  match s with
  | EmptyString => true
  | String c r => isSpace c && blank r
  end.

(** a regular expression whose every match runs to the end of the input *)
Definition toTheEnd (r : regex) : Prop :=
  forall b s n, exec r b s = Some n -> n = String.length s.

(** [s.toLowerCase().trim()], the form in which names are compared *)
Definition normalized (s : string) : string := trim (toLowerCase s).

(** the whitespace tokens of a name as [calculateNameSimilarity] sees them *)
Definition tokensOf (s : string) : list string :=
  split isSpace (normalized s).

(** the query terms [calculateAddressSimilarity] looks for: at least 3
    characters and no stop word *)
Definition queryTermsOf (query : string) : list string :=
  List.filter (fun term =>
                 (3 <=? String.length term)%nat
                 && negb (arrayIncludes stopWords term))
              (split isSpace (toLowerCase query)).

(** one of the two names contains the other *)
Definition nameContained (mainName hospitalName : string) : bool :=
  includes (normalized hospitalName) (normalized mainName)
  || includes (normalized mainName) (normalized hospitalName).

(** ** The other index helpers *)

(** [filter: { should: [...] }] and [filter: { must: [...] }] *)
Inductive Filter : Type :=
| Should (conditions : list Condition)
| Must (conditions : list Condition).

Section FurtherIndex.
Context {W Vec : Type}.

(** the body of a [points/search] request, with either kind of filter *)
Record SearchRequest : Type := {
  sr_vector : option Vec;
  sr_limit : nat;
  sr_score_threshold : option Q;
  sr_filter : option Filter
}.

(** the embedding service and the index, the index taking every request
    the helpers send *)
Record Index : Type := {
  ix_embedding : string -> W -> Res Vec * W;
  ix_search : string -> SearchRequest -> W -> FetchOutcome * W
}.

(** the requests of [vectorSearch], [fuzzyMatchHospital] and
    [hybridSearch], which carry no filter or a [should] filter *)
Definition requestOf (body : SearchBody Vec) : SearchRequest :=
  {| sr_vector := vector body;
     sr_limit := limit body;
     sr_score_threshold := score_threshold body;
     sr_filter := option_map Should (filter body) |}.

Definition collaboratorsOf (ix : Index) : Collaborators W Vec :=
  {| embedding := ix_embedding ix;
     qdrant := fun collectionName body => ix_search ix collectionName (requestOf body) |}.

Context (ix : Index).

(** the [fetch], [resp.ok] and [resp.json()] steps, as in [postSearch] *)
Definition postRequest (collectionName : string) (body : SearchRequest)
    (failure : string) : M W QdrantReply :=
  fun st =>
    let '(out, w) := ix_search ix collectionName body (world st) in
    let st' := {| world := w; console := console st |} in
    match out with
    | Rejected e => (Throw e, st')
    | NotOk txt => (Throw {| message := failure ++ txt |}, st')
    | Replied (Ok results) => (Ok results, st')
    | Replied (Throw e) => (Throw e, st')
    end.

Definition exactMatchByCity (collectionName city : string) : M W QdrantReply :=
  postRequest collectionName
    {| sr_vector := None; sr_limit := 20; sr_score_threshold := None;
       sr_filter :=
         Some (Must [ {| key := "city_exact"; match_ := MatchValue city |} ]) |}
    "Qdrant city match failed: ".

Definition exactMatchByName (collectionName hospitalName : string)
    : M W QdrantReply :=
  postRequest collectionName
    {| sr_vector := None; sr_limit := 10; sr_score_threshold := None;
       sr_filter :=
         Some (Must [ {| key := "name"; match_ := MatchText hospitalName |} ]) |}
    "Qdrant exact match failed: ".

(** one turn of the loop over [fuzzyResults.result] in
    [smartHospitalSearch]: a key seen before is skipped, a new key is
    recorded, and the hit is pushed when no city is given or its city or
    address contains the city *)
Definition keepInCity (city : option string)
    (acc : gset string * list Hit) (r : Hit) : gset string * list Hit :=
  let '(seen, filtered) := acc in
  let uniqueKey := uniqueKeyOf (hit_payload r) in
  if decide (uniqueKey ∈ seen) then (seen, filtered)
  else
    let seen := {[uniqueKey]} ∪ seen in
    if truthy city then
      let cityLower := toLowerCase (orEmpty city) in
      if includes (cityOf r) cityLower || includes (addressOf r) cityLower
      then (seen, (filtered ++ [r])%list)
      else (seen, filtered)
    else (seen, (filtered ++ [r])%list).

Definition smartHospitalSearch (collectionName : string) (queryVector : Vec)
    (searchTerm : string) (city : option string) (topK : nat)
    : M W QdrantReply :=
  tryCatch
    (semanticResults <-
       hybridSearch (collaboratorsOf ix) collectionName queryVector topK city ;;
     match result semanticResults with
     | Some (_ :: _) => ret semanticResults
     | _ =>
         print LogLevel
           "Semantic search returned no results, trying fuzzy matching..." ;;;
         fuzzyResults <-
           fuzzyMatchHospital (collaboratorsOf ix) collectionName searchTerm ;;
         match result fuzzyResults with
         | Some hits =>
             let filtered := snd (fold_left (keepInCity city) hits (∅, [])) in
             ret {| result := Some (take topK filtered) |}
         | None => ret fuzzyResults
         end
     end)
    (fun error =>
       print ErrorLevel ("Smart search error: " ++ message error) ;;;
       throw error).

(** the callback of [exactResults.result.filter] in [searchByCity], with
    the set it updates *)
Definition keepFirst (acc : gset string * list Hit) (r : Hit)
    : gset string * list Hit :=
  let '(seen, kept) := acc in
  let uniqueKey := uniqueKeyOf (hit_payload r) in
  if decide (uniqueKey ∈ seen) then (seen, kept)
  else ({[uniqueKey]} ∪ seen, (kept ++ [r])%list).

(** the callback of [(fuzzyResults.result || []).filter] in [searchByCity] *)
Definition keepFirstInCity (cityLower : string)
    (acc : gset string * list Hit) (r : Hit) : gset string * list Hit :=
  let '(seen, kept) := acc in
  let uniqueKey := uniqueKeyOf (hit_payload r) in
  if decide (uniqueKey ∈ seen) then (seen, kept)
  else
    let seen := {[uniqueKey]} ∪ seen in
    if includes (cityOf r) cityLower || includes (addressOf r) cityLower
    then (seen, (kept ++ [r])%list)
    else (seen, kept).

Definition searchByCity (collectionName city : string) (topK : nat)
    : M W QdrantReply :=
  tryCatch
    (exactResults <- exactMatchByCity collectionName city ;;
     match result exactResults with
     | Some ((_ :: _) as hits) =>
         let uniqueResults := snd (fold_left keepFirst hits (∅, [])) in
         ret {| result := Some (take topK uniqueResults) |}
     | _ =>
         fuzzyResults <-
           fuzzyMatchHospital (collaboratorsOf ix) collectionName city ;;
         let cityLower := toLowerCase city in
         let filtered :=
           snd (fold_left (keepFirstInCity cityLower) (hitsOf fuzzyResults)
                          (∅, [])) in
         ret {| result := Some (take topK filtered) |}
     end)
    (fun error =>
       print ErrorLevel ("City search error: " ++ message error) ;;;
       throw error).

End FurtherIndex.

Arguments SearchRequest : clear implicits.
Arguments Index : clear implicits.

(** the key by which the index helpers tell hits apart *)
Definition hitKey (r : Hit) : string := uniqueKeyOf (hit_payload r).

(** the city or the address of the hit contains the lower-cased city *)
Definition mentionsCity (cityLower : string) (r : Hit) : bool :=
  includes (cityOf r) cityLower || includes (addressOf r) cityLower.

(** the shape the deduplicating loops of the index helpers share: a key
    seen before is skipped; a new key is recorded, and its hit is kept when
    it passes [p] *)
Definition keepWhere (p : Hit -> bool) (acc : gset string * list Hit)
    (r : Hit) : gset string * list Hit :=
  if decide (hitKey r ∈ fst acc) then acc
  else ({[hitKey r]} ∪ fst acc, if p r then (snd acc ++ [r])%list else snd acc).

(** a payload with its city and address in lower case *)
Definition lowerCased (payload : option Payload) : option Payload :=
  option_map
    (fun p =>
       {| payload_name := payload_name p;
          payload_address := option_map toLowerCase (payload_address p);
          payload_city := option_map toLowerCase (payload_city p);
          payload_unique_key := payload_unique_key p |})
    payload.

(** ** Concrete indexes *)

Module Desk.

(** an index that finds nothing by vector and [hits] by text *)
Definition textOnly (hits : list Hit) : Index unit unit :=
  {| ix_embedding := fun _ w => (Ok tt, w);
     ix_search := fun _ body w =>
       match sr_vector body with
       | Some _ => (Replied (Ok {| result := Some [] |}), w)
       | None => (Replied (Ok {| result := Some hits |}), w)
       end |}.

(** an index that answers a [must] filter with [exact] and every other
    request with [others] *)
Definition keyword (exact others : list Hit) : Index unit unit :=
  {| ix_embedding := fun _ w => (Ok tt, w);
     ix_search := fun _ body w =>
       match sr_filter body with
       | Some (Must _) => (Replied (Ok {| result := Some exact |}), w)
       | _ => (Replied (Ok {| result := Some others |}), w)
       end |}.

Definition start : State unit := {| world := tt; console := [] |}.

Definition apollo (i : nat) (address : string) : Hit :=
  {| hit_id := i; hit_score := Some (1 # 2)%Q;
     hit_payload :=
       Some {| payload_name := Some "Apollo Hospital";
               payload_address := Some address;
               payload_city := Some "Mumbai";
               payload_unique_key := Some "apollo hospital|mumbai" |} |}.

Definition fortis : Hit :=
  {| hit_id := 7; hit_score := Some (1 # 3)%Q;
     hit_payload :=
       Some {| payload_name := Some "Fortis Hospital";
               payload_address := Some "Mulund, Mumbai";
               payload_city := Some "Thane";
               payload_unique_key := None |} |}.

Definition pune : Hit :=
  {| hit_id := 9; hit_score := Some (1 # 4)%Q;
     hit_payload :=
       Some {| payload_name := Some "Ruby Hall Clinic";
               payload_address := Some "Sassoon Road";
               payload_city := Some "Pune";
               payload_unique_key := None |} |}.

End Desk.

(** ** Ingestion ([ingestCSV.js]) *)

Module Ingest.

Definition EMBEDDING_BATCH_SIZE : nat := 100.
Definition DB_BATCH_SIZE : nat := 500.

(** a row as [csv-parse] gives it with [columns: false]: an array of
    strings *)
Definition Row : Type := list string.

Record Hospital : Type := { name : string; address : string; city : string }.

(** the payload [processEmbeddingBatch] stores with a point *)
Record Stored : Type := {
  stored_name : string;
  stored_address : string;
  stored_city : string;
  city_exact : string;
  unique_key : string
}.

(** [{ id, vector, payload }]; [vector = None] is [undefined], what
    [vectors[idx]] gives past the end of [vectors] *)
Record Point (Vec : Type) : Type := {
  id : string;
  vector : option Vec;
  payload : Stored
}.
Arguments id {Vec} p.
Arguments vector {Vec} p.
Arguments payload {Vec} p.

(** the lines the functions below print, by statement and by the values
    they interpolate *)
Inductive Line : Type :=
| InvalidRowFormat (row : Row)
| MissingHospitalName (row : Row)
| EmbeddingBatch (number total size : nat)
| EmbeddingGaveUp (number maxRetries : nat) (reason : string)
| EmbeddingRetry (retries maxRetries number : nat) (delay : N)
| InsertingBatch (number total size : nat)
| InsertGaveUp (number maxRetries : nat) (reason : string)
| InsertRetry (retries maxRetries number : nat) (delay : N)
| NoPointsToInsert.

(** what the script does besides computing: it prints, and it waits
    ([setTimeout]) *)
Inductive Event : Type :=
| Printed (l : Level) (line : Line)
| Waited (ms : N).

(** the world outside and the events so far *)
Record Journal (W : Type) : Type := { outside : W; events : list Event }.
Arguments outside {W} j.
Arguments events {W} j.

(** what the [PUT] of the points does, and what [upsertPointsFast]
    returns: the literal for an empty batch or what [json()] gave *)
Inductive PutOutcome (R : Type) : Type :=
| PutRejected (e : Error)
| PutNotOk (txt : string)
| PutReplied (json : Res R).
Arguments PutRejected {R} e.
Arguments PutNotOk {R} txt.
Arguments PutReplied {R} json.

Inductive Upserted (R : Type) : Type :=
| NothingToInsert
| Answer (json : R).
Arguments NothingToInsert {R}.
Arguments Answer {R} json.

Section Script.
Context {W Vec R : Type}.

(** the services the script calls: the batch embedding, the identifier
    generator and the index *)
Record Services : Type := {
  embedTexts : list string -> W -> Res (list Vec) * W;
  uuidv4 : W -> string * W;
  putPoints : string -> list (Point Vec) -> W -> PutOutcome R * W
}.

Definition record (e : Event) : M (Journal W) unit :=
  fun st =>
    (Ok tt, {| world := {| outside := outside (world st);
                           events := (events (world st) ++ [e])%list |};
               console := console st |}).

Definition call {A : Type} (f : W -> A * W) : M (Journal W) A :=
  fun st =>
    let '(a, w) := f (outside (world st)) in
    (Ok a, {| world := {| outside := w; events := events (world st) |};
              console := console st |}).

Definition attempt {A : Type} (f : W -> Res A * W) : M (Journal W) A :=
  fun st =>
    let '(r, w) := f (outside (world st)) in
    (r, {| world := {| outside := w; events := events (world st) |};
           console := console st |}).

(** [row[i] || ''] *)
Definition cell (row : Row) (i : nat) : string :=
  match row !! i with
  | Some s => s
  | None => EmptyString
  end.

Definition parseHospitalRow (row : Row) : M (Journal W) (option Hospital) :=
  if (List.length row <? 3)%nat then
    record (Printed WarnLevel (InvalidRowFormat row)) ;;;
    ret None
  else
    let name := trim (cell row 0) in
    let address := trim (cell row 1) in
    let city := trim (cell row 2) in
    if isEmpty name then
      record (Printed WarnLevel (MissingHospitalName row)) ;;;
      ret None
    else ret (Some {| name := name; address := address; city := city |}).

Definition createHospitalKey (hospital : Hospital) : string :=
  trim (toLowerCase (name hospital)) ++ "|"
  ++ trim (toLowerCase (city hospital)) ++ "|"
  ++ trim (toLowerCase (address hospital)).

(** lines 129-137: the header test on the first row *)
Definition headerCell (cell : string) : bool :=
  includes (toLowerCase cell) "hospital"
  || includes (toLowerCase cell) "name"
  || includes (toLowerCase cell) "address".

Definition dataRows (rows : list Row) : list Row :=
  match rows with
  | first :: rest => if existsb headerCell first then rest else rows
  | [] => rows
  end.

(** lines 140-150: one turn of [for (const row of dataRows)] *)
Definition parseStep (acc : list Hospital * nat) (row : Row)
    : M (Journal W) (list Hospital * nat) :=
  let '(hospitals, skippedCount) := acc in
  hospital <- parseHospitalRow row ;;
  match hospital with
  | None => ret (hospitals, S skippedCount)
  | Some hospital => ret ((hospitals ++ [hospital])%list, skippedCount)
  end.

Definition parseRows (dataRows : list Row)
    : M (Journal W) (list Hospital * nat) :=
  forEach parseStep dataRows ([], 0%nat).

(** lines 154-164.  [hospitalMap] is a [Map], which keeps its entries in
    the order of insertion: a list of entries, [set] on a new key adding
    at the end *)
Definition has (hospitalMap : list (string * Hospital)) (key : string) : bool :=
  existsb (fun entry => String.eqb (fst entry) key) hospitalMap.

Definition dedupeStep (acc : list (string * Hospital) * nat)
    (hospital : Hospital) : list (string * Hospital) * nat :=
  let '(hospitalMap, duplicateCount) := acc in
  let key := createHospitalKey hospital in
  if negb (has hospitalMap key)
  then ((hospitalMap ++ [(key, hospital)])%list, duplicateCount)
  else (hospitalMap, S duplicateCount).

Definition deduplicate (hospitals : list Hospital)
    : list (string * Hospital) * nat :=
  fold_left dedupeStep hospitals ([], 0%nat).

(** [Array.from(hospitalMap.values())] *)
Definition uniqueHospitals (hospitals : list Hospital) : list Hospital :=
  map snd (fst (deduplicate hospitals)).

Definition duplicateCount (hospitals : list Hospital) : nat :=
  snd (deduplicate hospitals).

(** lines 173-176 *)
Definition newHospitals (uniqueHospitals : list Hospital)
    (existingKeys : gset string) : list Hospital :=
  List.filter
    (fun hospital =>
       let key := createHospitalKey hospital in
       negb (bool_decide (key ∈ existingKeys)))
    uniqueHospitals.

(** the count printed as [Duplicates removed] (line 237) *)
Definition duplicatesRemoved (hospitals : list Hospital)
    (existingKeys : gset string) : nat :=
  duplicateCount hospitals
  + (List.length (uniqueHospitals hospitals)
     - List.length (newHospitals (uniqueHospitals hospitals) existingKeys)).

(** [arr.slice(i, j)] for [i <= j] *)
Definition slice {A : Type} (i j : nat) (l : list A) : list A :=
  take (j - i) (drop i l).

(** lines 188-191: [for (let i = 0; i < n; i += size) push(slice(i, i +
    size))], [fuel] bounding the number of turns *)
Fixpoint batchesFrom {A : Type} (fuel i size : nat) (l : list A)
    : list (list A) :=
  match fuel with
  | O => []
  | S fuel =>
      if (i <? List.length l)%nat
      then slice i (i + size) l :: batchesFrom fuel (i + size) size l
      else []
  end.

(** the loop turns at most once per element *)
Definition embeddingBatches (newHospitals : list Hospital)
    : list (list Hospital) :=
  batchesFrom (List.length newHospitals) 0 EMBEDDING_BATCH_SIZE newHospitals.

Context (svc : Services).

(** [upsertPointsFast] of the index helpers *)
Definition upsertPointsFast (collectionName : string)
    (points : list (Point Vec)) : M (Journal W) (Upserted R) :=
  if (List.length points =? 0)%nat then
    record (Printed LogLevel NoPointsToInsert) ;;;
    ret NothingToInsert
  else
    fun st =>
      let '(out, w) := putPoints svc collectionName points (outside (world st)) in
      let st' := {| world := {| outside := w; events := events (world st) |};
                    console := console st |} in
      match out with
      | PutRejected e => (Throw e, st')
      | PutNotOk txt =>
          (Throw {| message := "Qdrant upsert failed: " ++ txt |}, st')
      | PutReplied (Ok result) => (Ok (Answer result), st')
      | PutReplied (Throw e) => (Throw e, st')
      end.

(** the [while (retries < maxRetries)] of [processEmbeddingBatch]; it is
    left with the vectors ([break]) or by [throw], and [None] stands for
    [vectors] still undefined after the loop *)
Fixpoint embedLoop (fuel : nat) (texts : list string) (batchIndex : nat)
    (maxRetries retries : nat) : M (Journal W) (option (list Vec)) :=
  match fuel with
  | O => ret None
  | S fuel =>
      if (retries <? maxRetries)%nat then
        tryCatch
          (vectors <- attempt (embedTexts svc texts) ;;
           ret (Some vectors))
          (fun error =>
             let retries := S retries in
             if (retries =? maxRetries)%nat then
               record (Printed ErrorLevel
                         (EmbeddingGaveUp (batchIndex + 1) maxRetries
                                          (message error))) ;;;
               throw error
             else
               let delay := N.min (1000 * 2 ^ N.of_nat retries) 5000 in
               record (Printed LogLevel
                         (EmbeddingRetry retries maxRetries (batchIndex + 1)
                                         delay)) ;;;
               record (Waited delay) ;;;
               embedLoop fuel texts batchIndex maxRetries retries)
      else ret None
  end.

(** [batch.map((hospital, idx) => ({ id: uuidv4(), vector: vectors[idx],
    payload }))] *)
Fixpoint toPoints (batch : list Hospital) (idx : nat) (vectors : list Vec)
    : M (Journal W) (list (Point Vec)) :=
  match batch with
  | [] => ret []
  | hospital :: rest =>
      id <- call (uuidv4 svc) ;;
      let point :=
        {| id := id;
           vector := vectors !! idx;
           payload :=
             {| stored_name := name hospital;
                stored_address := address hospital;
                stored_city := city hospital;
                city_exact := city hospital;
                unique_key := createHospitalKey hospital |} |} in
      points <- toPoints rest (S idx) vectors ;;
      ret (point :: points)
  end.

Definition processEmbeddingBatch (batch : list Hospital)
    (batchIndex totalBatches : nat) : M (Journal W) (list (Point Vec)) :=
  let texts :=
    map (fun hospital =>
           name hospital ++ " | " ++ address hospital ++ " | " ++ city hospital)
        batch in
  record (Printed LogLevel
            (EmbeddingBatch (batchIndex + 1) totalBatches (List.length batch))) ;;;
  let maxRetries := 3%nat in
  vectors <- embedLoop maxRetries texts batchIndex maxRetries 0 ;;
  match vectors with
  | Some vectors => toPoints batch 0 vectors
  | None =>
      match batch with
      | [] => ret []
      | _ :: _ =>
          call (uuidv4 svc) ;;;
          throw {| message :=
                     "Cannot read properties of undefined (reading '0')" |}
      end
  end.

(** the [while (retries < maxRetries)] of [processDatabaseBatch]; [None]
    stands for falling out of the loop, to the end of the function *)
Fixpoint insertLoop (fuel : nat) (points : list (Point Vec))
    (batchIndex : nat) (maxRetries retries : nat)
    : M (Journal W) (option nat) :=
  match fuel with
  | O => ret None
  | S fuel =>
      if (retries <? maxRetries)%nat then
        tryCatch
          (upsertPointsFast COLLECTION points ;;;
           ret (Some (List.length points)))
          (fun error =>
             let retries := S retries in
             if (retries =? maxRetries)%nat then
               record (Printed ErrorLevel
                         (InsertGaveUp (batchIndex + 1) maxRetries
                                       (message error))) ;;;
               throw error
             else
               let delay := (1000 * N.of_nat retries)%N in
               record (Printed LogLevel
                         (InsertRetry retries maxRetries (batchIndex + 1)
                                      delay)) ;;;
               record (Waited delay) ;;;
               insertLoop fuel points batchIndex maxRetries retries)
      else ret None
  end.

Definition processDatabaseBatch (points : list (Point Vec))
    (batchIndex totalBatches : nat) : M (Journal W) (option nat) :=
  record (Printed LogLevel
            (InsertingBatch (batchIndex + 1) totalBatches
                            (List.length points))) ;;;
  let maxRetries := 3%nat in
  insertLoop maxRetries points batchIndex maxRetries 0.

End Script.

Arguments Services : clear implicits.

(** the waits among the events *)
Definition waits (events : list Event) : list N :=
  omap (fun e => match e with Waited ms => Some ms | Printed _ _ => None end)
       events.

(** a row that [parseHospitalRow] accepts, and the hospital it gives *)
Definition validRow (row : Row) : bool :=
  (3 <=? List.length row)%nat && negb (blank (cell row 0)).

Definition hospitalOf (row : Row) : Hospital :=
  {| name := trim (cell row 0);
     address := trim (cell row 1);
     city := trim (cell row 2) |}.

(** the warning a rejected row gets *)
Definition warningOf (row : Row) : Event :=
  Printed WarnLevel
    (if (List.length row <? 3)%nat then InvalidRowFormat row
     else MissingHospitalName row).

(** the entry [hospitalMap.set(key, hospital)] adds *)
Definition entry (hospital : Hospital) : string * Hospital :=
  (createHospitalKey hospital, hospital).

(** the text embedded for a hospital *)
Definition textOf (hospital : Hospital) : string :=
  name hospital ++ " | " ++ address hospital ++ " | " ++ city hospital.

(** the state after more events *)
Definition after {W : Type} (st : State (Journal W)) (w : W)
    (new : list Event) : State (Journal W) :=
  {| world := {| outside := w; events := (events (world st) ++ new)%list |};
     console := console st |}.

(** the payload stored for a hospital *)
Definition storedOf (hospital : Hospital) : Stored :=
  {| stored_name := name hospital;
     stored_address := address hospital;
     stored_city := city hospital;
     city_exact := city hospital;
     unique_key := createHospitalKey hospital |}.

(** the three fields as the key compares them *)
Definition keyFields (hospital : Hospital) : string * string * string :=
  (normalized (name hospital), normalized (city hospital),
   normalized (address hospital)).

Definition hasBar (s : string) : bool := includes s "|".

End Ingest.

(** ** Intent classification ([genaiClient.js]) *)

Module Intent.

(** a value as [JSON.parse] and [resp.json()] give it; an object is the
    list of its own properties, every name once *)
#[warnings="-register-all"]
Inductive Json : Type :=
| JNull
| JBool (b : bool)
| JNumber (q : Q)
| JString (s : string)
| JArray (items : list Json)
| JObject (fields : list (string * Json)).

(** JavaScript truthiness; [None] is [undefined] *)
Definition truthyJ (v : option Json) : bool :=
  match v with
  | None | Some JNull => false
  | Some (JBool b) => b
  | Some (JNumber q) => negb (Qeq_bool q 0)
  | Some (JString s) => negb (isEmpty s)
  | Some (JArray _) | Some (JObject _) => true
  end.

Fixpoint lookupField (name : string) (fields : list (string * Json))
    : option Json :=
  match fields with
  | [] => None
  | (k, v) :: rest => if String.eqb k name then Some v else lookupField name rest
  end.

(** [obj.name = v] on an object that has the property *)
Fixpoint setField (name : string) (v : Json) (fields : list (string * Json))
    : list (string * Json) :=
  match fields with
  | [] => [(name, v)]
  | (k, old) :: rest =>
      if String.eqb k name then (k, v) :: rest
      else (k, old) :: setField name v rest
  end.

(** [v?.name] for a name that only an object can have as a property *)
Definition prop (name : string) (v : option Json) : option Json :=
  match v with
  | Some (JObject fields) => lookupField name fields
  | _ => None
  end.

(** [v?.[0]] *)
Definition first (v : option Json) : option Json :=
  match v with
  | Some (JArray (x :: _)) => Some x
  | Some (JString (String c _)) => Some (JString (String c EmptyString))
  | Some (JObject fields) => lookupField "0" fields
  | _ => None
  end.

(** [j?.candidates?.[0]?.content?.parts?.[0]?.text] *)
Definition candidateText (j : Json) : option Json :=
  prop "text" (first (prop "parts" (prop "content"
    (first (prop "candidates" (Some j)))))).

(** [{ action: 'out_of_scope' }] *)
Definition outOfScope : Json := JObject [("action", JString "out_of_scope")].

(** lines 177-184: the spelling a city is replaced with, if any *)
Definition canonicalCity (city : string) : option string :=
  let cityLower := toLowerCase city in
  if includes cityLower "bangalore" || includes cityLower "bengaluru"
  then Some "Bengaluru"
  else if includes cityLower "mumbai" || includes cityLower "bombay"
  then Some "Mumbai"
  else if includes cityLower "delhi"
  then Some "Delhi"
  else None.

(** lines 176-187, on what [JSON.parse] returned *)
Definition postProcess (parsed : Json) : Res Json :=
  match parsed with
  | JNull =>
      Throw {| message :=
                 "Cannot read properties of null (reading 'city')" |}
  | JObject fields =>
      let city := lookupField "city" fields in
      if truthyJ city then
        match city with
        | Some (JString city) =>
            match canonicalCity city with
            | Some name => Ok (JObject (setField "city" (JString name) fields))
            | None => Ok parsed
            end
        | _ =>
            Throw {| message := "parsed.city.toLowerCase is not a function" |}
        end
      else Ok parsed
  | _ => Ok parsed
  end.

(** what a [POST] to the speech model does: [fetch] rejects, or the
    response is not [ok] (with its status and text), or it is (with what
    [json()] gives) *)
Inductive Http : Type :=
| HttpRejected (e : Error)
| HttpNotOk (status : nat) (txt : string)
| HttpReplied (json : Res Json).

Section Classifier.
Context {W : Type}.

(** the language model and the JSON functions of the runtime.
    [generate userText] is the request of [parseIntentStructured], whose
    prompt varies with [userText] only, followed by [resp.json()];
    [transcribe audioBase64] is the request of [speechToText]. *)
Record Gemini : Type := {
  generate : string -> W -> Res Json * W;
  transcribe : string -> W -> Http * W;
  parse : string -> Res Json;
  stringify : Json -> string
}.

Context (ai : Gemini).

Definition parseIntentStructured (userText : string) : M W Json :=
  j <- lift (generate ai userText) ;;
  let outText := candidateText j in
  outText <-
    (if negb (truthyJ outText) then
       throw {| message :=
                  "No structured response from model: " ++ stringify ai j |}
     else
       match outText with
       | Some (JString outText) => ret outText
       | _ => throw {| message := "outText.replace is not a function" |}
       end) ;;
  let outText :=
    trim (replaceAll (RLit "```") (replaceAll (RLit "```json") outText)) in
  tryCatch
    (parsed <- fromRes (parse ai outText) ;;
     fromRes (postProcess parsed))
    (fun _ =>
       print WarnLevel ("Failed to parse JSON from model: " ++ outText) ;;;
       ret outOfScope).

Definition speechToText (audioBase64 : string) : M W string :=
  result <-
    (fun st =>
       let '(out, w) := transcribe ai audioBase64 (world st) in
       let st' := {| world := w; console := console st |} in
       match out with
       | HttpRejected e => (Throw e, st')
       | HttpNotOk status txt =>
           (Throw {| message := "Gemini STT error: " ++ pretty status
                                ++ " - " ++ txt |}, st')
       | HttpReplied (Ok result) => (Ok result, st')
       | HttpReplied (Throw e) => (Throw e, st')
       end) ;;
  let transcription := candidateText result in
  if negb (truthyJ transcription) then
    throw {| message := "No transcription returned from Gemini" |}
  else
    match transcription with
    | Some (JString transcription) => ret (trim transcription)
    | _ => throw {| message := "transcription.trim is not a function" |}
    end.

Definition parseIntentFromAudio (audioBase64 : string) : M W Json :=
  tryCatch
    (transcription <- speechToText audioBase64 ;;
     if isEmpty transcription then
       print WarnLevel "No transcription returned, treating as out_of_scope" ;;;
       ret outOfScope
     else parseIntentStructured transcription)
    (fun error =>
       print ErrorLevel ("Audio intent parsing error: " ++ message error) ;;;
       ret outOfScope).

End Classifier.

Arguments Gemini : clear implicits.

(** the city of an intent, when it is set at all, is a string *)
Definition cityIsText (intent : Json) : Prop :=
  match intent with
  | JObject fields =>
      truthyJ (lookupField "city" fields) = true ->
      exists city, lookupField "city" fields = Some (JString city)
  | _ => True
  end.

(** the spellings under which the three cities are stored *)
Definition spellings : list (string * list string) :=
  [ ("Bengaluru", ["bengaluru"; "bangalore"; "banglore"]);
    ("Mumbai", ["mumbai"; "bombay"]);
    ("Delhi", ["delhi"; "new delhi"]) ].

(** the text the model returned, as [JSON.parse] receives it *)
Definition cleaned (outText : string) : string :=
  trim (replaceAll (RLit "```") (replaceAll (RLit "```json") outText)).

(** the reply of the model that carries [text] *)
Definition saying (text : Json) : Json :=
  JObject [("candidates",
            JArray [JObject [("content",
                              JObject [("parts",
                                        JArray [JObject [("text", text)]])])]])].

(** a model that answers every request with the same text, and a
    [JSON.parse] that knows one text *)
Definition scripted (text : Json) (known : string) (value : Json)
    : Gemini unit :=
  {| generate := fun _ w => (Ok (saying text), w);
     transcribe := fun _ w => (HttpReplied (Ok (saying text)), w);
     parse := fun s =>
       if String.eqb s known then Ok value
       else Throw {| message := "Unexpected token" |};
     stringify := fun _ => "{}" |}.

End Intent.

(** ** The chat route ([chatRoutes.js]) *)

Module Chat.

(** what [parseIntentStructured] returns, read as the prompt prescribes
    it: an object whose properties, when present, are strings ([action],
    [city], [hospital_name]) or a whole number ([limit]); [None] is an
    absent property *)
Record Intent : Type := {
  action : option string;
  city : option string;
  hospital_name : option string;
  limit : option nat
}.

Inductive Role : Type := assistant | user.

(** [{ role, text }] *)
Record Turn : Type := { role : Role; turn_text : string }.

(** [req.body], with [sessionId] and [text] strings when present *)
Record Request : Type := {
  sessionId : option string;
  req_text : option string
}.

(** the [items] of a response *)
Inductive Items : Type :=
| NoItems
| Matches (matches : list ScoredMatch)
| Hospitals (items : list Item).

(** [res.status(400).json({ error })], [res.json({ reply, audioBase64,
    contentType, items })] and [res.status(500).json({ error: String(err)
    })] *)
Inductive Response : Type :=
| Status400 (error : string)
| Json200 (reply audioBase64 contentType : string) (items : Items)
| Status500 (err : Error).

(** what the [POST] to the speech service does; the audio is the
    base-64 text of the response body *)
Inductive Tts : Type :=
| TtsRejected (e : Error)
| TtsNotOk (status : nat) (txt : string)
| TtsAudio (audioBase64 : Res string).

Definition intro : string :=
  "Hello! I'm Loop AI, your hospital network assistant. How can I help you today?".

(** [action === name] *)
Definition isAction (action : option string) (name : string) : bool :=
  match action with
  | Some a => String.eqb a name
  | None => false
  end.

(** [city ? ` in ${city}` : ''] *)
Definition inCity (city : string) : string :=
  if isEmpty city then EmptyString else " in " ++ city.

Definition payloadOfMatch (m : ScoredMatch) : option Payload :=
  cand_payload (sm_candidate m).

(** [matches.map(m => m.payload.name)], which throws at a match without
    payload *)
Fixpoint payloadNames (matches : list ScoredMatch)
    : Res (list (option string)) :=
  match matches with
  | [] => Ok []
  | m :: rest =>
      match payloadOfMatch m with
      | None =>
          Throw {| message :=
                     "Cannot read properties of undefined (reading 'name')" |}
      | Some p =>
          match payloadNames rest with
          | Ok names => Ok (payload_name p :: names)
          | Throw e => Throw e
          end
      end
  end.

(** lines 358-376: the reply of the [confirm] branch.  [join] prints an
    undefined name as the empty string, a template as [undefined]. *)
Definition confirmReply (hospitalName city : string)
    (matches : list ScoredMatch) : Res string :=
  match matches with
  | first :: _ =>
      let best := payloadOfMatch first in
      let similarity := totalSimilarity first in
      if Qle_bool (7 # 10) similarity then
        Ok ("Yes, " ++ show (field payload_name best) ++ " at "
            ++ show (field payload_address best) ++ ", "
            ++ show (field payload_city best) ++ " is in your network.")
      else if Qle_bool (4 # 10) similarity then
        Ok ("I found " ++ show (field payload_name best) ++ " at "
            ++ show (field payload_address best) ++ ", "
            ++ show (field payload_city best)
            ++ ". Is this the hospital you're looking for?")
      else
        match payloadNames (take 2 matches) with
        | Ok names =>
            let alternativeNames := join ", " (map orEmpty names) in
            Ok ("I couldn't find an exact match for " ++ quoted hospitalName
                ++ inCity city ++ ". Did you mean: " ++ alternativeNames
                ++ "?")
        | Throw e => Throw e
        end
  | [] =>
      let cityText := inCity city in
      Ok ("I could not find " ++ quoted hospitalName ++ cityText
          ++ " in the network. Could you check the spelling or try a different name?")
  end.

(** lines 388-395: the reply of the [search] branch *)
Definition searchSummary (city : option string) (items : list Item) : string :=
  let n := List.length items in
  if (n =? 0)%nat then
    if truthy city
    then "I couldn't find any hospitals in " ++ orEmpty city ++ "."
    else "I couldn't find any hospitals."
  else
    let summary :=
      "Here " ++ (if negb (n =? 1)%nat then "are" else "is") ++ " "
      ++ pretty n ++ " hospital"
      ++ (if negb (n =? 1)%nat then "s" else EmptyString) in
    let summary :=
      if truthy city then summary ++ " in " ++ orEmpty city else summary in
    summary ++ ": "
    ++ join ", " (map (fun it => item_name it ++ " in " ++ item_city it) items).

Section Route.
Context {W Vec : Type}.

(** what the route calls: the retrieval collaborators, the classifier,
    the speech service, and the messaging service with its four
    environment variables *)
Record Backend : Type := {
  collaborators : Collaborators W Vec;
  classifier : string -> W -> Res Intent * W;
  voice : string -> W -> Tts * W;
  TWILIO_ACCOUNT_SID : option string;
  TWILIO_AUTH_TOKEN : option string;
  TWILIO_FROM_NUMBER : option string;
  TWILIO_NOTIFY_NUMBER : option string;
  messages : string -> string -> string -> string -> string -> W
             -> Res unit * W
}.

(** the world outside and the [sessions] map of the module *)
Record Server : Type := {
  outer : W;
  sessions : gmap string (list Turn)
}.

Context (be : Backend).

(** a call that knows nothing of the sessions *)
Definition within {A : Type} (m : M W A) : M Server A :=
  fun st =>
    let '(r, st') := m {| world := outer (world st); console := console st |} in
    (r, {| world := {| outer := world st';
                       sessions := sessions (world st) |};
           console := console st' |}).

(** [textToSpeech], for the [audioBase64] the route takes from its result *)
Definition textToSpeech (text : string) : M Server string :=
  fun st =>
    let '(out, w) := voice be text (outer (world st)) in
    let st' := {| world := {| outer := w; sessions := sessions (world st) |};
                  console := console st |} in
    match out with
    | TtsRejected e => (Throw e, st')
    | TtsNotOk status txt =>
        (Throw {| message := "ElevenLabs TTS error: " ++ pretty status
                             ++ " - " ++ txt |}, st')
    | TtsAudio (Ok audioBase64) => (Ok audioBase64, st')
    | TtsAudio (Throw e) => (Throw e, st')
    end.

Definition notifyHuman (reqText : string) : M Server unit :=
  let sid := TWILIO_ACCOUNT_SID be in
  let token := TWILIO_AUTH_TOKEN be in
  let from_ := TWILIO_FROM_NUMBER be in
  let to_ := TWILIO_NOTIFY_NUMBER be in
  if negb (truthy sid) || negb (truthy token) || negb (truthy from_)
     || negb (truthy to_)
  then ret tt
  else
    within
      (lift (messages be (orEmpty sid) (orEmpty token) (orEmpty from_)
               (orEmpty to_)
               ("Loop AI forwarded an out-of-scope request: "
                ++ quoted reqText))).

(** [sessions.get(sessionId)] for a session that exists *)
Definition sessionOf (sessionId : string) (s : Server) : list Turn :=
  default [] (sessions s !! sessionId).

(** [if (!sessions.has(sessionId)) sessions.set(sessionId, []);
    const session = sessions.get(sessionId)] *)
Definition openSession (sessionId : string) : M Server (list Turn) :=
  fun st =>
    match sessions (world st) !! sessionId with
    | Some session => (Ok session, st)
    | None =>
        (Ok [], {| world := {| outer := outer (world st);
                               sessions := <[sessionId := []]>
                                             (sessions (world st)) |};
                   console := console st |})
    end.

(** [session.push(turn)], on the array the map holds for [sessionId] *)
Definition push (sessionId : string) (turn : Turn) : M Server unit :=
  fun st =>
    (Ok tt, {| world := {| outer := outer (world st);
                           sessions :=
                             <[sessionId :=
                                 (sessionOf sessionId (world st) ++ [turn])%list]>
                               (sessions (world st)) |};
               console := console st |}).

(** the three statements every branch ends with: speak the reply, record
    it, respond *)
Definition answer (sessionId reply : string) (items : Items)
    : M Server Response :=
  audioBase64 <- textToSpeech reply ;;
  push sessionId {| role := assistant; turn_text := reply |} ;;;
  ret (Json200 reply audioBase64 "audio/wav" items).

(** [router.post('/chat', ...)] *)
Definition chat (req : Request) : M Server Response :=
  tryCatch
    (if negb (truthy (sessionId req)) || negb (truthy (req_text req)) then
       ret (Status400 "sessionId and text required")
     else
       let sessionId := orEmpty (sessionId req) in
       let text := orEmpty (req_text req) in
       session <- openSession sessionId ;;
       (if (List.length session =? 0)%nat then
          textToSpeech intro ;;;
          push sessionId {| role := assistant; turn_text := intro |}
        else ret tt) ;;;
       push sessionId {| role := user; turn_text := text |} ;;;
       intent <- within (lift (classifier be text)) ;;
       if isAction (action intent) "out_of_scope" then
         notifyHuman text ;;;
         answer sessionId
           "I'm sorry, I can't help with that. Forwarding to a human agent."
           NoItems
       else if isAction (action intent) "confirm" then
         let hospitalName := orEmpty (hospital_name intent) in
         let city := orEmpty (city intent) in
         if isEmpty hospitalName then
           answer sessionId "Which hospital would you like me to check?"
                  NoItems
         else
           matches <-
             within (confirmHospital (collaborators be) (JsString hospitalName)
                                     (Some city)) ;;
           reply <- fromRes (confirmReply hospitalName city matches) ;;
           answer sessionId reply (Matches matches)
       else if isAction (action intent) "search" then
         let city :=
           match city intent with
           | Some c => if isEmpty (trim c) then None else Some (trim c)
           | None => None
           end in
         let limit :=
           match limit intent with
           | Some (S n) => S n
           | _ => 3%nat
           end in
         items <- within (searchHospitals (collaborators be) city limit) ;;
         answer sessionId (searchSummary city items) (Hospitals items)
       else
         answer sessionId "Sorry, I couldn't process that request." NoItems)
    (fun err =>
       print ErrorLevel ("chat error " ++ message err) ;;;
       ret (Status500 err)).

End Route.

Arguments Backend : clear implicits.
Arguments Server : clear implicits.

(** a transcript is empty or opens with the greeting *)
Definition greeted (session : list Turn) : Prop :=
  session = []
  \/ head session = Some {| role := assistant; turn_text := intro |}.

(** a step that leaves the sessions alone *)
Definition quiet {W A : Type} (m : M (Server W) A) : Prop :=
  forall st, exists r st',
    m st = (r, st') /\ sessions (world st') = sessions (world st).

(** a step that ends the request: it responds with a reply it has added
    to the transcript of [sid], or throws with the sessions as they were *)
Definition settles {W : Type} (sid : string) (m : M (Server W) Response)
    : Prop :=
  forall st,
    (exists reply audioBase64 items st',
       m st = (Ok (Json200 reply audioBase64 "audio/wav" items), st')
       /\ sessions (world st')
          = <[sid := (sessionOf sid (world st)
                      ++ [{| role := assistant; turn_text := reply |}])%list]>
              (sessions (world st)))
    \/ (exists e st',
          m st = (Throw e, st')
          /\ sessions (world st') = sessions (world st)).

(** a backend whose classifier reads every text as a search in Mumbai,
    whose speech service always answers, and without messaging *)
Definition frontDesk (hits : list Hit) : Backend unit unit :=
  {| collaborators := Scenario.answering hits;
     classifier := fun _ w =>
       (Ok {| action := Some "search"; city := Some "Mumbai";
              hospital_name := None; limit := None |}, w);
     voice := fun _ w => (TtsAudio (Ok "UklGRg=="), w);
     TWILIO_ACCOUNT_SID := None;
     TWILIO_AUTH_TOKEN := None;
     TWILIO_FROM_NUMBER := None;
     TWILIO_NOTIFY_NUMBER := None;
     messages := fun _ _ _ _ _ w => (Ok tt, w) |}.

(** a server that has seen no request *)
Definition fresh : State (Server unit) :=
  {| world := {| outer := tt; sessions := ∅ |}; console := [] |}.

(** the candidates after the city filter, scored *)
Definition scoreOf (hospitalName mainName : string)
    (locationTerms : list string) (c : Candidate) : Q :=
  totalSimilarity (scoreCandidate hospitalName mainName locationTerms c).

End Chat.

(** ** The keys already stored ([getAllExistingKeys]) *)

Module Scroll.

(** a point identifier, which is what [next_page_offset] holds: a number
    or a string *)
Inductive Offset : Type :=
| NumberId (n : N)
| TextId (s : string).

(** JavaScript truthiness of [offset]; [None] is [null] or [undefined] *)
Definition truthyOffset (offset : option Offset) : bool :=
  match offset with
  | None => false
  | Some (NumberId n) => negb (n =? 0)%N
  | Some (TextId s) => negb (isEmpty s)
  end.

(** a point of a page, for its [payload?.unique_key] *)
Record Scrolled : Type := { scrolled_key : option string }.

(** [result.result]: [{ points, next_page_offset }] *)
Record Page : Type := {
  points : option (list Scrolled);
  next_page_offset : option Offset
}.

(** what the [POST] to [points/scroll] does; [json = Ok None] is a reply
    without [result] *)
Inductive ScrollOutcome : Type :=
| ScrollRejected (e : Error)
| ScrollNotOk (txt : string)
| ScrollReplied (json : Res (option Page)).

(** [existingKeys.add(key)] for every point with a truthy key *)
Definition addKeys (points : list Scrolled) (existingKeys : gset string)
    : gset string :=
  fold_left (fun keys point =>
               if truthy (scrolled_key point)
               then {[orEmpty (scrolled_key point)]} ∪ keys
               else keys)
            points existingKeys.

Section Keys.
Context {W : Type}.

(** the index, asked for one page from [offset] on; a request without
    [offset] starts at the first point *)
Context (scroll : string -> option Offset -> W -> ScrollOutcome * W).

(** the [while (true)] of [getAllExistingKeys], with [fuel] bounding the
    number of pages; [None] stands for a loop still running when the fuel
    is spent *)
Fixpoint scrollLoop (fuel : nat) (collectionName : string)
    (existingKeys : gset string) (offset : option Offset)
    : M W (option (gset string)) :=
  match fuel with
  | O => ret None
  | S fuel =>
      fun st =>
        let '(out, w) :=
          scroll collectionName
                 (if truthyOffset offset then offset else None) (world st) in
        let st' := {| world := w; console := console st |} in
        match out with
        | ScrollRejected e => (Throw e, st')
        | ScrollNotOk txt =>
            if includes txt "Not found" then (Ok (Some existingKeys), st')
            else
              (Throw {| message := "Failed to scroll existing keys: " ++ txt |},
               st')
        | ScrollReplied (Throw e) => (Throw e, st')
        | ScrollReplied (Ok None) =>
            (Throw {| message :=
                        "Cannot read properties of undefined (reading 'points')" |},
             st')
        | ScrollReplied (Ok (Some result)) =>
            let points := default [] (points result) in
            if (List.length points =? 0)%nat then (Ok (Some existingKeys), st')
            else
              let existingKeys := addKeys points existingKeys in
              let offset := next_page_offset result in
              if negb (truthyOffset offset) then (Ok (Some existingKeys), st')
              else
                (print LogLevel
                   ("Loaded " ++ pretty (size existingKeys)
                    ++ " existing keys...") ;;;
                 scrollLoop fuel collectionName existingKeys offset) st'
        end
  end.

Definition getAllExistingKeys (fuel : nat) (collectionName : string)
    : M W (option (gset string)) :=
  tryCatch
    (scrollLoop fuel collectionName ∅ None)
    (fun error =>
       if includes (message error) "Not found" then
         print LogLevel "Collection doesn't exist yet, no existing keys" ;;;
         ret (Some ∅)
       else throw error).

(** the index serves the pages [pages] from [offset] on and then ends the
    scroll: with a page without points, with a last page without a next
    offset, or with a 'Not found' *)
Inductive Serves (collectionName : string)
    : option Offset -> W -> list (list Scrolled) -> W -> Prop :=
| serves_not_found (offset : option Offset) (w w' : W) (txt : string) :
    scroll collectionName offset w = (ScrollNotOk txt, w') ->
    includes txt "Not found" = true ->
    Serves collectionName offset w [] w'
| serves_empty (offset : option Offset) (w w' : W) (result : Page) :
    scroll collectionName offset w = (ScrollReplied (Ok (Some result)), w') ->
    default [] (points result) = [] ->
    Serves collectionName offset w [] w'
| serves_last (offset : option Offset) (w w' : W) (result : Page)
    (p : Scrolled) (ps : list Scrolled) :
    scroll collectionName offset w = (ScrollReplied (Ok (Some result)), w') ->
    points result = Some (p :: ps) ->
    truthyOffset (next_page_offset result) = false ->
    Serves collectionName offset w [p :: ps] w'
| serves_more (offset : option Offset) (w w1 w' : W) (result : Page)
    (p : Scrolled) (ps : list Scrolled) (pages : list (list Scrolled)) :
    scroll collectionName offset w = (ScrollReplied (Ok (Some result)), w1) ->
    points result = Some (p :: ps) ->
    truthyOffset (next_page_offset result) = true ->
    Serves collectionName (next_page_offset result) w1 pages w' ->
    Serves collectionName offset w ((p :: ps) :: pages) w'.

End Keys.

(** the truthy keys of the points of some pages *)
Definition keysOf (pages : list (list Scrolled)) : gset string :=
  list_to_set
    (omap (fun point =>
             if truthy (scrolled_key point) then scrolled_key point else None)
          (concat pages)).

(** an index of two pages *)
Definition twoPages (collectionName : string) (offset : option Offset)
    (w : nat) : ScrollOutcome * nat :=
  match offset with
  | None =>
      (ScrollReplied
         (Ok (Some {| points := Some [ {| scrolled_key := Some "a|x|1" |};
                                       {| scrolled_key := None |} ];
                      next_page_offset := Some (NumberId 7) |})), S w)
  | Some _ =>
      (ScrollReplied
         (Ok (Some {| points := Some [ {| scrolled_key := Some "b|y|2" |} ];
                      next_page_offset := None |})), S w)
  end.

End Scroll.

(** ** What a ranked reply holds *)

(** [h] is the first of [hits] that has its key *)
Definition firstOfKey (hits : list Hit) (h : Hit) : Prop :=
  List.find (fun x => String.eqb (hitKey x) (hitKey h)) hits = Some h.

(** the hit is stored under the city *)
Definition storedIn (cityLower : string) (r : Hit) : bool :=
  String.eqb (cityOf r) cityLower.

(** the hit is stored under another city and has the city in its city or
    its address *)
Definition onlyMentions (cityLower : string) (r : Hit) : bool :=
  negb (String.eqb (cityOf r) cityLower) && mentionsCity cityLower r.

(** ** Scores next to a threshold *)

(** The code adds and compares scores in binary floating point; a score
    at least [margin] away from a threshold is on the same side of it
    before and after rounding. *)
Definition margin : Q := 1 # 1000000000.

(** ** The text a regular expression consumes *)

Fixpoint allChars (p : ascii -> bool) (s : string) : bool :=
  match s with
  | EmptyString => true
  | String c r => p c && allChars p r
  end.

(** [m] is the literal [p] up to case *)
Fixpoint ci_match (p m : string) : bool :=
  match p, m with
  | EmptyString, EmptyString => true
  | String a p', String c m' => ci_eq a c && ci_match p' m'
  | _, _ => false
  end.

(** the texts a match of [r] can be, the assertions [\b] and [$] aside *)
Fixpoint consumes (r : regex) (m : string) : Prop :=
  match r with
  | RLit p => ci_match p m = true
  | RPlus p => isEmpty m = false /\ allChars p m = true
  | RStar p => allChars p m = true
  | ROpt r1 => m = EmptyString \/ consumes r1 m
  | RAlt r1 r2 => consumes r1 m \/ consumes r2 m
  | RSeq r1 r2 =>
      exists m1 m2, m = m1 ++ m2 /\ consumes r1 m1 /\ consumes r2 m2
  | RWordB => m = EmptyString
  | REnd => m = EmptyString
  end.

(** the first character is no white space *)
Definition startsTight (s : string) : bool :=
  match s with
  | EmptyString => false
  | String c _ => negb (isSpace c)
  end.

(** the last character is no white space *)
Fixpoint endsTight (s : string) : bool :=
  match s with
  | EmptyString => false
  | String c r =>
      match r with
      | EmptyString => negb (isSpace c)
      | String _ _ => endsTight r
      end
  end.

(** ** Where a pattern first matches *)

(** the position at which [replace_go] finds the first match of [r] that
    is not empty *)
Fixpoint firstMatch_go (r : regex) (prev : bool) (s : string) : option nat :=
  match s with
  | EmptyString => None
  | String c s' =>
      match exec r prev s with
      | Some (S _) => Some 0%nat
      | _ => option_map S (firstMatch_go r (isWordChar c) s')
      end
  end.

Definition firstMatch (r : regex) (s : string) : option nat :=
  firstMatch_go r false s.

(** [tail] is what there is for [r] to strip from [kept ++ tail]: when
    [tail] is empty [r] matches nowhere, and otherwise the first match of
    [r] begins where [tail] begins *)
Definition cutsAt (r : regex) (kept tail : string) : Prop :=
  firstMatch r (kept ++ tail)
  = if isEmpty tail then None else Some (String.length kept).

(** * Properties *)

(** ** Lists *)

Section ListFacts.
Context {A : Type}.

Lemma filter_sublist (f : A -> bool) (l : list A) :
  sublist (List.filter f l) l.
Proof.
  induction l as [|x l IH]; simpl.
  - constructor.
  - destruct (f x); [apply sublist_skip | apply sublist_cons]; exact IH.
Qed.

Lemma sublist_In (l k : list A) (x : A) :
  sublist l k -> In x l -> In x k.
Proof.
  intros Hsub Hin. apply list_elem_of_In.
  apply list_elem_of_In in Hin. eapply elem_of_sublist; eassumption.
Qed.

Lemma sublist_Forall (P : A -> Prop) (l k : list A) :
  sublist l k -> Forall P k -> Forall P l.
Proof.
  intros Hsub Hk. apply List.Forall_forall. intros x Hx.
  rewrite List.Forall_forall in Hk. apply Hk.
  eapply sublist_In; eassumption.
Qed.

Lemma sublist_StronglySorted (R : A -> A -> Prop) (l k : list A) :
  sublist l k -> StronglySorted R k -> StronglySorted R l.
Proof.
  induction 1 as [|x l k Hsub IH|x l k Hsub IH]; intros Hk.
  - constructor.
  - apply StronglySorted_inv in Hk as [Hk Hx].
    constructor; [auto | eapply sublist_Forall; eassumption].
  - apply StronglySorted_inv in Hk as [Hk _]. auto.
Qed.
End ListFacts.

(** ** City filter *)

Lemma filterRes_sublist {A : Type} (f : A -> Res bool) (l kept : list A) :
  filterRes f l = Ok kept -> sublist kept l.
Proof.
  revert kept. induction l as [|x l IH]; intros kept; simpl.
  - intros [= <-]. constructor.
  - destruct (f x) as [b|e]; [|discriminate].
    destruct (filterRes f l) as [r|e]; [|discriminate].
    intros [= <-]. specialize (IH r eq_refl).
    destruct b; [now apply sublist_skip | now apply sublist_cons].
Qed.

Lemma filterRes_In {A : Type} (f : A -> Res bool) (l kept : list A) (x : A) :
  filterRes f l = Ok kept -> In x l -> f x = Ok true -> In x kept.
Proof.
  revert kept. induction l as [|y l IH]; intros kept; simpl; [tauto|].
  destruct (f y) as [b|e] eqn:Ey; [|discriminate].
  destruct (filterRes f l) as [r|e]; [|discriminate].
  intros [= <-] [->|Hx] Hfx.
  - rewrite Hfx in Ey. injection Ey as <-. now left.
  - specialize (IH r eq_refl Hx Hfx). destruct b; [now right | exact IH].
Qed.

Lemma filterRes_returns {A : Type} (f : A -> Res bool) (l : list A) :
  (forall x, exists b, f x = Ok b) -> exists kept, filterRes f l = Ok kept.
Proof.
  intros Hf. induction l as [|x l [r IH]]; simpl; [eauto|].
  destruct (Hf x) as [b ->]. rewrite IH. eauto.
Qed.

Section CityFilter.
Context {A : Type} (payloadOf : A -> option Payload).

Lemma filterByCity_falsy (results : list A) (city : option string) :
  truthy city = false -> filterByCity payloadOf results city = Ok results.
Proof. intros H. unfold filterByCity. now rewrite H. Qed.

Lemma filterByCity_sublist (results kept : list A) (city : option string) :
  filterByCity payloadOf results city = Ok kept -> sublist kept results.
Proof.
  unfold filterByCity. destruct (negb (truthy city)).
  - now intros [= <-].
  - apply filterRes_sublist.
Qed.

Lemma cityKeeps_returns (cityLower : string) (payload : option Payload) :
  cityMappings cityLower <> Inherited ->
  exists b, cityKeeps cityLower payload = Ok b.
Proof.
  intros Hown. unfold cityKeeps.
  repeat match goal with
         | |- context [if ?c then Ok true else _] => destruct c; [eauto|]
         end.
  destruct (cityMappings cityLower); [eauto | contradiction | eauto].
Qed.

(** outside the two inherited keys the filter returns *)
Lemma filterByCity_returns (results : list A) (city : option string) :
  cityMappings (toLowerCase (orEmpty city)) <> Inherited ->
  exists kept,
    filterByCity payloadOf results city = Ok kept /\ sublist kept results.
Proof.
  intros Hown. unfold filterByCity.
  destruct (negb (truthy city)); [eauto|].
  destruct (filterRes_returns
              (fun h => cityKeeps (toLowerCase (orEmpty city)) (payloadOf h))
              results) as [kept E].
  - intros x. now apply cityKeeps_returns.
  - exists kept. split; [exact E | eapply filterRes_sublist; exact E].
Qed.
End CityFilter.

Lemma cityKeeps_alias (a b : string) (payload : option Payload) :
  In (a, b) aliasPairs -> storedCity payload = b ->
  cityKeeps a payload = Ok true.
Proof.
  unfold storedCity, cityKeeps. intros Hin Hb. rewrite Hb. clear Hb.
  set (addr := toLowerCase (orEmpty (field payload_address payload))).
  clearbody addr.
  simpl in Hin.
  repeat (destruct Hin as [Hin|Hin]; [inversion Hin; subst a b; clear Hin|]);
    try contradiction;
    cbn; repeat (match goal with
                 | |- context [includes addr ?t] => destruct (includes addr t)
                 end; cbn); reflexivity.
Qed.

Lemma alias_own_key (a b : string) :
  In (a, b) aliasPairs -> cityMappings a <> Inherited.
Proof.
  simpl. intros Hin.
  repeat (destruct Hin as [Hin|Hin]; [inversion Hin; subst a b; discriminate|]).
  contradiction.
Qed.

(** [filterByCity] never adds, changes or moves a candidate: what it
    returns is a subsequence of its input; it returns for every city but
    [constructor] and [__proto__], and returns its input when the city is
    absent or empty, which is what the routes pass for an intent without a
    city. *)
Lemma filterByCity_subsequence {A : Type} (payloadOf : A -> option Payload)
    (results : list A) (city : option string) :
  (forall kept,
     filterByCity payloadOf results city = Ok kept -> sublist kept results)
  /\ (cityMappings (toLowerCase (orEmpty city)) <> Inherited ->
      exists kept, filterByCity payloadOf results city = Ok kept
                   /\ sublist kept results)
  /\ filterByCity payloadOf results None = Ok results
  /\ filterByCity payloadOf results (Some EmptyString) = Ok results
  /\ filterByCity payloadOf results (routeCity None) = Ok results.
Proof.
  split; [intros kept; apply filterByCity_sublist|].
  split; [apply filterByCity_returns|].
  repeat split; apply filterByCity_falsy; reflexivity.
Qed.

(** C4, as amended. A candidate whose stored city is one spelling of an
    alias pair is retained when the query city is the other spelling, in
    both directions for bangalore/bengaluru, mumbai/bombay and delhi/new
    delhi; a candidate stored as banglore is retained for the queries
    bangalore and bengaluru. Case is ignored on both sides. *)
Theorem filterByCity_alias_retained {A : Type}
    (payloadOf : A -> option Payload) (results : list A) (h : A)
    (queryCity : string) :
  In h results ->
  In (toLowerCase queryCity, storedCity (payloadOf h)) aliasPairs ->
  exists kept,
    filterByCity payloadOf results (Some queryCity) = Ok kept /\ In h kept.
Proof.
  intros Hh Hpair.
  destruct (filterByCity_returns payloadOf results (Some queryCity))
    as (kept & E & _).
  { eapply alias_own_key. exact Hpair. }
  exists kept. split; [exact E|].
  assert (Hq : isEmpty queryCity = false).
  { destruct queryCity; [|reflexivity].
    simpl in Hpair. exfalso.
    repeat (destruct Hpair as [Hpair|Hpair]; [discriminate Hpair|]).
    exact Hpair. }
  unfold filterByCity in E. simpl in E. rewrite Hq in E. simpl in E.
  eapply filterRes_In; [exact E | exact Hh |].
  eapply cityKeeps_alias; [exact Hpair | reflexivity].
Qed.

(** ** Score ranges *)

Lemma ratio_nonneg (n d : nat) : (0 <= ratio n d)%Q.
Proof.
  unfold ratio, Qdiv. apply Qmult_le_0_compat.
  - change 0%Q with (inject_Z 0). rewrite <- Zle_Qle. lia.
  - apply Qinv_le_0_compat. change 0%Q with (inject_Z 0).
    rewrite <- Zle_Qle. lia.
Qed.

Lemma ratio_le_1 (n d : nat) : (n <= d)%nat -> (0 < d)%nat -> (ratio n d <= 1)%Q.
Proof.
  intros Hnd Hd. unfold ratio. apply Qle_shift_div_r.
  - change 0%Q with (inject_Z 0). rewrite <- Zlt_Qlt. lia.
  - rewrite Qmult_1_l. rewrite <- Zle_Qle. lia.
Qed.

Lemma Qmin1_range (x : Q) : (0 <= x)%Q -> (0 <= Qmin 1 x /\ Qmin 1 x <= 1)%Q.
Proof.
  intros Hx. split.
  - apply Q.min_glb; [lra | exact Hx].
  - apply Q.le_min_l.
Qed.

Lemma calculateNameSimilarity_range (searchName hospitalName : string) :
  (0 <= calculateNameSimilarity searchName hospitalName
   /\ calculateNameSimilarity searchName hospitalName <= 1)%Q.
Proof.
  unfold calculateNameSimilarity.
  destruct (String.eqb _ _); [lra|].
  destruct (_ || _); [lra|].
  apply Qmin1_range.
  match goal with |- (0 <= ratio ?n ?d + _)%Q => pose proof (ratio_nonneg n d) end.
  destruct (existsb _ _); lra.
Qed.

Lemma count_fold_le {A : Type} (f : A -> bool) (l : list A) (n : nat) :
  (fold_left (fun c t => if f t then S c else c) l n <= n + List.length l)%nat.
Proof.
  revert n. induction l as [|t l IH]; intros n; simpl; [lia|].
  destruct (f t); etransitivity; try apply IH; lia.
Qed.

Lemma calculateAddressSimilarity_range (query address : string) :
  (0 <= calculateAddressSimilarity query address
   /\ calculateAddressSimilarity query address <= 1)%Q.
Proof.
  unfold calculateAddressSimilarity.
  set (terms := List.filter _ _).
  destruct (Nat.ltb_spec 0 (List.length terms)) as [Hlen|Hlen]; [|lra].
  split; [apply ratio_nonneg|].
  apply ratio_le_1; [|exact Hlen].
  apply (count_fold_le (includes (toLowerCase address)) terms 0).
Qed.

Lemma matchPart_nonneg (parts : list string) (a n : string) (m : Q) :
  (0 <= m)%Q -> (0 <= matchPart parts a n m)%Q.
Proof.
  intros Hm. induction parts as [|part parts IH]; simpl; [exact Hm|].
  destruct (_ && _); [lra | exact IH].
Qed.

Lemma matchTerm_nonneg (a n : string) (m : Q) (term : string) :
  (0 <= m)%Q -> (0 <= matchTerm a n m term)%Q.
Proof.
  intros Hm. unfold matchTerm.
  destruct (_ || _); [lra|].
  destruct (_ <? _)%nat; [now apply matchPart_nonneg | exact Hm].
Qed.

Lemma matchedTerms_nonneg (a n : string) (terms : list string) (m : Q) :
  (0 <= m)%Q -> (0 <= fold_left (matchTerm a n) terms m)%Q.
Proof.
  revert m. induction terms as [|t terms IH]; intros m Hm; simpl; [exact Hm|].
  apply IH. now apply matchTerm_nonneg.
Qed.

Lemma calculateLocationScore_range (locationTerms : list string)
    (hospitalAddress hospitalName : string) :
  (0 <= calculateLocationScore locationTerms hospitalAddress hospitalName
   /\ calculateLocationScore locationTerms hospitalAddress hospitalName
      <= 35 # 100)%Q.
Proof.
  unfold calculateLocationScore.
  destruct (0 <? List.length locationTerms)%nat; [|lra].
  set (m := fold_left _ _ _).
  assert (Hm : (0 <= m)%Q) by (apply matchedTerms_nonneg; lra).
  set (d := inject_Z _).
  assert (Hd : (0 <= / d)%Q).
  { apply Qinv_le_0_compat. unfold d. change 0%Q with (inject_Z 0).
    rewrite <- Zle_Qle. lia. }
  assert (Hq : (0 <= m / d)%Q) by (now apply Qmult_le_0_compat).
  destruct (Qmin1_range _ Hq) as [H0 H1]. lra.
Qed.

(** C3. Every weighted component lies between 0 and its weight, and
    [totalScore], their sum, lies between 0 and 0.4 + 0.35 + 0.15 + 0.1,
    hence inside the band with any bonus ceiling added on top. *)
Theorem totalScore_band (originalQuery mainName : string)
    (locationTerms : list string) (payload : option Payload) :
  let s := calculateEnhancedSimilarity originalQuery mainName locationTerms
                                        payload in
  (0 <= nameScore s /\ nameScore s <= 4 # 10)%Q
  /\ (0 <= locationScore s /\ locationScore s <= 35 # 100)%Q
  /\ (0 <= addressScore s /\ addressScore s <= 15 # 100)%Q
  /\ (0 <= overallNameScore s /\ overallNameScore s <= 1 # 10)%Q
  /\ (totalScore s
      == nameScore s + locationScore s + addressScore s + overallNameScore s)%Q
  /\ (0 <= totalScore s)%Q
  /\ (totalScore s <= (4 # 10) + (35 # 100) + (15 # 100) + (1 # 10))%Q
  /\ (totalScore s
      <= (4 # 10) + (35 # 100) + (15 # 100) + (1 # 10) + (2 # 10))%Q.
Proof.
  cbv zeta. unfold calculateEnhancedSimilarity. simpl.
  set (hn := orEmpty (field payload_name payload)).
  set (ha := orEmpty (field payload_address payload)).
  pose proof (calculateNameSimilarity_range mainName hn) as [? ?].
  pose proof (calculateNameSimilarity_range originalQuery hn) as [? ?].
  pose proof (calculateAddressSimilarity_range originalQuery ha) as [? ?].
  pose proof (calculateLocationScore_range locationTerms ha hn) as [? ?].
  repeat split; lra.
Qed.

(** ** The loops against the prose *)

Lemma matchWord_spec (w : string) (cs : list string) (n : nat) :
  matchWord w cs n = if existsb (Prose.tokensMatch w) cs then S n else n.
Proof.
  induction cs as [|c cs IH]; simpl; [reflexivity|].
  unfold Prose.tokensMatch at 1.
  destruct (includes c w || includes w c); [reflexivity | exact IH].
Qed.

Lemma matchedWords_spec (qs cs : list string) (n : nat) :
  fold_left (fun m w => matchWord w cs m) qs n
  = (n + Prose.matchedTokens qs cs)%nat.
Proof.
  unfold Prose.matchedTokens.
  revert n. induction qs as [|q qs IH]; intros n; simpl; [lia|].
  rewrite IH, matchWord_spec.
  destruct (existsb _ cs); simpl; lia.
Qed.

Lemma keyTerm_spec (w : string) (cs : list string) :
  existsb (fun h => includes h w && (4 <=? String.length w)%nat) cs
  = (4 <=? String.length w)%nat && existsb (fun c => includes c w) cs.
Proof.
  induction cs as [|c cs IH]; cbn [existsb].
  - now rewrite andb_false_r.
  - rewrite IH. destruct (includes c w), (4 <=? String.length w)%nat; reflexivity.
Qed.

Lemma existsb_ext' {A : Type} (f g : A -> bool) (l : list A) :
  (forall x, f x = g x) -> existsb f l = existsb g l.
Proof. intros H. induction l as [|x l IH]; simpl; [|rewrite H, IH]; reflexivity. Qed.

(** C5, as amended. When neither exact case-insensitive equality nor
    substring containment applies, the name score is the token overlap
    matchedTokens / max(len(queryTokens), len(candidateTokens)), a token
    pair matching when either token contains the other, plus a flat 0.2
    whenever some query token of length >= 4 is contained in some candidate
    token, the sum clamped to [0,1]. *)
Theorem calculateNameSimilarity_tokens (searchName hospitalName : string) :
  Prose.tokenCase searchName hospitalName = true ->
  calculateNameSimilarity searchName hospitalName
  = Prose.tokenScore Prose.bonusContained searchName hospitalName
  /\ (0 <= calculateNameSimilarity searchName hospitalName)%Q
  /\ (calculateNameSimilarity searchName hospitalName <= 1)%Q.
Proof.
  intros Hcase. split; [|apply calculateNameSimilarity_range].
  unfold Prose.tokenCase in Hcase. apply andb_true_iff in Hcase as [He Hc].
  apply negb_true_iff in He, Hc.
  unfold calculateNameSimilarity, Prose.tokenScore, Prose.bonusContained.
  rewrite He, Hc.
  rewrite matchedWords_spec. simpl.
  rewrite (existsb_ext' _ _ _ (fun w => keyTerm_spec w _)).
  reflexivity.
Qed.

Lemma matchPart_spec (parts : list string) (a n : string) (m : Q) :
  matchPart parts a n m
  = if existsb (fun part => (3 <=? String.length part)%nat
                            && (includes a part || includes n part)) parts
    then (m + (1 # 2))%Q else m.
Proof.
  induction parts as [|part parts IH]; simpl; [reflexivity|].
  destruct (_ && _); [reflexivity | exact IH].
Qed.

Lemma length_toLowerCase (s : string) :
  String.length (toLowerCase s) = String.length s.
Proof. induction s as [|c s IH]; simpl; [|rewrite IH]; reflexivity. Qed.

Lemma matchTerm_spec (address name : string) (m : Q) (term : string) :
  (matchTerm (toLowerCase address) (toLowerCase name) m term
   == m + Prose.creditLongTerms address name term)%Q.
Proof.
  unfold matchTerm, Prose.creditLongTerms, Prose.contained.
  destruct (_ || _); [lra|].
  rewrite length_toLowerCase.
  destruct (4 <? String.length term)%nat; simpl; [|lra].
  rewrite matchPart_spec. unfold Prose.partContained.
  destruct (existsb _ _); lra.
Qed.

Lemma matchedTerms_spec (address name : string) (terms : list string) (m : Q) :
  (fold_left (matchTerm (toLowerCase address) (toLowerCase name)) terms m
   == m + Prose.sumCredits (Prose.creditLongTerms address name) terms)%Q.
Proof.
  revert m. induction terms as [|t terms IH]; intros m; simpl; [lra|].
  rewrite IH, matchTerm_spec. lra.
Qed.

(** The location component on an arbitrary list of terms: a term
    contained in the candidate address or name earns 1, any other term
    longer than 4 characters earns 0.5 when one of its hyphen/space-split
    sub-parts of length >= 3 is contained in the address or name (once per
    term), the credits are summed, divided by the number of terms and
    clamped to 1.0 before the weight 0.35 applies; with no location terms
    the component is 0. *)
Theorem locationScore_credits (originalQuery mainName : string)
    (locationTerms : list string) (payload : option Payload) :
  (locationScore
     (calculateEnhancedSimilarity originalQuery mainName locationTerms payload)
   == Prose.locationComponent Prose.creditLongTerms locationTerms
        (orEmpty (field payload_address payload))
        (orEmpty (field payload_name payload)))%Q
  /\ locationScore
       (calculateEnhancedSimilarity originalQuery mainName [] payload) = 0%Q.
Proof.
  split; [|reflexivity].
  unfold calculateEnhancedSimilarity, calculateLocationScore. simpl.
  destruct locationTerms as [|t terms]; [reflexivity|].
  change (0 <? List.length (t :: terms))%nat with true. cbv iota.
  unfold Prose.locationComponent.
  rewrite matchedTerms_spec. rewrite Qplus_0_l. reflexivity.
Qed.

(** ** Sorting *)

Section Sort.
Context {A : Type} (f : A -> Q).

Lemma insertSorted_In (x z : A) (l : list A) :
  In z (insertSorted (descending f) x l) <-> z = x \/ In z l.
Proof.
  induction l as [|y l IH]; simpl.
  - intuition.
  - destruct (Qle_bool _ _); simpl; rewrite ?IH; intuition.
Qed.

Lemma sort_In (z : A) (l : list A) : In z (sort (descending f) l) <-> In z l.
Proof.
  induction l as [|x l IH]; simpl; [reflexivity|].
  rewrite insertSorted_In, IH. intuition.
Qed.

Lemma insertSorted_sorted (x : A) (l : list A) :
  StronglySorted (notBelow f) l ->
  StronglySorted (notBelow f) (insertSorted (descending f) x l).
Proof.
  induction 1 as [|y l Hl IH Hy]; simpl.
  - repeat constructor.
  - unfold descending at 1.
    destruct (Qle_bool (f y - f x) 0) eqn:Hc.
    + apply Qle_bool_iff in Hc.
      assert (Hyx : notBelow f x y) by (unfold notBelow; lra).
      constructor; [constructor; assumption|].
      constructor; [exact Hyx|].
      eapply Forall_impl; [exact Hy|]. unfold notBelow in *.
      intros z Hz. simpl in Hz. lra.
    + assert (Hxy : (f x <= f y)%Q).
      { destruct (Qlt_le_dec 0 (f y - f x)) as [Hlt|Hle]; [lra|].
        apply Qle_bool_iff in Hle. congruence. }
      constructor; [exact IH|].
      apply List.Forall_forall. intros z Hz.
      apply insertSorted_In in Hz as [->|Hz]; [exact Hxy|].
      rewrite List.Forall_forall in Hy. now apply Hy.
Qed.

Lemma sort_sorted (l : list A) : StronglySorted (notBelow f) (sort (descending f) l).
Proof.
  induction l as [|x l IH]; simpl; [constructor|].
  now apply insertSorted_sorted.
Qed.

Lemma insertSorted_Permutation (x : A) (l : list A) :
  insertSorted (descending f) x l ≡ₚ x :: l.
Proof.
  induction l as [|y l IH]; simpl; [reflexivity|].
  destruct (Qle_bool _ _); [reflexivity|].
  rewrite IH. apply Permutation_swap.
Qed.

Lemma sort_Permutation (l : list A) : sort (descending f) l ≡ₚ l.
Proof.
  induction l as [|x l IH]; simpl; [reflexivity|].
  now rewrite insertSorted_Permutation, IH.
Qed.
End Sort.

(** ** Ranking *)

Lemma topMatches_In (hospitalName mainName : string)
    (locationTerms : list string) (cityFiltered : list Candidate)
    (m : ScoredMatch) :
  In m (topMatches hospitalName mainName locationTerms cityFiltered) ->
  (exists c, In c cityFiltered
             /\ m = scoreCandidate hospitalName mainName locationTerms c)
  /\ Qle_bool (25 # 100) (totalSimilarity m) = true.
Proof.
  unfold topMatches. intros Hm.
  apply (sublist_In _ _ _ (sublist_take _ _)) in Hm.
  apply List.filter_In in Hm as [Hm Hgood]. split; [|exact Hgood].
  apply sort_In in Hm. apply List.in_map_iff in Hm as (c & <- & Hc).
  exists c. split; [exact Hc | reflexivity].
Qed.

Lemma topMatches_top3 (hospitalName mainName : string)
    (locationTerms : list string) (cityFiltered : list Candidate) :
  let top := topMatches hospitalName mainName locationTerms cityFiltered in
  (List.length top <= 3)%nat
  /\ Forall (fun m => (25 # 100 <= totalScore (sm_scoring m))%Q) top
  /\ StronglySorted (notBelow (fun m => totalScore (sm_scoring m))) top.
Proof.
  cbv zeta.
  assert (Hscored : forall m,
            In m (topMatches hospitalName mainName locationTerms cityFiltered) ->
            totalSimilarity m = totalScore (sm_scoring m)).
  { intros m Hm. apply topMatches_In in Hm as [(c & _ & ->) _].
    reflexivity. }
  split; [|split].
  - unfold topMatches. rewrite length_take. lia.
  - apply List.Forall_forall. intros m Hm.
    rewrite <- (Hscored m Hm).
    apply topMatches_In in Hm as [_ Hgood].
    now apply Qle_bool_iff.
  - assert (Hsorted : StronglySorted (notBelow totalSimilarity)
              (topMatches hospitalName mainName locationTerms cityFiltered)).
    { unfold topMatches.
      eapply sublist_StronglySorted; [apply sublist_take|].
      eapply sublist_StronglySorted; [apply filter_sublist|].
      apply (sort_sorted totalSimilarity). }
    revert Hscored Hsorted.
    generalize (topMatches hospitalName mainName locationTerms cityFiltered).
    intros l Hscored Hsorted.
    induction Hsorted as [|m l Hl IH Hm]; constructor.
    + apply IH. intros z Hz. apply Hscored. now right.
    + apply List.Forall_forall. intros z Hz.
      rewrite List.Forall_forall in Hm. specialize (Hm z Hz).
      unfold notBelow in *.
      rewrite <- (Hscored m), <- (Hscored z); [exact Hm | now right | now left].
Qed.

(** ** Merging by key *)

Lemma mergeHit_tagged (tag : Hit -> Candidate) (hits : list Hit)
    (acc : gset string * list Candidate) :
  (forall h, cand_hit (tag h) = h) ->
  fold_left (mergeHit tag) hits acc = fold_left mergeCandidate (map tag hits) acc.
Proof.
  intros Htag. revert acc.
  induction hits as [|h hits IH]; intros [seen allResults]; simpl;
    [reflexivity|].
  unfold candKey, cand_payload. rewrite Htag. apply IH.
Qed.

Lemma keyed_empty : keyed (∅, []).
Proof. split; [intros k; simpl; set_solver | constructor]. Qed.

Lemma keyed_push (seen : gset string) (allResults : list Candidate)
    (c : Candidate) :
  keyed (seen, allResults) -> candKey c ∉ seen ->
  keyed ({[candKey c]} ∪ seen, (allResults ++ [c])%list).
Proof.
  intros [Hseen Hnodup] Hfresh. split; simpl in *.
  - intros k. rewrite List.map_app, List.in_app_iff. simpl.
    rewrite elem_of_union, elem_of_singleton, Hseen. intuition.
  - rewrite List.map_app. simpl.
    apply List.NoDup_app.
    + exact Hnodup.
    + repeat constructor. intros [].
    + intros k Hk [<-|[]]. apply Hfresh. now apply Hseen.
Qed.

Lemma mergeCandidate_stream (stream : list Candidate) (seen : gset string)
    (allResults : list Candidate) :
  keyed (seen, allResults) ->
  exists kept,
    snd (fold_left mergeCandidate stream (seen, allResults))
    = (allResults ++ kept)%list
    /\ keyed (fold_left mergeCandidate stream (seen, allResults))
    /\ sublist kept stream
    /\ forall pre c post,
         stream = (pre ++ c :: post)%list ->
         candKey c ∉ seen -> ~ In (candKey c) (map candKey pre) ->
         In c kept.
Proof.
  revert seen allResults.
  induction stream as [|c0 stream IH]; intros seen allResults Hkeyed.
  - exists []. simpl. rewrite List.app_nil_r. repeat split; try apply Hkeyed.
    + constructor.
    + intros [|? ?] ? post E; discriminate E.
  - simpl. destruct (decide (candKey c0 ∈ seen)) as [Hseen|Hfresh].
    + destruct (IH seen allResults Hkeyed) as (kept & E & Hk & Hsub & Hfirst).
      exists kept. repeat split; try assumption; try apply Hk.
      * now apply sublist_cons.
      * intros [|p pre] c1 post Es Hc Hpre; simpl in Es; inversion Es; subst.
        -- contradiction.
        -- eapply Hfirst; [reflexivity | exact Hc |].
           intros Hin. apply Hpre. now right.
    + destruct (IH _ _ (keyed_push _ _ _ Hkeyed Hfresh))
        as (kept & E & Hk & Hsub & Hfirst).
      exists (c0 :: kept). repeat split; try apply Hk.
      * rewrite E, <- List.app_assoc. reflexivity.
      * now apply sublist_skip.
      * intros [|p pre] c1 post Es Hc Hpre; simpl in Es; inversion Es; subst.
        -- now left.
        -- right. eapply Hfirst; [reflexivity | |].
           ++ rewrite elem_of_union, elem_of_singleton.
              intros [Heq|Hin]; [|contradiction].
              apply Hpre. left. now symmetry.
           ++ intros Hin. apply Hpre. now right.
Qed.

Lemma candKey_triple (c d : Candidate) :
  candTriple c = candTriple d -> candKey c = candKey d.
Proof.
  unfold candTriple, candKey, tripleKey. intros E.
  inversion E as [[E1 E2 E3]]. now rewrite E1, E2, E3.
Qed.

Lemma NoDup_keys_triples (l : list Candidate) :
  List.NoDup (map candKey l) -> List.NoDup (map candTriple l).
Proof.
  induction l as [|c l IH]; simpl; intros H; [constructor|].
  inversion H as [|k ks Hnotin Hrest]; subst.
  constructor; [|auto].
  intros Hin. apply Hnotin.
  apply List.in_map_iff in Hin as (d & Ed & Hd).
  apply List.in_map_iff. exists d. split; [|exact Hd].
  now apply candKey_triple.
Qed.

Lemma rankCandidates_nil (hospitalName mainName : string)
    (locationTerms : list string) (city : option string) :
  rankCandidates hospitalName mainName locationTerms city [] = Ok [].
Proof.
  unfold rankCandidates, filterByCity.
  destruct (negb (truthy city)); reflexivity.
Qed.

(** ** Running the orchestrator *)

Lemma mergeReply_hitsOf (tag : Hit -> Candidate) (reply : QdrantReply)
    (acc : gset string * list Candidate) :
  mergeReply tag reply acc = fold_left (mergeHit tag) (hitsOf reply) acc.
Proof. unfold mergeReply, hitsOf. now destruct (result reply). Qed.

Section Runs.
Context {W Vec : Type} (env : Collaborators W Vec).

Lemma bind_run {A B : Type} (m : M W A) (k : A -> M W B) (st : State W) :
  bind m k st
  = match m st with
    | (Ok a, st') => k a st'
    | (Throw e, st') => (Throw e, st')
    end.
Proof. reflexivity. Qed.

Lemma semanticStep_run (city : option string)
    (acc : gset string * list Candidate) (query : string) (st : State W) :
  semanticStep env city acc query st
  = match semanticRetrieval env city query st with
    | (Ok reply, st1) => (Ok (mergeReply (tagSemantic query) reply acc), st1)
    | (Throw e, st1) =>
        (Ok acc,
         logged st1 WarnLevel
           ("Semantic search failed for query " ++ quoted query ++ ": "
            ++ message e))
    end.
Proof.
  unfold semanticStep, semanticRetrieval, tryCatch, bind.
  destruct (embedText env query st) as [[vec|e] st1]; [|reflexivity].
  destruct (hybridSearch env COLLECTION vec 15 city st1) as [[reply|e] st2];
    reflexivity.
Qed.

Lemma fuzzyStep_run (hospitalName : string)
    (acc : gset string * list Candidate) (st : State W) :
  fuzzyStep env hospitalName acc st
  = match fuzzyMatchHospital env COLLECTION hospitalName st with
    | (Ok reply, st1) => (Ok (mergeReply tagFuzzy reply acc), st1)
    | (Throw e, st1) =>
        (Ok acc, logged st1 WarnLevel ("Fuzzy search failed: " ++ message e))
    end.
Proof.
  unfold fuzzyStep, tryCatch, bind.
  destruct (fuzzyMatchHospital env COLLECTION hospitalName st)
    as [[reply|e] st1]; reflexivity.
Qed.

Lemma semanticStep_merges (city : option string)
    (acc : gset string * list Candidate) (query : string) (st : State W) :
  semanticStep env city acc query st
  = (Ok (fold_left (mergeHit (tagSemantic query))
                   (answered (semanticRetrieval env city query st)) acc),
     afterSemantic env city query st).
Proof.
  unfold afterSemantic, answered. rewrite !semanticStep_run.
  destruct (semanticRetrieval env city query st) as [[reply|e] st1]; simpl.
  - now rewrite mergeReply_hitsOf.
  - reflexivity.
Qed.

Lemma fuzzyStep_merges (hospitalName : string)
    (acc : gset string * list Candidate) (st : State W) :
  fuzzyStep env hospitalName acc st
  = (Ok (fold_left (mergeHit tagFuzzy)
                   (answered (fuzzyMatchHospital env COLLECTION hospitalName st))
                   acc),
     afterFuzzy env hospitalName st).
Proof.
  unfold afterFuzzy, answered. rewrite !fuzzyStep_run.
  destruct (fuzzyMatchHospital env COLLECTION hospitalName st)
    as [[reply|e] st1]; simpl.
  - now rewrite mergeReply_hitsOf.
  - reflexivity.
Qed.

Lemma collectResults_merges (hospitalName mainName : string)
    (locationTerms : list string) (city : option string) (st : State W) :
  collectResults env hospitalName mainName locationTerms city st
  = (Ok (fold_left mergeCandidate
           (fst (sourceStream env hospitalName mainName locationTerms city st))
           (∅, [])),
     snd (sourceStream env hospitalName mainName locationTerms city st)).
Proof.
  unfold collectResults, sourceStream. cbn [forEach fst snd].
  fold (variant2 mainName locationTerms). fold (variant3 hospitalName city).
  rewrite 2!bind_run, semanticStep_merges. cbv beta iota.
  rewrite bind_run, semanticStep_merges. cbv beta iota.
  rewrite bind_run, semanticStep_merges. cbv beta iota. unfold ret.
  rewrite fuzzyStep_merges.
  rewrite !fold_left_app, !mergeHit_tagged by reflexivity.
  reflexivity.
Qed.

Lemma confirmHospital_string (name : string) (city : option string)
    (st : State W) :
  confirmHospital env (JsString name) city st
  = match collectResults env name (extractMainHospitalName name)
                         (extractLocationTerms name) city
                         (logged st LogLevel (searchingLine name city)) with
    | (Ok acc, st2) =>
        match rankCandidates name (extractMainHospitalName name)
                             (extractLocationTerms name) city (snd acc) with
        | Ok goodMatches =>
            (Ok goodMatches,
             logged st2 LogLevel
               ("Hospital confirmation results for " ++ quoted name ++ ":"))
        | Throw e =>
            (Ok [],
             logged st2 ErrorLevel
               ("Error in confirmHospital: " ++ message e))
        end
    | (Throw e, st2) =>
        (Ok [],
         logged st2 ErrorLevel ("Error in confirmHospital: " ++ message e))
    end.
Proof.
  unfold confirmHospital, tryCatch, bind, receiver, ret, print, logged,
    searchingLine, fromRes. cbn [world console].
  destruct (collectResults env name _ _ city _) as [[acc|e] st2];
    [|reflexivity].
  destruct (rankCandidates name _ _ city (snd acc)); reflexivity.
Qed.

Lemma confirmHospital_number (n : Z) (city : option string) (st : State W) :
  confirmHospital env (JsNumber n) city st
  = (Ok [],
     logged st ErrorLevel
       "Error in confirmHospital: hospitalName.toLowerCase is not a function").
Proof. reflexivity. Qed.

Lemma confirmHospital_run (hospitalName : JsValue) (city : option string)
    (st : State W) :
  exists st',
    confirmHospital env hospitalName city st = (Ok [], st')
    \/ exists name cityFiltered,
         hospitalName = JsString name
         /\ confirmHospital env hospitalName city st
            = (Ok (topMatches name (extractMainHospitalName name)
                              (extractLocationTerms name) cityFiltered),
               st').
Proof.
  destruct hospitalName as [name|n].
  - rewrite confirmHospital_string, collectResults_merges.
    unfold rankCandidates.
    destruct (filterByCity cand_payload _ city) as [cityFiltered|e].
    + eexists. right. eexists _, _. split; reflexivity.
    + eexists. left. reflexivity.
  - rewrite confirmHospital_number. eexists. left. reflexivity.
Qed.

Lemma postSearch_down (collectionName : string) (body : SearchBody Vec)
    (failure : string) (st : State W) :
  indexDown env -> exists e st', postSearch env collectionName body failure st
                             = (Throw e, st').
Proof.
  intros Hdown. unfold postSearch.
  specialize (Hdown collectionName body (world st)).
  destruct (qdrant env collectionName body (world st)) as [out w].
  destruct out as [e|txt|[reply|e]]; simpl in Hdown;
    try discriminate Hdown; eexists _, _; reflexivity.
Qed.

Lemma semanticRetrieval_down (city : option string) (query : string)
    (st : State W) :
  indexDown env -> answered (semanticRetrieval env city query st) = [].
Proof.
  intros Hdown. unfold answered, semanticRetrieval, hybridSearch.
  rewrite bind_run.
  destruct (embedText env query st) as [[vec|e] st1]; [|reflexivity].
  rewrite bind_run.
  destruct (postSearch_down COLLECTION (hybridBody vec 15 city)
              "Qdrant hybridSearch failed: " st1 Hdown) as (e & st2 & E).
  now rewrite E.
Qed.

Lemma fuzzyMatchHospital_down (hospitalName : string) (st : State W) :
  indexDown env ->
  answered (fuzzyMatchHospital env COLLECTION hospitalName st) = [].
Proof.
  intros Hdown. unfold answered, fuzzyMatchHospital.
  match goal with
  | |- context [postSearch env ?c ?b ?f st] =>
      destruct (postSearch_down c b f st Hdown) as (e & st2 & E)
  end.
  now rewrite E.
Qed.

Lemma forEach_semanticStep (city : option string) (query : string)
    (rest : list string) (acc : gset string * list Candidate)
    (st : State W) :
  forEach (semanticStep env city) (query :: rest) acc st
  = match semanticRetrieval env city query st with
    | (Ok reply, st1) =>
        forEach (semanticStep env city) rest
                (mergeReply (tagSemantic query) reply acc) st1
    | (Throw e, st1) =>
        forEach (semanticStep env city) rest acc
                (logged st1 WarnLevel
                   ("Semantic search failed for query " ++ quoted query
                    ++ ": " ++ message e))
    end.
Proof.
  cbn [forEach]. rewrite bind_run, semanticStep_run.
  destruct (semanticRetrieval env city query st) as [[reply|e] st1]; reflexivity.
Qed.

End Runs.

(** C1. Whatever the collaborators do, [confirmHospital] returns a list
    of at most 3 matches, each with [totalScore >= 0.25], in descending
    order of [totalScore]. *)
Theorem confirmHospital_top3 {W Vec : Type} (env : Collaborators W Vec)
    (hospitalName : JsValue) (city : option string) (st : State W) :
  exists matches st',
    confirmHospital env hospitalName city st = (Ok matches, st')
    /\ (List.length matches <= 3)%nat
    /\ Forall (fun m => (25 # 100 <= totalScore (sm_scoring m))%Q) matches
    /\ StronglySorted (notBelow (fun m => totalScore (sm_scoring m))) matches.
Proof.
  destruct (confirmHospital_run env hospitalName city st)
    as (st' & [E | (name & cityFiltered & _ & E)]).
  - exists [], st'. split; [exact E|]. repeat split; [simpl; lia | | ];
      constructor.
  - eexists _, st'. split; [exact E|]. apply topMatches_top3.
Qed.

(** C7. Whatever the three query variants and the fuzzy search return,
    the merged candidate set holds no two entries with the same
    [(name, city, address)]; it is a subsequence of the stream of tagged
    hits, and a hit is in it whenever no earlier hit of the stream has its
    key: the first occurrence wins, later duplicates are dropped. *)
Theorem collectResults_deduplicated {W Vec : Type} (env : Collaborators W Vec)
    (hospitalName mainName : string) (locationTerms : list string)
    (city : option string) (st : State W) :
  let stream :=
    fst (sourceStream env hospitalName mainName locationTerms city st) in
  exists acc st',
    collectResults env hospitalName mainName locationTerms city st
    = (Ok acc, st')
    /\ List.NoDup (map candTriple (snd acc))
    /\ sublist (snd acc) stream
    /\ forall pre c post,
         stream = (pre ++ c :: post)%list ->
         ~ In (candKey c) (map candKey pre) ->
         In c (snd acc).
Proof.
  cbv zeta. rewrite collectResults_merges.
  set (stream :=
         fst (sourceStream env hospitalName mainName locationTerms city st)).
  destruct (mergeCandidate_stream stream ∅ [] keyed_empty)
    as (kept & E & Hk & Hsub & Hfirst).
  change ([] ++ kept)%list with kept in E.
  eexists _, _. split; [reflexivity|].
  cbn [snd]. repeat split.
  - apply NoDup_keys_triples. apply Hk.
  - rewrite E. exact Hsub.
  - intros pre c post Es Hpre. rewrite E.
    eapply Hfirst; [exact Es | set_solver | exact Hpre].
Qed.

(** C8. [confirmHospital] always returns a list and never throws.  A
    query variant whose retrieval fails is logged as a warning and the loop
    goes on with the remaining variants and the candidates merged so far;
    the fuzzy search, run after the loop, is handled alike, so the merged
    set is built from the hits of every source that answered.  An unexpected
    failure of the body (the argument is not a string, the city filter
    throws) is logged as an error and gives the empty list, and so does an
    index that answers no request at all. *)
Theorem confirmHospital_never_throws {W Vec : Type}
    (env : Collaborators W Vec) (hospitalName : JsValue)
    (city : option string) (st : State W) :
  (exists matches st',
     confirmHospital env hospitalName city st = (Ok matches, st'))
  /\ (forall query rest acc st0,
        forEach (semanticStep env city) (query :: rest) acc st0
        = match semanticRetrieval env city query st0 with
          | (Ok reply, st1) =>
              forEach (semanticStep env city) rest
                      (mergeReply (tagSemantic query) reply acc) st1
          | (Throw e, st1) =>
              forEach (semanticStep env city) rest acc
                      (logged st1 WarnLevel
                         ("Semantic search failed for query " ++ quoted query
                          ++ ": " ++ message e))
          end)
  /\ (forall name mainName locationTerms st0,
        collectResults env name mainName locationTerms city st0
        = (Ok (fold_left mergeCandidate
                 (fst (sourceStream env name mainName locationTerms city st0))
                 (∅, [])),
           snd (sourceStream env name mainName locationTerms city st0)))
  /\ (forall name acc st0,
        fuzzyStep env name acc st0
        = match fuzzyMatchHospital env COLLECTION name st0 with
          | (Ok reply, st1) => (Ok (mergeReply tagFuzzy reply acc), st1)
          | (Throw e, st1) =>
              (Ok acc,
               logged st1 WarnLevel ("Fuzzy search failed: " ++ message e))
          end)
  /\ (forall n,
        confirmHospital env (JsNumber n) city st
        = (Ok [],
           logged st ErrorLevel
             "Error in confirmHospital: hospitalName.toLowerCase is not a function"))
  /\ (forall name,
        confirmHospital env (JsString name) city st
        = match collectResults env name (extractMainHospitalName name)
                               (extractLocationTerms name) city
                               (logged st LogLevel (searchingLine name city))
          with
          | (Ok acc, st2) =>
              match rankCandidates name (extractMainHospitalName name)
                                   (extractLocationTerms name) city (snd acc)
              with
              | Ok goodMatches =>
                  (Ok goodMatches,
                   logged st2 LogLevel
                     ("Hospital confirmation results for " ++ quoted name
                      ++ ":"))
              | Throw e =>
                  (Ok [],
                   logged st2 ErrorLevel
                     ("Error in confirmHospital: " ++ message e))
              end
          | (Throw e, st2) =>
              (Ok [],
               logged st2 ErrorLevel
                 ("Error in confirmHospital: " ++ message e))
          end)
  /\ (indexDown env ->
      exists st', confirmHospital env hospitalName city st = (Ok [], st')).
Proof.
  split; [|split; [|split; [|split; [|split; [|split]]]]].
  - destruct (confirmHospital_run env hospitalName city st)
      as (st' & [E | (name & cityFiltered & _ & E)]); eauto.
  - intros query rest acc st0. apply forEach_semanticStep.
  - intros name mainName locationTerms st0. apply collectResults_merges.
  - intros name acc st0. apply fuzzyStep_run.
  - intros n. apply confirmHospital_number.
  - intros name. apply confirmHospital_string.
  - intros Hdown. destruct hospitalName as [name|n].
    + rewrite confirmHospital_string, collectResults_merges.
      unfold sourceStream. cbn [fst snd].
      rewrite !semanticRetrieval_down, fuzzyMatchHospital_down by exact Hdown.
      cbn [map app fold_left snd]. rewrite rankCandidates_nil.
      eexists. reflexivity.
    + rewrite confirmHospital_number. eexists. reflexivity.
Qed.

(** ** Search path *)

Lemma filter_map_toItem (l : list Hit) :
  List.filter (fun it => negb (String.eqb (item_name it) "Unknown"))
              (map toItem l)
  = map toItem (List.filter named l).
Proof.
  induction l as [|h l IH]; simpl; [reflexivity|].
  unfold named at 1. destruct (negb _); simpl; now rewrite IH.
Qed.

Lemma map_toItem_sorted (l : list Hit) :
  StronglySorted hitNotBelow l -> StronglySorted itemNotBelow (map toItem l).
Proof.
  induction 1 as [|h l Hl IH Hh]; simpl; constructor; [exact IH|].
  apply List.Forall_forall. intros it Hit.
  apply List.in_map_iff in Hit as (h' & <- & Hh').
  rewrite List.Forall_forall in Hh. exact (Hh h' Hh').
Qed.

Lemma named_has_name (h : Hit) :
  named h = true ->
  exists n, field payload_name (hit_payload h) = Some n
            /\ isEmpty (trim n) = false.
Proof.
  unfold named, toItem, trimmedOr. simpl.
  destruct (field payload_name (hit_payload h)) as [n|]; [|discriminate].
  destruct (isEmpty (trim n)) eqn:E; [discriminate|]. eauto.
Qed.

Lemma rankHits_length (topK : nat) (city : option string) (hits : list Hit) :
  (List.length (rankHits topK city hits) <= topK)%nat.
Proof.
  unfold rankHits. destruct (truthy city); rewrite length_take; lia.
Qed.

(** ** Main name *)

Lemma toLowerChar_idem (c : ascii) : toLowerChar (toLowerChar c) = toLowerChar c.
Proof.
  destruct c as [[] [] [] [] [] [] [] []]; reflexivity.
Qed.

Lemma toLowerCase_idem (s : string) : toLowerCase (toLowerCase s) = toLowerCase s.
Proof.
  induction s as [|c s IH]; simpl; [reflexivity|].
  now rewrite toLowerChar_idem, IH.
Qed.

Lemma lowered_cons (c : ascii) (s : string) :
  lowered (String c s) <-> toLowerChar c = c /\ lowered s.
Proof.
  unfold lowered. simpl. split.
  - intros H. now inversion H as [[Hc Hs]]; rewrite Hc, Hs.
  - intros [Hc Hs]. now rewrite Hc, Hs.
Qed.

Lemma replace_go_lowered (r : regex) (s : string) :
  forall skip prev, lowered s -> lowered (replace_go r skip prev s).
Proof.
  induction s as [|c s IH]; intros skip prev Hs; simpl; [exact Hs|].
  apply lowered_cons in Hs as [Hc Hs].
  destruct skip as [|n]; [|now apply IH].
  destruct (exec r prev (String c s)) as [[|n]|];
    try (apply lowered_cons; split; [exact Hc|]); now apply IH.
Qed.

Lemma trimStart_lowered (s : string) : lowered s -> lowered (trimStart s).
Proof.
  induction s as [|c s IH]; intros Hs; simpl; [exact Hs|].
  destruct (isSpace c); [|exact Hs].
  apply lowered_cons in Hs as [_ Hs]. now apply IH.
Qed.

Lemma trimEnd_lowered (s : string) : lowered s -> lowered (trimEnd s).
Proof.
  induction s as [|c s IH]; intros Hs; simpl; [exact Hs|].
  apply lowered_cons in Hs as [Hc Hs].
  destruct (isSpace c && isEmpty (trimEnd s)); [reflexivity|].
  apply lowered_cons. split; [exact Hc | now apply IH].
Qed.

Lemma extractMainHospitalName_lowered (s : string) :
  lowered (extractMainHospitalName s).
Proof.
  unfold extractMainHospitalName, trim, replaceAll.
  apply trimEnd_lowered, trimStart_lowered.
  do 3 apply replace_go_lowered.
  apply toLowerCase_idem.
Qed.

Lemma trimEnd_idem (s : string) : trimEnd (trimEnd s) = trimEnd s.
Proof.
  induction s as [|c s IH]; simpl; [reflexivity|].
  destruct (isSpace c && isEmpty (trimEnd s)) eqn:E; [reflexivity|].
  simpl. rewrite IH, E. reflexivity.
Qed.

Lemma trimStart_trimEnd (s : string) :
  trimStart (trimEnd (trimStart s)) = trimEnd (trimStart s).
Proof.
  induction s as [|c s IH]; simpl; [reflexivity|].
  destruct (isSpace c) eqn:Ec; [exact IH|].
  simpl. rewrite Ec. simpl. now rewrite Ec.
Qed.

Lemma trim_idem (s : string) : trim (trim s) = trim s.
Proof.
  unfold trim. now rewrite trimStart_trimEnd, trimEnd_idem.
Qed.

(** a regular expression that matches nowhere replaces nothing *)
Lemma replace_go_no_match (r : regex) (s : string) :
  forall prev, match_go r 0 prev s = [] -> replace_go r 0 prev s = s.
Proof.
  induction s as [|c s IH]; intros prev H; simpl in *; [reflexivity|].
  destruct (exec r prev (String c s)) as [[|n]|]; try discriminate H.
  now rewrite IH.
Qed.

Lemma replaceAll_no_match (r : regex) (s : string) :
  matchAll r s = [] -> replaceAll r s = s.
Proof. apply replace_go_no_match. Qed.

(** * Concrete runs *)

(** The scenario of section 8: the Sarjapur branch stored under Bengaluru
    is confirmed for the query city Bangalore, with total score 7/8. *)
Example confirmHospital_manipal :
  exists m st',
    confirmHospital (Scenario.answering [Scenario.manipal])
                    (JsString "Manipal Hospital Sarjapur") (Some "Bangalore")
                    Scenario.start
    = (Ok [m], st')
    /\ cand_hit (sm_candidate m) = Scenario.manipal
    /\ (totalScore (sm_scoring m) == 7 # 8)%Q.
Proof. eexists _, _. vm_compute. repeat split. Qed.

(** One source down: the first query variant fails, the warning is on the
    console, and the later variants and the fuzzy search still confirm the
    hospital. *)
Example confirmHospital_partial_failure :
  exists m st',
    confirmHospital (Scenario.flaky [Scenario.manipal])
                    (JsString "Manipal Hospital Sarjapur") (Some "Bangalore")
                    {| world := 0%nat; console := [] |}
    = (Ok [m], st')
    /\ cand_hit (sm_candidate m) = Scenario.manipal
    /\ world st' = 4%nat
    /\ In {| level := WarnLevel;
             text := "Semantic search failed for query "
                     ++ quoted "Manipal Hospital Sarjapur"
                     ++ ": socket hang up" |}
          (console st').
Proof.
  eexists _, _. vm_compute. repeat split. right. left. reflexivity.
Qed.


(** C4, witness: query "Bangalore", stored city "Bengaluru". *)
Lemma filterByCity_alias_retained_witness :
  In Scenario.manipal [Scenario.manipal]
  /\ In (toLowerCase "Bangalore", storedCity (hit_payload Scenario.manipal))
        aliasPairs
  /\ exists kept,
       filterByCity hit_payload [Scenario.manipal] (Some "Bangalore") = Ok kept
       /\ In Scenario.manipal kept.
Proof.
  split; [now left|]. split; [now left|].
  apply (filterByCity_alias_retained hit_payload [Scenario.manipal]
           Scenario.manipal "Bangalore"); now left.
Defined.

(** C4, counterexample: the misspelt query "banglore" has no entry in the
    alias table, so a candidate stored under "Bangalore" is dropped, while
    the query "bangalore" keeps a candidate stored under "banglore". *)
Lemma filterByCity_banglore_one_way :
  filterByCity hit_payload [Scenario.inBangalore] (Some "banglore") = Ok []
  /\ filterByCity hit_payload
       [Scenario.hit 5 (1 # 2) "City Clinic" EmptyString "Banglore"] (Some "bangalore")
     = Ok [Scenario.hit 5 (1 # 2) "City Clinic" EmptyString "Banglore"].
Proof. vm_compute. split; reflexivity. Qed.

(** C10, at the failing input: for the query city "constructor" the lookup
    in [cityMappings] finds the inherited member, [variations.some] is not
    a function, and [filterByCity] throws instead of returning. *)
Theorem filterByCity_inherited_key_throws :
  filterByCity hit_payload [Scenario.inMumbai] (Some "Constructor")
  = Throw {| message := "variations.some is not a function" |}.
Proof. reflexivity. Qed.

(** inside [confirmHospital] that exception reaches the outer [catch]:
    the confirmation is empty and the error is on the console *)
Example confirmHospital_inherited_key :
  confirmHospital (Scenario.answering [Scenario.inMumbai])
                  (JsString "Lilavati Hospital") (Some "constructor")
                  Scenario.start
  = (Ok [],
     {| world := tt;
        console :=
          [ {| level := LogLevel;
               text := searchingLine "Lilavati Hospital" (Some "constructor") |};
            {| level := ErrorLevel;
               text := "Error in confirmHospital: variations.some is not a function" |} ] |}).
Proof. vm_compute. reflexivity. Qed.

(** C5, witness: "fortis malar" against "malar hospital chennai". *)
Lemma calculateNameSimilarity_tokens_witness :
  Prose.tokenCase "Fortis Malar" "Malar Hospital Chennai" = true
  /\ calculateNameSimilarity "Fortis Malar" "Malar Hospital Chennai"
     = Prose.tokenScore Prose.bonusContained "Fortis Malar"
                        "Malar Hospital Chennai".
Proof.
  split; [reflexivity|].
  apply (calculateNameSimilarity_tokens "Fortis Malar" "Malar Hospital Chennai").
  reflexivity.
Defined.

(** C5, counterexample: the query token "apollos" contains the candidate
    token "apollo" but is not contained in it; the pair counts as matched
    (1 of 2 tokens) yet earns no bonus, so the score is 1/2 and not the
    7/10 that a bonus for containment in either direction would give. *)
Lemma calculateNameSimilarity_bonus_one_way :
  Prose.tokenCase "Apollos Clinic" "Apollo Care" = true
  /\ (calculateNameSimilarity "Apollos Clinic" "Apollo Care" == 1 # 2)%Q
  /\ (Prose.tokenScore Prose.bonusEitherWay "Apollos Clinic" "Apollo Care"
      == 7 # 10)%Q
  /\ ~ (calculateNameSimilarity "Apollos Clinic" "Apollo Care"
        == Prose.tokenScore Prose.bonusEitherWay "Apollos Clinic"
                            "Apollo Care")%Q.
Proof. vm_compute. repeat split; discriminate. Qed.

(** The guard on the length, on a term [extractLocationTerms] cannot
    yield: "-btm" has 4 characters, so its sub-part "btm", found in the
    address, earns nothing; half credit for a term of any length would
    give 0.5 * 0.35. *)
Lemma locationScore_short_term_no_half_credit :
  let payload := Scenario.record "Apollo Clinic" "BTM Layout" "Bengaluru" in
  (locationScore (calculateEnhancedSimilarity "Apollo" "apollo" ["-btm"] payload)
   == 0)%Q
  /\ (Prose.locationComponent Prose.creditAnyLength ["-btm"] "BTM Layout"
                              "Apollo Clinic" == 175 # 1000)%Q
  /\ ~ (locationScore
          (calculateEnhancedSimilarity "Apollo" "apollo" ["-btm"] payload)
        == Prose.locationComponent Prose.creditAnyLength ["-btm"] "BTM Layout"
                                   "Apollo Clinic")%Q.
Proof. vm_compute. repeat split; discriminate. Qed.

(** C8, witness: with the index offline, the confirmation is empty. *)
Lemma confirmHospital_never_throws_witness :
  indexDown Scenario.offline
  /\ exists st',
       confirmHospital Scenario.offline (JsString "Apollo Hospital Delhi")
                       None Scenario.start = (Ok [], st').
Proof.
  assert (Hdown : indexDown Scenario.offline) by (intros c b w; reflexivity).
  split; [exact Hdown|].
  exact (proj2 (proj2 (proj2 (proj2 (proj2 (proj2
           (confirmHospital_never_throws Scenario.offline
              (JsString "Apollo Hospital Delhi") None Scenario.start))))))
           Hdown).
Defined.

(** The scenario of section 8: five hospitals stored under Mumbai with
    distinct scores and limit 2; the index is asked for [2 * 2] hits and
    the two best come back, in descending score order. *)
Example searchHospitals_mumbai_limit_2 :
  let best4 :=
    [ Scenario.hit 11 (9 # 10) "Lilavati Hospital" "Bandra West" "Mumbai";
      Scenario.hit 12 (8 # 10) "Hinduja Hospital" "Mahim" "Mumbai";
      Scenario.hit 13 (7 # 10) "Breach Candy Hospital" "Breach Candy" "Mumbai";
      Scenario.hit 14 (6 # 10) "Jaslok Hospital" "Pedder Road" "Mumbai" ] in
  limit (hybridBody tt 2 (Some "Mumbai")) = 4%nat
  /\ searchHospitals (Scenario.answering best4) (Some "Mumbai") 2 Scenario.start
     = (Ok [ {| item_name := "Lilavati Hospital";
                item_address := "Bandra West";
                item_city := "Mumbai";
                item_score := Some (9 # 10)%Q |};
             {| item_name := "Hinduja Hospital";
                item_address := "Mahim";
                item_city := "Mumbai";
                item_score := Some (8 # 10)%Q |} ],
        Scenario.start).
Proof. split; vm_compute; reflexivity. Qed.


(** * Further properties *)

(** ** Strings *)

Lemma append_cons (c : ascii) (s t : string) :
  String c s ++ t = String c (s ++ t).
Proof. reflexivity. Qed.

Lemma append_nil_l (s : string) : EmptyString ++ s = s.
Proof. reflexivity. Qed.

Lemma append_nil_r (s : string) : s ++ EmptyString = s.
Proof.
  induction s as [|c s IH]; [reflexivity|]. now rewrite append_cons, IH.
Qed.

Lemma append_assoc (s t u : string) : (s ++ t) ++ u = s ++ t ++ u.
Proof.
  induction s as [|c s IH]; [reflexivity|]. now rewrite !append_cons, IH.
Qed.

Lemma length_append (s t : string) :
  String.length (s ++ t) = (String.length s + String.length t)%nat.
Proof.
  induction s as [|c s IH]; [reflexivity|].
  rewrite append_cons. simpl. now rewrite IH.
Qed.

Lemma startsWith_spec (s t : string) :
  startsWith s t = true <-> exists post, s = t ++ post.
Proof.
  revert s. induction t as [|b t IH]; intros s.
  - destruct s; split; eauto.
  - destruct s as [|a s]; simpl.
    + split; [discriminate | intros [post E]; discriminate E].
    + rewrite andb_true_iff, IH. split.
      * intros [Hab [post ->]]. apply Ascii.eqb_eq in Hab as ->. eauto.
      * intros [post E]. rewrite append_cons in E. injection E as -> ->.
        split; [apply Ascii.eqb_refl|eauto].
Qed.

Lemma includes_nil (t : string) :
  includes EmptyString t = startsWith EmptyString t.
Proof. simpl. apply orb_false_r. Qed.

Lemma includes_cons (a : ascii) (s t : string) :
  includes (String a s) t = startsWith (String a s) t || includes s t.
Proof. reflexivity. Qed.

Lemma includes_spec (s t : string) :
  includes s t = true <-> exists pre post, s = pre ++ t ++ post.
Proof.
  induction s as [|a s IH].
  - rewrite includes_nil, startsWith_spec. split.
    + intros [post E]. exists EmptyString, post. exact E.
    + intros (pre & post & E). destruct pre.
      * eauto.
      * discriminate E.
  - rewrite includes_cons, orb_true_iff, startsWith_spec, IH. split.
    + intros [[post E] | (pre & post & E)].
      * exists EmptyString, post. exact E.
      * exists (String a pre), post. rewrite append_cons. now rewrite E.
    + intros (pre & post & E). destruct pre as [|b pre].
      * left. eauto.
      * right. rewrite append_cons in E. injection E as -> E. eauto.
Qed.

Lemma includes_refl (s : string) : includes s s = true.
Proof.
  apply includes_spec. exists EmptyString, EmptyString.
  rewrite append_nil_l. exact (eq_sym (append_nil_r s)).
Qed.

Lemma includes_trans (s t u : string) :
  includes s t = true -> includes t u = true -> includes s u = true.
Proof.
  rewrite !includes_spec. intros (p1 & q1 & ->) (p2 & q2 & ->).
  exists (p1 ++ p2), (q2 ++ q1). now rewrite !append_assoc.
Qed.

Lemma trimStart_piece (s : string) :
  exists lead, s = lead ++ trimStart s /\ blank lead = true.
Proof.
  induction s as [|c s (lead & E & Hl)]; simpl.
  - now exists EmptyString.
  - destruct (isSpace c) eqn:Ec.
    + exists (String c lead). rewrite append_cons, <- E. simpl. now rewrite Ec.
    + now exists EmptyString.
Qed.

Lemma trimEnd_piece (s : string) :
  exists tail, s = trimEnd s ++ tail /\ blank tail = true.
Proof.
  induction s as [|c s (tail & E & Ht)]; simpl.
  - now exists EmptyString.
  - destruct (isSpace c && isEmpty (trimEnd s)) eqn:Ec.
    + apply andb_true_iff in Ec as [Hc He].
      exists (String c s). split; [reflexivity|]. simpl. rewrite Hc. simpl.
      destruct (trimEnd s); [|discriminate He].
      rewrite append_nil_l in E. now subst.
    + exists tail. now rewrite append_cons, <- E.
Qed.

Lemma trim_piece (s : string) :
  exists lead tail,
    s = lead ++ trim s ++ tail /\ blank lead = true /\ blank tail = true.
Proof.
  destruct (trimStart_piece s) as (lead & E1 & Hl).
  destruct (trimEnd_piece (trimStart s)) as (tail & E2 & Ht).
  exists lead, tail. unfold trim. now rewrite <- E2.
Qed.

Lemma includes_trim (s : string) : includes s (trim s) = true.
Proof.
  destruct (trim_piece s) as (lead & tail & E & _).
  apply includes_spec. eauto.
Qed.

Lemma length_trimStart (s : string) :
  (String.length (trimStart s) <= String.length s)%nat.
Proof.
  induction s as [|c s IH]; simpl; [lia|]. destruct (isSpace c); simpl; lia.
Qed.

Lemma length_trimEnd (s : string) :
  (String.length (trimEnd s) <= String.length s)%nat.
Proof.
  induction s as [|c s IH]; simpl; [lia|].
  destruct (isSpace c && isEmpty (trimEnd s)); simpl; lia.
Qed.

Lemma length_trim (s : string) :
  (String.length (trim s) <= String.length s)%nat.
Proof.
  unfold trim. etransitivity; [apply length_trimEnd | apply length_trimStart].
Qed.

(** ** Matches *)

(** what a final continuation guarantees, the whole match guarantees *)
Lemma lit_cont (P : string -> Prop) (k : cont) (p : string) :
  (forall b s x, k b s = Some x -> P x) ->
  forall b s x, lit p k b s = Some x -> P x.
Proof.
  intros Hk. induction p as [|a p IH]; intros b s x; simpl.
  - apply Hk.
  - destruct s as [|c s]; [discriminate|].
    destruct (ci_eq a c); [apply IH | discriminate].
Qed.

Lemma many_cont (P : string -> Prop) (k : cont) (p : ascii -> bool) :
  (forall b s x, k b s = Some x -> P x) ->
  forall s b x, many p k b s = Some x -> P x.
Proof.
  intros Hk. induction s as [|c s IH]; intros b x; simpl.
  - apply Hk.
  - destruct (p c); [|apply Hk].
    destruct (many p k (isWordChar c) s) eqn:E.
    + intros [= <-]. eapply IH. exact E.
    + apply Hk.
Qed.

Lemma rmatch_cont (P : string -> Prop) (r : regex) :
  forall k : cont,
    (forall b s x, k b s = Some x -> P x) ->
    forall b s x, rmatch r k b s = Some x -> P x.
Proof.
  induction r as [p|p|p|r IH|r1 IH1 r2 IH2|r1 IH1 r2 IH2| |];
    intros k Hk b s x; simpl.
  - now apply lit_cont.
  - destruct s as [|c s]; [discriminate|].
    destruct (p c); [now apply many_cont | discriminate].
  - now apply many_cont.
  - destruct (rmatch r k b s) eqn:E.
    + intros [= <-]. eapply IH; eassumption.
    + apply Hk.
  - destruct (rmatch r1 k b s) eqn:E.
    + intros [= <-]. eapply IH1; eassumption.
    + now apply IH2.
  - apply IH1. intros b' s' x'. now apply IH2.
  - destruct (xorb b (atWordStart s)); [apply Hk | discriminate].
  - destruct s; [apply Hk | discriminate].
Qed.

Lemma toTheEnd_cat (rs : list regex) : toTheEnd (cat (rs ++ [REnd])).
Proof.
  assert (H : forall b s x,
             rmatch (cat (rs ++ [REnd])) (fun _ rest => Some rest) b s = Some x ->
             x = EmptyString).
  { induction rs as [|r rs IH]; intros b s x; simpl.
    - destruct s; [now intros [= <-] | discriminate].
    - apply (rmatch_cont (fun x => x = EmptyString)). exact IH. }
  intros b s n. unfold exec.
  destruct (rmatch _ _ b s) as [rest|] eqn:E; [|discriminate].
  apply H in E as ->. simpl. intros [= <-]. lia.
Qed.

Lemma replace_go_skip (r : regex) (s : string) :
  forall skip b, (String.length s <= skip)%nat -> replace_go r skip b s = EmptyString.
Proof.
  induction s as [|c s IH]; intros skip b Hs; simpl in *; [reflexivity|].
  destruct skip as [|n]; [lia|]. apply IH. lia.
Qed.

Lemma length_replace_go (r : regex) (s : string) :
  forall skip b, (String.length (replace_go r skip b s) <= String.length s)%nat.
Proof.
  induction s as [|c s IH]; intros skip b; simpl; [lia|].
  destruct skip as [|n].
  - destruct (exec r b (String c s)) as [[|n]|]; simpl;
      try (specialize (IH 0%nat (isWordChar c)); lia).
    specialize (IH n (isWordChar c)). lia.
  - specialize (IH n (isWordChar c)). lia.
Qed.

(** an expression anchored at the end can only cut a tail off *)
Lemma replace_go_prefix (r : regex) (s : string) :
  toTheEnd r -> forall b, exists tail, s = replace_go r 0 b s ++ tail.
Proof.
  intros Hr. induction s as [|c s IH]; intros b; simpl.
  - now exists EmptyString.
  - destruct (exec r b (String c s)) as [[|n]|] eqn:E.
    + apply Hr in E. discriminate E.
    + apply Hr in E. simpl in E. injection E as ->.
      rewrite replace_go_skip by lia. now exists (String c s).
    + destruct (IH (isWordChar c)) as [tail Et].
      exists tail. now rewrite append_cons, <- Et.
Qed.

Lemma replaceAll_prefix (rs : list regex) (s : string) :
  exists tail, s = replaceAll (cat (rs ++ [REnd])) s ++ tail.
Proof. apply replace_go_prefix, toTheEnd_cat. Qed.

(** ** Name decomposer, further *)

(** [extractMainHospitalName] gives a lower-case, trimmed string that is
    no longer than the lower-cased input. *)
Theorem extractMainHospitalName_shape (hospitalName : string) :
  lowered (extractMainHospitalName hospitalName)
  /\ trim (extractMainHospitalName hospitalName)
     = extractMainHospitalName hospitalName
  /\ (String.length (extractMainHospitalName hospitalName)
      <= String.length (toLowerCase hospitalName))%nat.
Proof.
  split; [apply extractMainHospitalName_lowered|]. split.
  - unfold extractMainHospitalName. apply trim_idem.
  - unfold extractMainHospitalName, replaceAll.
    etransitivity; [apply length_trim|].
    do 3 (etransitivity; [apply length_replace_go|]).
    reflexivity.
Qed.

(** [extractMainHospitalName] never rewrites or reorders text: it cuts a
    tail off the lower-cased input and trims what is left, so the main
    name occurs in the lower-cased input as it stands. *)
Theorem extractMainHospitalName_cuts_a_tail (hospitalName : string) :
  (exists kept tail,
     toLowerCase hospitalName = kept ++ tail
     /\ extractMainHospitalName hospitalName = trim kept)
  /\ includes (toLowerCase hospitalName)
              (extractMainHospitalName hospitalName) = true.
Proof.
  assert (H : exists kept tail,
             toLowerCase hospitalName = kept ++ tail
             /\ extractMainHospitalName hospitalName = trim kept).
  { unfold extractMainHospitalName.
    destruct (replaceAll_prefix [RPlus isSpace; gazetteer; RStar isDot]
                (toLowerCase hospitalName)) as [t1 E1].
    change (cat ([RPlus isSpace; gazetteer; RStar isDot] ++ [REnd]))
      with stripLocality in E1.
    set (m1 := replaceAll stripLocality (toLowerCase hospitalName)) in *.
    destruct (replaceAll_prefix
                [RPlus isSpace; RPlus isWordChar; RPlus isSpace; roadWord;
                 RStar isDot] m1) as [t2 E2].
    change (cat ([RPlus isSpace; RPlus isWordChar; RPlus isSpace; roadWord;
                  RStar isDot] ++ [REnd])) with stripRoad in E2.
    set (m2 := replaceAll stripRoad m1) in *.
    destruct (replaceAll_prefix
                [RPlus isSpace; oneOf "hospital" ["medical center"; "clinic"];
                 ROpt (RLit "s")] m2) as [t3 E3].
    change (cat ([RPlus isSpace;
                  oneOf "hospital" ["medical center"; "clinic"];
                  ROpt (RLit "s")] ++ [REnd])) with stripSuffix in E3.
    set (m3 := replaceAll stripSuffix m2) in *.
    exists m3, (t3 ++ t2 ++ t1). split; [|reflexivity].
    rewrite E1, E2 at 1. rewrite E3 at 1. now rewrite !append_assoc. }
  split; [exact H|].
  destruct H as (kept & tail & E & ->). rewrite E.
  eapply includes_trans; [|apply includes_trim].
  apply includes_spec. exists EmptyString, tail. reflexivity.
Qed.

Lemma startsWith_substring (n : nat) (s : string) :
  startsWith s (substring 0 n s) = true.
Proof.
  revert n. induction s as [|c s IH]; intros [|n]; simpl; try reflexivity.
  now rewrite Ascii.eqb_refl, IH.
Qed.

Lemma includes_tail (c : ascii) (s m : string) :
  includes s m = true -> includes (String c s) m = true.
Proof. intros H. rewrite includes_cons, H. apply orb_true_r. Qed.

Lemma includes_empty (s : string) : includes s EmptyString = true.
Proof. destruct s; reflexivity. Qed.

(** every match is a piece of the input *)
Lemma match_go_includes (r : regex) (s : string) :
  forall skip b m, In m (match_go r skip b s) -> includes s m = true.
Proof.
  induction s as [|c s IH]; intros skip b m H; simpl in H.
  - destruct skip; [|destruct H].
    destruct (exec r b EmptyString); [|destruct H].
    now destruct H as [<-|[]].
  - destruct skip as [|n]; [|apply includes_tail; eapply IH; exact H].
    destruct (exec r b (String c s)) as [[|n]|].
    + destruct H as [<-|H]; [apply includes_empty|].
      apply includes_tail. eapply IH; exact H.
    + destruct H as [<-|H].
      * rewrite includes_cons. simpl.
        now rewrite Ascii.eqb_refl, startsWith_substring.
      * apply includes_tail. eapply IH; exact H.
    + apply includes_tail. eapply IH; exact H.
Qed.

Lemma uniq_from_spec (l : list string) :
  forall seen : gset string,
    List.NoDup (uniq_from seen l)
    /\ forall x, In x (uniq_from seen l) <-> In x l /\ x ∉ seen.
Proof.
  induction l as [|y l IH]; intros seen; simpl.
  - split; [constructor | intros x; tauto].
  - destruct (decide (y ∈ seen)) as [Hy|Hy].
    + destruct (IH seen) as [Hn Hin]. split; [exact Hn|].
      intros x. rewrite Hin. split; [tauto|].
      intros [[<-|Hx] Hs]; [contradiction | tauto].
    + destruct (IH ({[y]} ∪ seen)) as [Hn Hin]. split.
      * constructor; [|exact Hn]. rewrite Hin. intros [_ Hy'].
        apply Hy'. apply elem_of_union_l. now apply elem_of_singleton.
      * intros x. simpl. rewrite Hin, elem_of_union, elem_of_singleton.
        split.
        -- intros [<-|[Hx Hs]]; [tauto|]. split; [tauto|]. tauto.
        -- intros [[<-|Hx] Hs]; [tauto|].
           destruct (decide (x = y)) as [->|Hne]; [tauto|]. right. tauto.
Qed.

Lemma toLowerCase_append (s t : string) :
  toLowerCase (s ++ t) = toLowerCase s ++ toLowerCase t.
Proof.
  induction s as [|c s IH]; [reflexivity|].
  rewrite append_cons. simpl. now rewrite IH, append_cons.
Qed.

Lemma lowered_append (s t : string) :
  lowered (s ++ t) -> lowered s /\ lowered t.
Proof.
  induction s as [|c s IH]; intros H.
  - split; [reflexivity | exact H].
  - rewrite append_cons in H. apply lowered_cons in H as [Hc H].
    destruct (IH H) as [Hs Ht]. split; [|exact Ht].
    apply lowered_cons. now split.
Qed.

Lemma lowered_piece (s m : string) :
  lowered s -> includes s m = true -> lowered m.
Proof.
  intros Hs Hm. apply includes_spec in Hm as (pre & post & ->).
  apply lowered_append in Hs as [_ Hs].
  now apply lowered_append in Hs as [Hs _].
Qed.

(** [extractLocationTerms] returns every term once, and every term is a
    trimmed, lower-case piece of the lower-cased input. *)
Theorem extractLocationTerms_pieces (hospitalName : string) :
  List.NoDup (extractLocationTerms hospitalName)
  /\ Forall (fun term =>
               includes (toLowerCase hospitalName) term = true
               /\ lowered term
               /\ trim term = term)
            (extractLocationTerms hospitalName).
Proof.
  unfold extractLocationTerms, uniq.
  match goal with |- context [uniq_from ∅ ?l] =>
    destruct (uniq_from_spec l ∅) as [Hn Hin] end.
  split; [exact Hn|].
  apply List.Forall_forall. intros term Hterm.
  apply Hin in Hterm as [Hterm _].
  apply List.in_flat_map in Hterm as (pattern & _ & Hterm).
  apply List.in_map_iff in Hterm as (m & <- & Hm).
  apply match_go_includes in Hm.
  assert (Hpiece : includes (toLowerCase hospitalName) (trim m) = true).
  { eapply includes_trans; [exact Hm | apply includes_trim]. }
  split; [exact Hpiece|]. split; [|apply trim_idem].
  eapply lowered_piece; [apply toLowerCase_idem | exact Hpiece].
Qed.

(** ** Scorer, further *)

Lemma split_go_nonempty (sep : ascii -> bool) (s cur : string) (insep : bool) :
  (0 < List.length (split_go sep cur insep s))%nat.
Proof.
  revert cur insep. induction s as [|c s IH]; intros cur insep; simpl; [lia|].
  destruct (sep c); [destruct insep|]; simpl; auto; lia.
Qed.

Lemma split_nonempty (sep : ascii -> bool) (s : string) :
  (0 < List.length (split sep s))%nat.
Proof. apply split_go_nonempty. Qed.

Lemma ratio_zero (n d : nat) : (0 < d)%nat -> (ratio n d == 0)%Q -> n = 0%nat.
Proof.
  intros Hd H. unfold ratio in H.
  assert (Hd' : ~ (inject_Z (Z.of_nat d) == 0)%Q).
  { change 0%Q with (inject_Z 0). rewrite inject_Z_injective. lia. }
  assert (Hn : (inject_Z (Z.of_nat n) == 0)%Q).
  { rewrite <- (Qmult_div_r (inject_Z (Z.of_nat n)) (inject_Z (Z.of_nat d)))
      by exact Hd'.
    rewrite H. ring. }
  change 0%Q with (inject_Z 0) in Hn. rewrite inject_Z_injective in Hn. lia.
Qed.

Lemma bonus_needs_match (qs cs : list string) :
  Prose.matchedTokens qs cs = 0%nat -> Prose.bonusContained qs cs = 0%Q.
Proof.
  unfold Prose.matchedTokens, Prose.bonusContained. intros H.
  destruct (existsb _ qs) eqn:E; [|reflexivity]. exfalso.
  apply List.existsb_exists in E as (q & Hq & Hb).
  apply andb_true_iff in Hb as [_ Hb].
  apply List.existsb_exists in Hb as (c & Hc & Hcq).
  assert (Hin : In q (List.filter
                        (fun q => existsb (Prose.tokensMatch q) cs) qs)).
  { apply List.filter_In. split; [exact Hq|].
    apply List.existsb_exists. exists c. split; [exact Hc|].
    unfold Prose.tokensMatch. now rewrite Hcq. }
  destruct (List.filter _ qs); [destruct Hin | discriminate H].
Qed.

(** The name score is 0 exactly when the two names are compared token by
    token and no query token contains, or is contained in, a candidate
    token. *)
Theorem calculateNameSimilarity_zero (searchName hospitalName : string) :
  (calculateNameSimilarity searchName hospitalName == 0)%Q
  <-> Prose.tokenCase searchName hospitalName = true
      /\ Prose.matchedTokens (tokensOf searchName) (tokensOf hospitalName)
         = 0%nat.
Proof.
  unfold Prose.tokenCase, tokensOf, normalized.
  unfold calculateNameSimilarity.
  destruct (String.eqb _ _) eqn:He.
  { split; [intros H; discriminate H | intros [H _]; discriminate H]. }
  destruct (_ || _) eqn:Hc.
  { split; [intros H; discriminate H | intros [H _]; discriminate H]. }
  rewrite matchedWords_spec. simpl.
  rewrite (existsb_ext' _ _ _ (fun w => keyTerm_spec w _)).
  set (qs := split isSpace (trim (toLowerCase searchName))).
  set (cs := split isSpace (trim (toLowerCase hospitalName))).
  fold (Prose.bonusContained qs cs).
  pose proof (split_nonempty isSpace (trim (toLowerCase searchName))) as Hq.
  fold qs in Hq.
  set (d := Nat.max (List.length qs) (List.length cs)).
  assert (Hd : (0 < d)%nat) by (unfold d; lia).
  pose proof (ratio_nonneg (Prose.matchedTokens qs cs) d) as Hr.
  assert (Hb : (0 <= Prose.bonusContained qs cs)%Q).
  { unfold Prose.bonusContained. destruct (existsb _ qs); lra. }
  split.
  - intros H. split; [reflexivity|].
    apply (ratio_zero _ d Hd).
    destruct (Q.min_spec 1 (ratio (Prose.matchedTokens qs cs) d
                            + Prose.bonusContained qs cs)) as [[_ E]|[_ E]];
      rewrite E in H; lra.
  - intros [_ Hm]. rewrite (bonus_needs_match _ _ Hm), Hm.
    unfold ratio. simpl.
    destruct (Q.min_spec 1 (0 / inject_Z (Z.of_nat d) + 0)) as [[Hlt E]|[_ E]];
      rewrite E.
    + exfalso. unfold Qdiv in Hlt. rewrite Qmult_0_l in Hlt. lra.
    + unfold Qdiv. rewrite Qmult_0_l. lra.
Qed.

Lemma count_fold_filter {A : Type} (f : A -> bool) (l : list A) (n : nat) :
  fold_left (fun c t => if f t then S c else c) l n
  = (n + List.length (List.filter f l))%nat.
Proof.
  revert n. induction l as [|t l IH]; intros n; simpl; [lia|].
  rewrite IH. destruct (f t); simpl; lia.
Qed.

Lemma filter_all {A : Type} (f : A -> bool) (l : list A) :
  List.length (List.filter f l) = List.length l <-> Forall (fun x => f x = true) l.
Proof.
  induction l as [|x l IH]; simpl.
  - split; [constructor | reflexivity].
  - pose proof (sublist_length _ _ (filter_sublist f l)) as Hle.
    destruct (f x) eqn:E; simpl.
    + split.
      * intros H. constructor; [exact E|]. apply IH. lia.
      * intros H. apply Forall_inv_tail in H. apply IH in H. lia.
    + split; [lia|]. intros H. apply Forall_inv in H. congruence.
Qed.

Lemma filter_none {A : Type} (f : A -> bool) (l : list A) :
  List.length (List.filter f l) = 0%nat <-> Forall (fun x => f x = false) l.
Proof.
  induction l as [|x l IH]; simpl.
  - split; [constructor | reflexivity].
  - destruct (f x) eqn:E; simpl.
    + split; [discriminate|]. intros H. apply Forall_inv in H. congruence.
    + rewrite IH. split.
      * intros H. now constructor.
      * intros H. now apply Forall_inv_tail in H.
Qed.

Lemma ratio_one (n d : nat) : (0 < d)%nat -> (ratio n d == 1)%Q <-> n = d.
Proof.
  intros Hd. unfold ratio.
  assert (Hd' : ~ (inject_Z (Z.of_nat d) == 0)%Q).
  { change 0%Q with (inject_Z 0). rewrite inject_Z_injective. lia. }
  split.
  - intros H.
    assert (Hn : (inject_Z (Z.of_nat n) == inject_Z (Z.of_nat d))%Q).
    { rewrite <- (Qmult_div_r (inject_Z (Z.of_nat n)) (inject_Z (Z.of_nat d)))
        by exact Hd'.
      rewrite H. ring. }
    rewrite inject_Z_injective in Hn. lia.
  - intros ->. unfold Qdiv. now apply Qmult_inv_r.
Qed.

(** The address score is the share of the query terms found in the
    address: 0 when the query leaves no term or none is found, 1 exactly
    when there are terms and all of them are found. *)
Theorem calculateAddressSimilarity_share (query address : string) :
  let terms := queryTermsOf query in
  let found t := includes (toLowerCase address) t in
  (calculateAddressSimilarity query address
   == if (0 <? List.length terms)%nat
      then ratio (List.length (List.filter found terms)) (List.length terms)
      else 0)%Q
  /\ ((calculateAddressSimilarity query address == 1)%Q
      <-> terms <> [] /\ Forall (fun t => found t = true) terms)
  /\ ((calculateAddressSimilarity query address == 0)%Q
      <-> Forall (fun t => found t = false) terms).
Proof.
  cbv zeta. unfold calculateAddressSimilarity. fold (queryTermsOf query).
  set (terms := queryTermsOf query).
  rewrite (count_fold_filter (includes (toLowerCase address)) terms 0).
  simpl (0 + _)%nat.
  destruct (Nat.ltb_spec 0 (List.length terms)) as [Hlen|Hlen].
  - split; [reflexivity|]. split.
    + rewrite (ratio_one _ _ Hlen), filter_all. split.
      * intros H. split; [|exact H]. intros E. rewrite E in Hlen.
        simpl in Hlen. lia.
      * tauto.
    + rewrite <- filter_none. split.
      * intros H. now apply (ratio_zero _ _ Hlen).
      * intros ->. unfold ratio, Qdiv. simpl. rewrite Qmult_0_l. reflexivity.
  - assert (E : terms = []) by (destruct terms; [reflexivity | simpl in Hlen; lia]).
    rewrite E. split; [reflexivity|]. split.
    + split; [intros H; discriminate H | intros [H _]; now elim H].
    + split; [constructor | reflexivity].
Qed.

Lemma contained_name_score (originalQuery mainName : string)
    (locationTerms : list string) (payload : option Payload) :
  nameContained mainName (orEmpty (field payload_name payload)) = true ->
  (36 # 100 <= totalScore
     (calculateEnhancedSimilarity originalQuery mainName locationTerms
                                  payload))%Q.
Proof.
  intros Hc. unfold calculateEnhancedSimilarity. simpl.
  set (hn := orEmpty (field payload_name payload)) in *.
  set (ha := orEmpty (field payload_address payload)).
  pose proof (calculateNameSimilarity_range originalQuery hn) as [? ?].
  pose proof (calculateAddressSimilarity_range originalQuery ha) as [? ?].
  pose proof (calculateLocationScore_range locationTerms ha hn) as [? ?].
  assert (Hn : (9 # 10 <= calculateNameSimilarity mainName hn)%Q).
  { unfold calculateNameSimilarity.
    destruct (String.eqb _ _); [lra|].
    unfold nameContained, normalized in Hc. rewrite Hc. lra. }
  lra.
Qed.

(** A candidate whose name contains the main name, or is contained in it
    (case and outer white space ignored), scores at least 0.36 and so is
    never cut by the 0.25 threshold, whatever its address and the location
    terms. *)
Theorem contained_name_passes_threshold (originalQuery mainName : string)
    (locationTerms : list string) (payload : option Payload) :
  nameContained mainName (orEmpty (field payload_name payload)) = true ->
  let s := calculateEnhancedSimilarity originalQuery mainName locationTerms
                                        payload in
  (36 # 100 <= totalScore s)%Q
  /\ Qle_bool (25 # 100) (totalScore s) = true.
Proof.
  intros Hc. cbv zeta.
  pose proof (contained_name_score originalQuery mainName locationTerms
                payload Hc) as H.
  split; [exact H|]. apply Qle_bool_iff. lra.
Qed.

Lemma contained_name_passes_threshold_witness :
  let s := calculateEnhancedSimilarity "manipal hospital whitefield" "manipal"
             ["whitefield"]
             (Scenario.record "Manipal Hospital" "Sarjapur Road" "Bengaluru") in
  (36 # 100 <= totalScore s)%Q
  /\ Qle_bool (25 # 100) (totalScore s) = true.
Proof.
  apply (contained_name_passes_threshold "manipal hospital whitefield"
           "manipal" ["whitefield"]
           (Scenario.record "Manipal Hospital" "Sarjapur Road" "Bengaluru")).
  reflexivity.
Defined.

Lemma normalized_blank_contained (mainName hospitalName : string) :
  normalized mainName = EmptyString ->
  nameContained mainName hospitalName = true.
Proof.
  unfold nameContained. intros ->. now rewrite includes_empty.
Qed.

(** When the main name is empty or blank (a query that is only a suffix
    such as ' hospital' leaves none), every candidate, whatever its name,
    scores at least 0.36: the threshold cuts nothing and the three best of
    whatever the index returned are reported. *)
Theorem blank_main_name_passes_everything (hospitalName mainName : string)
    (locationTerms : list string) (cityFiltered : list Candidate) :
  normalized mainName = EmptyString ->
  Forall (fun m => (36 # 100 <= totalSimilarity m)%Q)
         (map (scoreCandidate hospitalName mainName locationTerms) cityFiltered)
  /\ List.length (topMatches hospitalName mainName locationTerms cityFiltered)
     = Nat.min 3 (List.length cityFiltered).
Proof.
  intros Hblank.
  assert (Hall : Forall (fun m => (36 # 100 <= totalSimilarity m)%Q)
            (map (scoreCandidate hospitalName mainName locationTerms)
                 cityFiltered)).
  { apply List.Forall_forall. intros m Hm.
    apply List.in_map_iff in Hm as (c & <- & _). simpl.
    apply contained_name_score. now apply normalized_blank_contained. }
  split; [exact Hall|].
  unfold topMatches. rewrite length_take.
  set (scored := map _ cityFiltered) in *.
  assert (Hkeep : List.filter
            (fun hit => Qle_bool (25 # 100) (totalSimilarity hit))
            (sort (fun a b => (totalSimilarity b - totalSimilarity a)%Q) scored)
          = sort (fun a b => (totalSimilarity b - totalSimilarity a)%Q) scored).
  { apply List.forallb_filter_id. apply List.forallb_forall. intros m Hm.
    apply Qle_bool_iff.
    assert (Hin : In m scored).
    { eapply Permutation_in;
        [apply (sort_Permutation totalSimilarity scored) | exact Hm]. }
    rewrite List.Forall_forall in Hall. specialize (Hall m Hin). lra. }
  rewrite Hkeep.
  change (fun a b => (totalSimilarity b - totalSimilarity a)%Q)
    with (descending totalSimilarity).
  rewrite (Permutation_length (sort_Permutation totalSimilarity scored)).
  unfold scored. now rewrite List.length_map.
Qed.

Lemma blank_main_name_passes_everything_witness :
  Forall (fun m => (36 # 100 <= totalSimilarity m)%Q)
         (map (scoreCandidate " hospital" (extractMainHospitalName " hospital") [])
              [tagFuzzy Scenario.manipal; tagFuzzy Scenario.inMumbai])
  /\ List.length (topMatches " hospital" (extractMainHospitalName " hospital") []
                    [tagFuzzy Scenario.manipal; tagFuzzy Scenario.inMumbai])
     = Nat.min 3 (List.length [tagFuzzy Scenario.manipal;
                               tagFuzzy Scenario.inMumbai]).
Proof.
  apply (blank_main_name_passes_everything " hospital"
           (extractMainHospitalName " hospital") []
           [tagFuzzy Scenario.manipal; tagFuzzy Scenario.inMumbai]).
  vm_compute. reflexivity.
Defined.

(** ** City filter, further *)

Lemma isEmpty_toLowerCase (s : string) : isEmpty (toLowerCase s) = isEmpty s.
Proof. now destruct s. Qed.

Lemma lowerCased_city (payload : option Payload) :
  toLowerCase (orEmpty (field payload_city (lowerCased payload)))
  = toLowerCase (orEmpty (field payload_city payload)).
Proof.
  destruct payload as [[n a [c|] k]|]; simpl; try reflexivity.
  apply toLowerCase_idem.
Qed.

Lemma lowerCased_address (payload : option Payload) :
  toLowerCase (orEmpty (field payload_address (lowerCased payload)))
  = toLowerCase (orEmpty (field payload_address payload)).
Proof.
  destruct payload as [[n [a|] c k]|]; simpl; try reflexivity.
  apply toLowerCase_idem.
Qed.

Lemma filterRes_ext {A : Type} (f g : A -> Res bool) (l : list A) :
  (forall x, f x = g x) -> filterRes f l = filterRes g l.
Proof.
  intros H. induction l as [|x l IH]; simpl; [reflexivity|].
  now rewrite H, IH.
Qed.

(** [filterByCity] ignores letter case on both sides: the outcome (the
    retained candidates or the exception) is the same when the query city
    and every candidate's city and address are put in lower case. *)
Theorem filterByCity_ignores_case {A : Type} (payloadOf : A -> option Payload)
    (results : list A) (city : string) :
  filterByCity (fun h => lowerCased (payloadOf h)) results
               (Some (toLowerCase city))
  = filterByCity payloadOf results (Some city).
Proof.
  unfold filterByCity. simpl. rewrite isEmpty_toLowerCase.
  destruct (isEmpty city); simpl; [reflexivity|].
  rewrite toLowerCase_idem. apply filterRes_ext. intros x.
  unfold cityKeeps. now rewrite lowerCased_city, lowerCased_address.
Qed.

(** ** Index helpers, further *)

Lemma fold_left_ext {A B : Type} (f g : A -> B -> A) (l : list B) (a : A) :
  (forall a b, f a b = g a b) -> fold_left f l a = fold_left g l a.
Proof.
  intros H. revert a. induction l as [|b l IH]; intros a; simpl; [reflexivity|].
  now rewrite H, IH.
Qed.

Lemma keepUnique_where (acc : gset string * list Hit) (r : Hit) :
  keepUnique acc r = keepWhere (fun _ => true) acc r.
Proof.
  destruct acc as [seen kept]. unfold keepUnique, keepWhere, hitKey. simpl.
  now destruct (decide _).
Qed.

Lemma keepFirst_where (acc : gset string * list Hit) (r : Hit) :
  keepFirst acc r = keepWhere (fun _ => true) acc r.
Proof.
  destruct acc as [seen kept]. unfold keepFirst, keepWhere, hitKey. simpl.
  now destruct (decide _).
Qed.

Lemma keepFirstInCity_where (cityLower : string)
    (acc : gset string * list Hit) (r : Hit) :
  keepFirstInCity cityLower acc r = keepWhere (mentionsCity cityLower) acc r.
Proof.
  destruct acc as [seen kept].
  unfold keepFirstInCity, keepWhere, hitKey, mentionsCity. simpl.
  destruct (decide _); [reflexivity|]. now destruct (_ || _).
Qed.

Lemma keepInCity_where (city : option string)
    (acc : gset string * list Hit) (r : Hit) :
  keepInCity city acc r
  = keepWhere (if truthy city
               then mentionsCity (toLowerCase (orEmpty city))
               else fun _ => true) acc r.
Proof.
  destruct acc as [seen kept].
  unfold keepInCity, keepWhere, hitKey, mentionsCity. simpl.
  destruct (decide _); [reflexivity|].
  destruct (truthy city); [|reflexivity]. now destruct (_ || _).
Qed.

Lemma keepWhere_eq (p : Hit -> bool) (seen : gset string) (kept : list Hit)
    (r : Hit) :
  keepWhere p (seen, kept) r
  = if decide (hitKey r ∈ seen) then (seen, kept)
    else ({[hitKey r]} ∪ seen, if p r then (kept ++ [r])%list else kept).
Proof. reflexivity. Qed.

(** what a deduplicating loop leaves: the hits kept are in the order of
    the input, pass [p], have distinct keys, and every key of the input
    that was not seen before is kept unless its first hit fails [p] *)
Lemma keepWhere_fold (p : Hit -> bool) (hits : list Hit) :
  forall (seen : gset string) (kept : list Hit),
    (forall h, In h kept -> hitKey h ∈ seen) ->
    List.NoDup (map hitKey kept) ->
    exists extra,
      snd (fold_left (keepWhere p) hits (seen, kept)) = (kept ++ extra)%list
      /\ sublist extra hits
      /\ Forall (fun h => p h = true) extra
      /\ List.NoDup (map hitKey (kept ++ extra))
      /\ (forall h, In h hits ->
            hitKey h ∈ seen \/ In (hitKey h) (map hitKey extra)
            \/ exists h', In h' hits /\ hitKey h' = hitKey h /\ p h' = false).
Proof.
  induction hits as [|r hits IH]; intros seen kept Hseen Hnd.
  - exists []. simpl. rewrite List.app_nil_r.
    repeat split; [constructor | constructor | exact Hnd | intros h []].
  - cbn [fold_left]. rewrite keepWhere_eq.
    destruct (decide (hitKey r ∈ seen)) as [Hin|Hout].
    + destruct (IH seen kept Hseen Hnd) as (extra & E & Hsub & Hp & Hn & Hall).
      exists extra. repeat split; auto; [now apply sublist_cons|].
      intros h [<-|Hh]; [now left|].
      destruct (Hall h Hh) as [?|[?|(h' & ? & ? & ?)]]; auto.
      right. right. exists h'. simpl. auto.
    + destruct (p r) eqn:Hpr.
      * destruct (IH ({[hitKey r]} ∪ seen) (kept ++ [r])%list)
          as (extra & E & Hsub & Hp & Hn & Hall).
        { intros h Hh. apply List.in_app_or in Hh as [Hh|[<-|[]]].
          - apply elem_of_union_r. now apply Hseen.
          - apply elem_of_union_l. now apply elem_of_singleton. }
        { rewrite List.map_app. simpl.
          apply List.NoDup_app; [exact Hnd | | ].
          - constructor; [intros [] | constructor].
          - intros k Hk [<-|[]].
            apply List.in_map_iff in Hk as (h & Hk & Hh).
            apply Hout. rewrite <- Hk. now apply Hseen. }
        exists (r :: extra).
        rewrite <- List.app_assoc in E, Hn. simpl in E, Hn.
        repeat split; auto; [now apply sublist_skip|].
        intros h [<-|Hh]; [right; left; now left|].
        destruct (Hall h Hh) as [Hk|[?|(h' & ? & ? & ?)]].
        -- apply elem_of_union in Hk as [Hk|Hk]; [|now left].
           apply elem_of_singleton in Hk. right. left. left. now symmetry.
        -- right. left. now right.
        -- right. right. exists h'. simpl. auto.
      * destruct (IH ({[hitKey r]} ∪ seen) kept)
          as (extra & E & Hsub & Hp & Hn & Hall).
        { intros h Hh. apply elem_of_union_r. now apply Hseen. }
        { exact Hnd. }
        exists extra. repeat split; auto; [now apply sublist_cons|].
        intros h [<-|Hh]; [right; right; exists r; simpl; auto|].
        destruct (Hall h Hh) as [Hk|[?|(h' & ? & ? & ?)]]; auto.
        -- apply elem_of_union in Hk as [Hk|Hk]; [|now left].
           apply elem_of_singleton in Hk. right. right.
           exists r. simpl. auto.
        -- right. right. exists h'. simpl. auto.
Qed.

(** the loop started empty *)
Lemma keepWhere_run (p : Hit -> bool) (hits : list Hit) :
  exists kept,
    snd (fold_left (keepWhere p) hits (∅, [])) = kept
    /\ sublist kept hits
    /\ Forall (fun h => p h = true) kept
    /\ List.NoDup (map hitKey kept)
    /\ (forall h, In h hits ->
          In (hitKey h) (map hitKey kept)
          \/ exists h', In h' hits /\ hitKey h' = hitKey h /\ p h' = false).
Proof.
  destruct (keepWhere_fold p hits ∅ []) as (extra & E & Hsub & Hp & Hn & Hall).
  - intros h [].
  - constructor.
  - exists extra. simpl in E, Hn. repeat split; auto.
    intros h Hh. destruct (Hall h Hh) as [Hk|[?|?]]; auto.
    now apply elem_of_empty in Hk.
Qed.

Lemma NoDup_map_sublist {A B : Type} (f : A -> B) (l k : list A) :
  sublist l k -> List.NoDup (map f k) -> List.NoDup (map f l).
Proof.
  induction 1 as [|x l k Hsub IH|x l k Hsub IH]; simpl; intros Hk.
  - constructor.
  - apply List.NoDup_cons_iff in Hk as [Hx Hk].
    constructor; [|auto]. intros Hin. apply Hx.
    apply List.in_map_iff in Hin as (y & <- & Hy).
    apply List.in_map. eapply sublist_In; eassumption.
  - apply List.NoDup_cons_iff in Hk as [_ Hk]. auto.
Qed.

Lemma NoDup_map_filters {A B : Type} (f : A -> B) (p q : A -> bool)
    (l : list A) :
  (forall x, p x = true -> q x = false) ->
  List.NoDup (map f l) ->
  List.NoDup (map f (List.filter p l ++ List.filter q l)).
Proof.
  intros Hpq. induction l as [|x l IH]; simpl; intros Hl; [constructor|].
  apply List.NoDup_cons_iff in Hl as [Hx Hl]. specialize (IH Hl).
  assert (Hfresh : ~ In (f x) (map f (List.filter p l ++ List.filter q l))).
  { intros Hin. apply Hx.
    apply List.in_map_iff in Hin as (y & <- & Hy). apply List.in_map.
    apply List.in_app_or in Hy as [Hy|Hy];
      apply List.filter_In in Hy; tauto. }
  destruct (p x) eqn:Hp.
  - rewrite (Hpq x Hp). simpl. now constructor.
  - destruct (q x); [|exact IH].
    eapply Permutation_NoDup;
      [apply Permutation_map, Permutation_middle|].
    simpl. now constructor.
Qed.

Lemma rankHits_keys (topK : nat) (cityFilter : option string)
    (hits : list Hit) :
  List.NoDup (map hitKey (rankHits topK cityFilter hits)).
Proof.
  unfold rankHits.
  rewrite (fold_left_ext _ _ hits _ keepUnique_where).
  destruct (keepWhere_run (fun _ => true) hits) as (kept & -> & _ & _ & Hn & _).
  destruct (truthy cityFilter).
  - eapply NoDup_map_sublist; [apply sublist_take|].
    apply NoDup_map_filters; [|exact Hn].
    intros x Hx. now rewrite Hx.
  - eapply NoDup_map_sublist; [apply sublist_take | exact Hn].
Qed.

Lemma rankHits_In (topK : nat) (cityFilter : option string)
    (hits : list Hit) (h : Hit) :
  In h (rankHits topK cityFilter hits) -> In h hits.
Proof.
  unfold rankHits.
  rewrite (fold_left_ext _ _ hits _ keepUnique_where).
  destruct (keepWhere_run (fun _ => true) hits) as (kept & -> & Hsub & _).
  intros Hin. eapply sublist_In; [exact Hsub|].
  destruct (truthy cityFilter).
  - apply (sublist_In _ _ _ (sublist_take _ _)) in Hin.
    apply List.in_app_or in Hin as [Hin|Hin];
      now apply List.filter_In in Hin.
  - now apply (sublist_In _ _ _ (sublist_take _ _)) in Hin.
Qed.

(** a hit kept by a deduplicating loop was kept before, or is the first of
    the input with its key *)
Lemma keepWhere_first (p : Hit -> bool) (hits : list Hit) :
  forall (seen : gset string) (kept : list Hit) (h : Hit),
    In h (snd (fold_left (keepWhere p) hits (seen, kept))) ->
    In h kept \/ ((hitKey h ∉ seen) /\ firstOfKey hits h).
Proof.
  unfold firstOfKey.
  induction hits as [|r hits IH]; intros seen kept h Hin.
  - now left.
  - cbn [fold_left] in Hin. rewrite keepWhere_eq in Hin. cbn [List.find].
    destruct (decide (hitKey r ∈ seen)) as [Hr|Hr].
    + destruct (IH _ _ _ Hin) as [Hk|[Hs Hf]]; [now left|].
      right. split; [exact Hs|].
      destruct (String.eqb (hitKey r) (hitKey h)) eqn:E; [|exact Hf].
      apply String.eqb_eq in E. congruence.
    + destruct (IH _ _ _ Hin) as [Hk|[Hs Hf]].
      * assert (Hk' : In h kept \/ h = r).
        { destruct (p r); [|now left].
          apply List.in_app_or in Hk as [Hk|[<-|[]]]; auto. }
        destruct Hk' as [Hk'| ->]; [now left|].
        right. split; [exact Hr|]. now rewrite String.eqb_refl.
      * right.
        assert (Hne : hitKey h <> hitKey r).
        { intros E. apply Hs. apply elem_of_union_l.
          now apply elem_of_singleton. }
        split.
        -- intros Hseen. apply Hs. now apply elem_of_union_r.
        -- destruct (String.eqb (hitKey r) (hitKey h)) eqn:E; [|exact Hf].
           apply String.eqb_eq in E. congruence.
Qed.

(** [rankHits] in terms of the first hit of every key *)
Lemma rankHits_firsts (topK : nat) (cityFilter : option string)
    (hits : list Hit) :
  exists firsts,
    sublist firsts hits
    /\ List.NoDup (map hitKey firsts)
    /\ (forall h, In h firsts -> firstOfKey hits h)
    /\ (forall h, In h hits -> In (hitKey h) (map hitKey firsts))
    /\ rankHits topK cityFilter hits
       = if truthy cityFilter
         then take topK
                (List.filter (storedIn (toLowerCase (orEmpty cityFilter))) firsts
                 ++ List.filter (onlyMentions (toLowerCase (orEmpty cityFilter)))
                      firsts)%list
         else take topK firsts.
Proof.
  unfold rankHits.
  rewrite (fold_left_ext _ _ hits _ keepUnique_where).
  pose proof (keepWhere_first (fun _ => true) hits ∅ []) as Hfirst.
  destruct (keepWhere_run (fun _ => true) hits)
    as (kept & E & Hsub & _ & Hn & Hall).
  rewrite E in Hfirst |- *.
  exists kept. split; [exact Hsub|]. split; [exact Hn|].
  split; [|split].
  - intros h Hh. destruct (Hfirst h Hh) as [[]|[_ Hf]]. exact Hf.
  - intros h Hh. destruct (Hall h Hh) as [?|(h' & _ & _ & ?)];
      [assumption | discriminate].
  - reflexivity.
Qed.

(** Once the index has replied with hits, [hybridSearch] returns at most
    [topK] of them and no two with the same key (the stored [unique_key],
    or name, city and address when there is none).  Of every key it keeps
    the hit that comes first in the reply, in the order of the index;
    without a city filter it returns the first [topK] of these, with a city
    filter the first [topK] of: those stored under the city, case ignored,
    followed by those stored under another city whose city or address
    contains it. *)
Theorem hybridSearch_distinct_keys {W Vec : Type} (env : Collaborators W Vec)
    (collectionName : string) (queryVector : Vec) (topK : nat)
    (cityFilter : option string) (st : State W) (hits : list Hit) (w' : W) :
  qdrant env collectionName (hybridBody queryVector topK cityFilter) (world st)
  = (Replied (Ok {| result := Some hits |}), w') ->
  exists out firsts,
    hybridSearch env collectionName queryVector topK cityFilter st
    = (Ok {| result := Some out |}, {| world := w'; console := console st |})
    /\ (List.length out <= topK)%nat
    /\ List.NoDup (map hitKey out)
    /\ (forall h, In h out -> In h hits)
    /\ sublist firsts hits
    /\ (forall h, In h firsts -> firstOfKey hits h)
    /\ (forall h, In h hits -> In (hitKey h) (map hitKey firsts))
    /\ out = if truthy cityFilter
             then take topK
                    (List.filter (storedIn (toLowerCase (orEmpty cityFilter)))
                                 firsts
                     ++ List.filter
                          (onlyMentions (toLowerCase (orEmpty cityFilter)))
                          firsts)%list
             else take topK firsts.
Proof.
  intros Hreply.
  destruct (rankHits_firsts topK cityFilter hits)
    as (firsts & Hsub & _ & Hfirst & Hall & Hrank).
  exists (rankHits topK cityFilter hits), firsts.
  split; [|split; [|split; [|split; [|split; [|split; [|split]]]]]].
  - unfold hybridSearch. rewrite bind_run. unfold postSearch.
    rewrite Hreply. reflexivity.
  - apply rankHits_length.
  - apply rankHits_keys.
  - apply rankHits_In.
  - exact Hsub.
  - exact Hfirst.
  - exact Hall.
  - exact Hrank.
Qed.

(** When [hybridSearch] comes back without a hit and the text search
    replies with hits, [smartHospitalSearch] returns at most [topK] of the
    text hits, in the order of the index and no two with the same key;
    with a city, every one of them has the lower-cased city in its city or
    address. *)
Theorem smartHospitalSearch_fallback {W Vec : Type} (ix : Index W Vec)
    (collectionName : string) (queryVector : Vec) (searchTerm : string)
    (city : option string) (topK : nat) (st st1 st2 : State W)
    (semanticResults : QdrantReply) (hits : list Hit) :
  hybridSearch (collaboratorsOf ix) collectionName queryVector topK city st
  = (Ok semanticResults, st1) ->
  result semanticResults = None \/ result semanticResults = Some [] ->
  fuzzyMatchHospital (collaboratorsOf ix) collectionName searchTerm
    (logged st1 LogLevel
       "Semantic search returned no results, trying fuzzy matching...")
  = (Ok {| result := Some hits |}, st2) ->
  exists out,
    smartHospitalSearch ix collectionName queryVector searchTerm city topK st
    = (Ok {| result := Some out |}, st2)
    /\ (List.length out <= topK)%nat
    /\ List.NoDup (map hitKey out)
    /\ sublist out hits
    /\ (truthy city = true ->
        Forall (fun h => mentionsCity (toLowerCase (orEmpty city)) h = true)
               out).
Proof.
  intros Hsem Hempty Hfuzzy.
  set (p := if truthy city then mentionsCity (toLowerCase (orEmpty city))
            else fun _ => true).
  destruct (keepWhere_run p hits) as (kept & E & Hsub & Hp & Hn & _).
  exists (take topK kept). split; [|split; [|split; [|split]]].
  - unfold smartHospitalSearch, tryCatch. rewrite bind_run, Hsem.
    assert (Hrun :
      (print LogLevel
         "Semantic search returned no results, trying fuzzy matching..." ;;;
       fuzzyResults <-
         fuzzyMatchHospital (collaboratorsOf ix) collectionName searchTerm ;;
       match result fuzzyResults with
       | Some hits =>
           ret {| result :=
                    Some (take topK
                            (snd (fold_left (keepInCity city) hits (∅, [])))) |}
       | None => ret fuzzyResults
       end) st1
      = (Ok {| result := Some (take topK kept) |}, st2)).
    { rewrite bind_run. unfold print at 1. fold (logged st1 LogLevel
        "Semantic search returned no results, trying fuzzy matching...").
      rewrite bind_run, Hfuzzy. cbn [result].
      rewrite (fold_left_ext _ _ hits _ (keepInCity_where city)).
      fold p. rewrite E. reflexivity. }
    cbv beta iota.
    destruct Hempty as [-> | ->]; cbv beta iota; now rewrite Hrun.
  - rewrite length_take. lia.
  - eapply NoDup_map_sublist; [apply sublist_take | exact Hn].
  - etransitivity; [apply sublist_take | exact Hsub].
  - intros Hcity. unfold p in Hp. rewrite Hcity in Hp.
    eapply sublist_Forall; [apply sublist_take | exact Hp].
Qed.

Lemma smartHospitalSearch_fallback_witness :
  exists out,
    smartHospitalSearch (Desk.textOnly [Desk.apollo 1 "Andheri"; Desk.pune;
                                        Desk.apollo 2 "Bandra"; Desk.fortis])
      COLLECTION tt "apollo" (Some "Mumbai") 5 Desk.start
    = (Ok {| result := Some out |},
       logged Desk.start LogLevel
         "Semantic search returned no results, trying fuzzy matching...")
    /\ (List.length out <= 5)%nat
    /\ List.NoDup (map hitKey out)
    /\ sublist out [Desk.apollo 1 "Andheri"; Desk.pune;
                    Desk.apollo 2 "Bandra"; Desk.fortis]
    /\ (truthy (Some "Mumbai") = true ->
        Forall (fun h => mentionsCity (toLowerCase (orEmpty (Some "Mumbai"))) h
                         = true) out).
Proof.
  apply (smartHospitalSearch_fallback _ _ _ _ _ _ Desk.start Desk.start _
           {| result := Some [] |}).
  - reflexivity.
  - right. reflexivity.
  - reflexivity.
Defined.

(** When the exact city match replies with hits, [searchByCity] returns
    at most [topK] of them, in the order of the index and no two with the
    same key, the first hit leading; the text search is not run. *)
Theorem searchByCity_exact_hits {W Vec : Type} (ix : Index W Vec)
    (collectionName city : string) (topK : nat) (st st1 : State W)
    (exactResults : QdrantReply) (h : Hit) (hs : list Hit) :
  exactMatchByCity ix collectionName city st = (Ok exactResults, st1) ->
  result exactResults = Some (h :: hs) ->
  exists out,
    searchByCity ix collectionName city topK st
    = (Ok {| result := Some out |}, st1)
    /\ (List.length out <= topK)%nat
    /\ List.NoDup (map hitKey out)
    /\ sublist out (h :: hs)
    /\ ((0 < topK)%nat -> head out = Some h)
    /\ forall x, In x (h :: hs) ->
         In (hitKey x) (map hitKey out) \/ List.length out = topK.
Proof.
  intros Hexact Hres.
  pose proof (keepWhere_fold (fun _ => true) hs {[hitKey h]} [h]) as Hfold.
  destruct Hfold as (extra & E & Hsub & _ & Hn & Hall).
  { intros x [<-|[]]. now apply elem_of_singleton. }
  { simpl. constructor; [intros [] | constructor]. }
  assert (Hkept : snd (fold_left keepFirst (h :: hs) (∅, [])) = h :: extra).
  { rewrite (fold_left_ext _ _ _ _ keepFirst_where). cbn [fold_left].
    rewrite keepWhere_eq.
    destruct (decide (hitKey h ∈ (∅ : gset string))) as [Hin|_];
      [now apply elem_of_empty in Hin|].
    simpl. rewrite union_empty_r_L. exact E. }
  exists (take topK (h :: extra)). split; [|split; [|split; [|split; [|split]]]].
  - unfold searchByCity, tryCatch. rewrite bind_run, Hexact.
    cbv beta iota. rewrite Hres. cbv beta iota. now rewrite Hkept.
  - rewrite length_take. lia.
  - eapply NoDup_map_sublist; [apply sublist_take | exact Hn].
  - etransitivity; [apply sublist_take | now apply sublist_skip].
  - intros Hk. destruct topK; [lia | reflexivity].
  - intros x Hx.
    destruct (Nat.le_gt_cases (List.length (h :: extra)) topK) as [Hle|Hgt].
    + left. rewrite take_ge by exact Hle.
      destruct Hx as [<-|Hx]; [now left|].
      destruct (Hall x Hx) as [Hk|[Hk|(x' & _ & _ & Hk)]].
      * apply elem_of_singleton in Hk. left. now symmetry.
      * now right.
      * discriminate Hk.
    + right. rewrite length_take. lia.
Qed.

Lemma searchByCity_exact_hits_witness :
  exists out,
    searchByCity (Desk.keyword [Desk.apollo 1 "Andheri"; Desk.apollo 2 "Bandra"]
                               [Desk.pune])
      COLLECTION "Mumbai" 10 Desk.start
    = (Ok {| result := Some out |}, Desk.start)
    /\ (List.length out <= 10)%nat
    /\ List.NoDup (map hitKey out)
    /\ sublist out [Desk.apollo 1 "Andheri"; Desk.apollo 2 "Bandra"]
    /\ ((0 < 10)%nat -> head out = Some (Desk.apollo 1 "Andheri"))
    /\ forall x, In x [Desk.apollo 1 "Andheri"; Desk.apollo 2 "Bandra"] ->
         In (hitKey x) (map hitKey out) \/ List.length out = 10%nat.
Proof.
  apply (searchByCity_exact_hits _ _ _ _ Desk.start Desk.start
           {| result := Some [Desk.apollo 1 "Andheri"; Desk.apollo 2 "Bandra"] |}).
  - reflexivity.
  - reflexivity.
Defined.

(** When the exact city match finds nothing, [searchByCity] falls back on
    the text search for the city and returns at most [topK] of its hits,
    in the order of the index, no two with the same key and every one with
    the lower-cased city in its city or address; a text reply without a
    result list gives an empty list. *)
Theorem searchByCity_fallback_hits {W Vec : Type} (ix : Index W Vec)
    (collectionName city : string) (topK : nat) (st st1 st2 : State W)
    (exactResults fuzzyResults : QdrantReply) :
  exactMatchByCity ix collectionName city st = (Ok exactResults, st1) ->
  result exactResults = None \/ result exactResults = Some [] ->
  fuzzyMatchHospital (collaboratorsOf ix) collectionName city st1
  = (Ok fuzzyResults, st2) ->
  exists out,
    searchByCity ix collectionName city topK st
    = (Ok {| result := Some out |}, st2)
    /\ (List.length out <= topK)%nat
    /\ List.NoDup (map hitKey out)
    /\ sublist out (hitsOf fuzzyResults)
    /\ Forall (fun h => mentionsCity (toLowerCase city) h = true) out
    /\ (result fuzzyResults = None -> out = []).
Proof.
  intros Hexact Hempty Hfuzzy.
  destruct (keepWhere_run (mentionsCity (toLowerCase city))
              (hitsOf fuzzyResults)) as (kept & E & Hsub & Hp & Hn & _).
  exists (take topK kept). split; [|split; [|split; [|split; [|split]]]].
  - unfold searchByCity, tryCatch. rewrite bind_run, Hexact.
    assert (Hrun :
      (fuzzyResults <-
         fuzzyMatchHospital (collaboratorsOf ix) collectionName city ;;
       ret {| result :=
                Some (take topK
                        (snd (fold_left (keepFirstInCity (toLowerCase city))
                                        (hitsOf fuzzyResults) (∅, [])))) |}) st1
      = (Ok {| result := Some (take topK kept) |}, st2)).
    { rewrite bind_run, Hfuzzy.
      rewrite (fold_left_ext _ _ _ _
                 (keepFirstInCity_where (toLowerCase city))).
      rewrite E. reflexivity. }
    cbv beta iota.
    destruct Hempty as [-> | ->]; cbv beta iota; now rewrite Hrun.
  - rewrite length_take. lia.
  - eapply NoDup_map_sublist; [apply sublist_take | exact Hn].
  - etransitivity; [apply sublist_take | exact Hsub].
  - eapply sublist_Forall; [apply sublist_take | exact Hp].
  - intros Hnone. unfold hitsOf in Hsub. rewrite Hnone in Hsub.
    apply sublist_nil_r in Hsub. rewrite Hsub. now destruct topK.
Qed.

Lemma searchByCity_fallback_hits_witness :
  exists out,
    searchByCity (Desk.keyword [] [Desk.apollo 1 "Andheri"; Desk.pune;
                                   Desk.fortis; Desk.apollo 2 "Bandra"])
      COLLECTION "Mumbai" 10 Desk.start
    = (Ok {| result := Some out |}, Desk.start)
    /\ (List.length out <= 10)%nat
    /\ List.NoDup (map hitKey out)
    /\ sublist out (hitsOf {| result := Some [Desk.apollo 1 "Andheri"; Desk.pune;
                                   Desk.fortis; Desk.apollo 2 "Bandra"] |})
    /\ Forall (fun h => mentionsCity (toLowerCase "Mumbai") h = true) out
    /\ (result {| result := Some [Desk.apollo 1 "Andheri"; Desk.pune;
                                   Desk.fortis; Desk.apollo 2 "Bandra"] |} = None
        -> out = []).
Proof.
  apply (searchByCity_fallback_hits _ _ _ _ Desk.start Desk.start Desk.start
           {| result := Some [] |}).
  - reflexivity.
  - right. reflexivity.
  - reflexivity.
Defined.


(** ** Ingestion *)

Section IngestFacts.
Import Ingest.

Lemma isEmpty_trimEnd (s : string) :
  isEmpty (trimEnd s) = blank s.
Proof.
  induction s as [|c s IH]; [reflexivity|]. simpl.
  rewrite IH. destruct (isSpace c); [|reflexivity]. simpl.
  now destruct (blank s).
Qed.

Lemma isEmpty_trim (s : string) : isEmpty (trim s) = blank s.
Proof.
  unfold trim. induction s as [|c s IH]; [reflexivity|]. simpl.
  destruct (isSpace c) eqn:E; [exact IH|].
  simpl. now rewrite E.
Qed.

Lemma forEach_parseStep {W : Type} (rows : list Row) :
  forall (hospitals : list Hospital) (skippedCount : nat)
         (st : State (Journal W)),
    forEach parseStep rows (hospitals, skippedCount) st
    = (Ok ((hospitals ++ map hospitalOf (List.filter validRow rows))%list,
           (skippedCount
            + List.length (List.filter (fun r => negb (validRow r)) rows))%nat),
       after st (outside (world st))
             (map warningOf (List.filter (fun r => negb (validRow r)) rows))).
Proof.
  induction rows as [|row rows IH]; intros hospitals skippedCount st.
  - simpl. unfold ret, after. simpl. rewrite !List.app_nil_r, Nat.add_0_r.
    now destruct st as [[w ev] c].
  - cbn [forEach]. rewrite bind_run.
    unfold parseStep at 1. rewrite bind_run.
    unfold parseHospitalRow. cbn [List.filter].
    destruct (Nat.ltb_spec (List.length row) 3) as [Hlen|Hlen].
    + assert (Hv : validRow row = false).
      { unfold validRow.
        now replace (3 <=? List.length row)%nat with false
          by (symmetry; apply Nat.leb_gt; lia). }
      assert (Hw : warningOf row = Printed WarnLevel (InvalidRowFormat row)).
      { unfold warningOf.
        now replace (List.length row <? 3)%nat with true
          by (symmetry; apply Nat.ltb_lt; lia). }
      rewrite Hv. cbn [negb map List.length]. rewrite Hw.
      rewrite bind_run. unfold record at 1. cbv beta iota.
      unfold ret at 1. cbv beta iota. unfold ret at 1.
      rewrite IH. unfold after. cbn [world outside events console].
      now rewrite <- List.app_assoc, Nat.add_succ_comm.
    + rewrite isEmpty_trim.
      assert (Hv : validRow row = negb (blank (cell row 0))).
      { unfold validRow.
        now replace (3 <=? List.length row)%nat with true
          by (symmetry; apply Nat.leb_le; lia). }
      assert (Hw : warningOf row = Printed WarnLevel (MissingHospitalName row)).
      { unfold warningOf.
        now replace (List.length row <? 3)%nat with false
          by (symmetry; apply Nat.ltb_ge; lia). }
      rewrite Hv.
      destruct (blank (cell row 0)) eqn:Hb; cbn [negb map List.length].
      * rewrite Hw.
        rewrite bind_run. unfold record at 1. cbv beta iota.
        unfold ret at 1. cbv beta iota. unfold ret at 1.
        rewrite IH. unfold after. cbn [world outside events console].
        now rewrite <- List.app_assoc, Nat.add_succ_comm.
      * unfold ret at 1. cbv beta iota. unfold ret at 1.
        rewrite IH. now rewrite <- List.app_assoc.
Qed.

(** The parse loop never throws and leaves the world outside alone: it
    returns the hospitals of the rows with at least three cells and a
    non-blank first cell, in the order of the file, each with a non-empty
    name and trimmed fields; every other row is counted as skipped and
    gets one warning, so hospitals and skipped rows add up to the rows. *)
Theorem parseRows_accounting {W : Type} (rows : list Row)
    (st : State (Journal W)) :
  let hospitals := map hospitalOf (List.filter validRow rows) in
  let rejected := List.filter (fun r => negb (validRow r)) rows in
  parseRows rows st
  = (Ok (hospitals, List.length rejected),
     after st (outside (world st)) (map warningOf rejected))
  /\ (List.length hospitals + List.length rejected = List.length rows)%nat
  /\ Forall (fun h => isEmpty (name h) = false
                      /\ trim (name h) = name h
                      /\ trim (address h) = address h
                      /\ trim (city h) = city h)
            hospitals.
Proof.
  cbv zeta. split; [|split].
  - unfold parseRows. now rewrite forEach_parseStep.
  - rewrite List.length_map.
    induction rows as [|row rows IH]; simpl; [reflexivity|].
    destruct (validRow row); simpl; lia.
  - apply List.Forall_forall. intros h Hh.
    apply List.in_map_iff in Hh as (row & <- & Hrow).
    apply List.filter_In in Hrow as [_ Hvalid].
    unfold validRow in Hvalid. apply andb_true_iff in Hvalid as [_ Hvalid].
    apply negb_true_iff in Hvalid. unfold hospitalOf. simpl.
    rewrite isEmpty_trim, !trim_idem. auto.
Qed.

Lemma hasBar_cons (c : ascii) (s : string) :
  hasBar (String c s) = Ascii.eqb c "|" || hasBar s.
Proof.
  unfold hasBar. rewrite includes_cons. simpl.
  now destruct s; rewrite andb_true_r.
Qed.

Lemma toLowerChar_bar (c : ascii) :
  Ascii.eqb (toLowerChar c) "|" = Ascii.eqb c "|".
Proof.
  destruct c as [[] [] [] [] [] [] [] []]; reflexivity.
Qed.

Lemma hasBar_toLowerCase (s : string) : hasBar (toLowerCase s) = hasBar s.
Proof.
  induction s as [|c s IH]; [reflexivity|]. simpl toLowerCase.
  now rewrite !hasBar_cons, toLowerChar_bar, IH.
Qed.

Lemma hasBar_normalized (s : string) :
  hasBar s = false -> hasBar (normalized s) = false.
Proof.
  intros H. unfold normalized.
  destruct (hasBar (trim (toLowerCase s))) eqn:E; [|reflexivity].
  rewrite <- H, <- hasBar_toLowerCase. symmetry.
  eapply includes_trans; [apply includes_trim | exact E].
Qed.

Lemma bar_split (s1 : string) :
  forall s2 t1 t2,
    hasBar s1 = false -> hasBar s2 = false ->
    s1 ++ "|" ++ t1 = s2 ++ "|" ++ t2 -> s1 = s2 /\ t1 = t2.
Proof.
  induction s1 as [|c s1 IH]; intros [|c' s2] t1 t2 H1 H2 E.
  - rewrite !append_nil_l in E. injection E as E. now split.
  - rewrite append_nil_l, !append_cons in E. injection E as <- E.
    rewrite hasBar_cons in H2. discriminate H2.
  - rewrite append_nil_l, !append_cons in E. injection E as -> E.
    rewrite hasBar_cons in H1. discriminate H1.
  - rewrite !append_cons in E. injection E as <- E.
    rewrite hasBar_cons in H1, H2.
    apply orb_false_iff in H1 as [_ H1]. apply orb_false_iff in H2 as [_ H2].
    destruct (IH s2 t1 t2 H1 H2 E) as [-> ->]. now split.
Qed.

(** Two hospitals get the same key exactly when their names, cities and
    addresses agree up to letter case and outer white space, as long as no
    name and no city has a '|' in it. *)
Theorem createHospitalKey_separates (h1 h2 : Hospital) :
  hasBar (name h1) = false -> hasBar (city h1) = false ->
  hasBar (name h2) = false -> hasBar (city h2) = false ->
  createHospitalKey h1 = createHospitalKey h2 <-> keyFields h1 = keyFields h2.
Proof.
  intros Hn1 Hc1 Hn2 Hc2. unfold createHospitalKey, keyFields.
  fold (normalized (name h1)) (normalized (city h1)) (normalized (address h1)).
  fold (normalized (name h2)) (normalized (city h2)) (normalized (address h2)).
  split.
  - intros E.
    apply bar_split in E as [En E]; try now apply hasBar_normalized.
    apply bar_split in E as [Ec Ea]; try now apply hasBar_normalized.
    now rewrite En, Ec, Ea.
  - intros E. injection E as -> -> ->. reflexivity.
Qed.

Lemma createHospitalKey_separates_witness :
  createHospitalKey {| name := " Apollo Hospital"; address := "MG Road ";
                       city := "MUMBAI" |}
  = createHospitalKey {| name := "apollo hospital"; address := "mg road";
                         city := "Mumbai " |}
  <-> keyFields {| name := " Apollo Hospital"; address := "MG Road ";
                   city := "MUMBAI" |}
      = keyFields {| name := "apollo hospital"; address := "mg road";
                     city := "Mumbai " |}.
Proof.
  apply (createHospitalKey_separates
           {| name := " Apollo Hospital"; address := "MG Road ";
              city := "MUMBAI" |}
           {| name := "apollo hospital"; address := "mg road";
              city := "Mumbai " |}); reflexivity.
Defined.

Lemma has_In (hospitalMap : list (string * Hospital)) (key : string) :
  has hospitalMap key = true <-> In key (map fst hospitalMap).
Proof.
  unfold has. rewrite List.existsb_exists, List.in_map_iff. split.
  - intros (e & He & Hk). apply String.eqb_eq in Hk. eauto.
  - intros (e & Hk & He). exists e. split; [exact He|].
    now apply String.eqb_eq.
Qed.

Lemma map_fst_entry (l : list Hospital) :
  map fst (map entry l) = map createHospitalKey l.
Proof. now rewrite List.map_map. Qed.

Lemma map_snd_entry (l : list Hospital) : map snd (map entry l) = l.
Proof. rewrite List.map_map. apply List.map_id. Qed.

(** what the deduplicating loop leaves, from any map and count *)
Lemma dedupe_fold (hospitals : list Hospital) :
  forall (hospitalMap : list (string * Hospital)) (count : nat),
    exists extra,
      fold_left dedupeStep hospitals (hospitalMap, count)
      = ((hospitalMap ++ map entry extra)%list,
         (count + (List.length hospitals - List.length extra))%nat)
      /\ sublist extra hospitals
      /\ (List.NoDup (map fst hospitalMap) ->
          List.NoDup (map fst (hospitalMap ++ map entry extra)))
      /\ (forall h, In h hospitals ->
            In (createHospitalKey h) (map fst (hospitalMap ++ map entry extra)))
      /\ (forall h, In h extra ->
            ~ In (createHospitalKey h) (map fst hospitalMap)
            /\ List.find (fun x => String.eqb (createHospitalKey x)
                                              (createHospitalKey h))
                         hospitals = Some h).
Proof.
  induction hospitals as [|h0 hospitals IH]; intros hospitalMap count.
  - exists []. simpl. rewrite List.app_nil_r, Nat.add_0_r.
    split; [reflexivity|]. split; [constructor|]. split; [auto|].
    split; intros h [].
  - cbn [fold_left]. unfold dedupeStep at 2.
    destruct (has hospitalMap (createHospitalKey h0)) eqn:Hhas; cbn [negb].
    + destruct (IH hospitalMap (S count))
        as (extra & E & Hsub & Hnd & Hall & Hfirst).
      pose proof (sublist_length _ _ Hsub) as Hlen.
      exists extra. rewrite E. split; [|split; [|split; [|split]]].
      * f_equal. simpl. lia.
      * now apply sublist_cons.
      * exact Hnd.
      * intros h [<-|Hh]; [|now apply Hall].
        rewrite List.map_app. apply List.in_or_app. left.
        now apply has_In.
      * intros h Hh. destruct (Hfirst h Hh) as [Hfresh Hfind].
        split; [exact Hfresh|]. simpl.
        destruct (String.eqb_spec (createHospitalKey h0) (createHospitalKey h))
          as [Heq|_]; [|exact Hfind].
        exfalso. apply Hfresh. rewrite <- Heq. now apply has_In.
    + assert (Hfresh0 : ~ In (createHospitalKey h0) (map fst hospitalMap)).
      { intros Hin. apply has_In in Hin. congruence. }
      destruct (IH (hospitalMap ++ [(createHospitalKey h0, h0)])%list count)
        as (extra & E & Hsub & Hnd & Hall & Hfirst).
      pose proof (sublist_length _ _ Hsub) as Hlen.
      exists (h0 :: extra). rewrite E, <- List.app_assoc.
      split; [|split; [|split; [|split]]].
      * reflexivity.
      * now apply sublist_skip.
      * intros Hm. rewrite <- List.app_assoc in Hnd. apply Hnd.
        rewrite List.map_app. simpl.
        apply List.NoDup_app; [exact Hm | | ].
        -- constructor; [intros [] | constructor].
        -- intros k Hk [<-|[]]. contradiction.
      * rewrite <- List.app_assoc in Hall.
        intros h [<-|Hh]; [|now apply Hall].
        rewrite List.map_app. apply List.in_or_app. right. now left.
      * intros h [<-|Hh].
        -- split; [exact Hfresh0|]. simpl. now rewrite String.eqb_refl.
        -- destruct (Hfirst h Hh) as [Hfresh Hfind].
           rewrite List.map_app in Hfresh. split.
           ++ intros Hin. apply Hfresh. apply List.in_or_app. now left.
           ++ simpl.
              destruct (String.eqb_spec (createHospitalKey h0)
                                        (createHospitalKey h)) as [Heq|_];
                [|exact Hfind].
              exfalso. apply Hfresh. apply List.in_or_app. right.
              left. exact Heq.
Qed.

Lemma deduplicate_run (hospitals : list Hospital) :
  exists kept,
    uniqueHospitals hospitals = kept
    /\ duplicateCount hospitals
       = (List.length hospitals - List.length kept)%nat
    /\ sublist kept hospitals
    /\ List.NoDup (map createHospitalKey kept)
    /\ (forall h, In h hospitals ->
          In (createHospitalKey h) (map createHospitalKey kept))
    /\ (forall h, In h kept ->
          List.find (fun x => String.eqb (createHospitalKey x)
                                         (createHospitalKey h))
                    hospitals = Some h).
Proof.
  destruct (dedupe_fold hospitals [] 0)
    as (extra & E & Hsub & Hnd & Hall & Hfirst).
  exists extra. unfold uniqueHospitals, duplicateCount, deduplicate.
  rewrite E. simpl. simpl in Hnd, Hall.
  rewrite map_fst_entry in Hnd. 
  split; [apply map_snd_entry|]. split; [reflexivity|].
  split; [exact Hsub|]. split; [apply Hnd; constructor|]. split.
  - intros h Hh. rewrite <- map_fst_entry. now apply Hall.
  - intros h Hh. now apply Hfirst.
Qed.

(** Deduplication keeps, in the order of the file, the first hospital of
    every key and counts the others: the kept hospitals have distinct
    keys, every parsed hospital's key is among them, and kept hospitals
    and duplicates add up to the parsed ones. *)
Theorem uniqueHospitals_first_of_each_key (hospitals : list Hospital) :
  let kept := uniqueHospitals hospitals in
  (List.length hospitals = List.length kept + duplicateCount hospitals)%nat
  /\ sublist kept hospitals
  /\ List.NoDup (map createHospitalKey kept)
  /\ (forall h, In h hospitals ->
        In (createHospitalKey h) (map createHospitalKey kept))
  /\ (forall h, In h kept ->
        List.find (fun x => String.eqb (createHospitalKey x)
                                       (createHospitalKey h))
                  hospitals = Some h).
Proof.
  cbv zeta.
  destruct (deduplicate_run hospitals) as (kept & -> & -> & Hsub & Hrest).
  pose proof (sublist_length _ _ Hsub) as Hlen.
  split; [lia|]. split; [exact Hsub | exact Hrest].
Qed.

Lemma filter_nil_iff {A : Type} (f : A -> bool) (l : list A) :
  (forall x, In x l -> f x = false) -> List.filter f l = [].
Proof.
  intros H. induction l as [|x l IH]; [reflexivity|]. simpl.
  rewrite (H x) by now left. apply IH. intros y Hy. apply H. now right.
Qed.

(** The hospitals sent on for embedding are the first of every key that
    the index does not hold yet: their keys are distinct and new, they and
    the count printed as removed duplicates add up to the parsed
    hospitals, and once their keys are in the index a second run of the
    same file sends nothing. *)
Theorem newHospitals_accounting (hospitals : list Hospital)
    (existingKeys : gset string) :
  let new := newHospitals (uniqueHospitals hospitals) existingKeys in
  sublist new hospitals
  /\ List.NoDup (map createHospitalKey new)
  /\ Forall (fun h => createHospitalKey h ∉ existingKeys) new
  /\ (forall h, In h hospitals -> createHospitalKey h ∉ existingKeys ->
        In (createHospitalKey h) (map createHospitalKey new))
  /\ (List.length hospitals
      = List.length new + duplicatesRemoved hospitals existingKeys)%nat
  /\ newHospitals (uniqueHospitals hospitals)
       (existingKeys ∪ list_to_set (map createHospitalKey new)) = [].
Proof.
  cbv zeta. unfold duplicatesRemoved.
  destruct (deduplicate_run hospitals)
    as (kept & -> & -> & Hsub & Hnd & Hall & _).
  pose proof (sublist_length _ _ Hsub) as Hlen.
  unfold newHospitals.
  set (fresh := fun hospital : Hospital =>
         negb (bool_decide (createHospitalKey hospital ∈ existingKeys))).
  pose proof (sublist_length _ _ (filter_sublist fresh kept)) as Hlen'.
  split; [|split; [|split; [|split; [|split]]]].
  - etransitivity; [apply filter_sublist | exact Hsub].
  - eapply NoDup_map_sublist; [apply filter_sublist | exact Hnd].
  - apply List.Forall_forall. intros h Hh.
    apply List.filter_In in Hh as [_ Hh]. unfold fresh in Hh.
    apply negb_true_iff, bool_decide_eq_false in Hh. exact Hh.
  - intros h Hh Hnew. specialize (Hall h Hh).
    apply List.in_map_iff in Hall as (k & Hk & Hin).
    apply List.in_map_iff. exists k. split; [exact Hk|].
    apply List.filter_In. split; [exact Hin|]. unfold fresh.
    apply negb_true_iff, bool_decide_eq_false. now rewrite Hk.
  - lia.
  - apply filter_nil_iff. intros h Hh.
    apply negb_false_iff, bool_decide_eq_true.
    destruct (decide (createHospitalKey h ∈ existingKeys)) as [Hold|Hnew].
    + now apply elem_of_union_l.
    + apply elem_of_union_r, elem_of_list_to_set, list_elem_of_In.
      apply List.in_map. apply List.filter_In. split; [exact Hh|].
      unfold fresh. now apply negb_true_iff, bool_decide_eq_false.
Qed.

End IngestFacts.


Section IngestBatches.
Import Ingest.

Lemma ceil_step (m size : nat) :
  (0 < size)%nat -> (0 < m)%nat ->
  ((m + (size - 1)) / size = S ((m - size + (size - 1)) / size))%nat.
Proof.
  intros Hs Hm. destruct (Nat.le_gt_cases m size) as [Hle|Hgt].
  - replace (m - size)%nat with 0%nat by lia. simpl (0 + _)%nat.
    rewrite (Nat.div_small (size - 1) size) by lia.
    symmetry. apply (Nat.div_unique _ _ 1 (m - 1)); lia.
  - replace (m + (size - 1))%nat with (m - size + (size - 1) + 1 * size)%nat
      by lia.
    rewrite Nat.div_add by lia. lia.
Qed.

Lemma batchesFrom_spec {A : Type} (size : nat) (l : list A) :
  (0 < size)%nat ->
  forall fuel i,
    (List.length l - i <= fuel)%nat ->
    concat (batchesFrom fuel i size l) = drop i l
    /\ Forall (fun b => (0 < List.length b <= size)%nat)
              (batchesFrom fuel i size l)
    /\ List.length (batchesFrom fuel i size l)
       = ((List.length l - i + (size - 1)) / size)%nat
    /\ (forall k b,
          batchesFrom fuel i size l !! k = Some b ->
          (S k < List.length (batchesFrom fuel i size l))%nat ->
          List.length b = size).
Proof.
  intros Hsize.
  assert (Hdone : forall fuel i,
            (List.length l <= i)%nat ->
            batchesFrom fuel i size l = []).
  { intros [|fuel] i Hi; [reflexivity|]. simpl.
    now replace (i <? List.length l)%nat with false
      by (symmetry; apply Nat.ltb_ge; lia). }
  assert (Hnone : forall i,
            (List.length l <= i)%nat ->
            drop i l = []
            /\ ((List.length l - i + (size - 1)) / size = 0)%nat).
  { intros i Hi. split; [now apply drop_ge|].
    replace (List.length l - i)%nat with 0%nat by lia.
    apply Nat.div_small. lia. }
  induction fuel as [|fuel IH]; intros i Hfuel.
  - destruct (Hnone i) as [-> ->]; [lia|]. simpl.
    split; [reflexivity|]. split; [constructor|]. split; [reflexivity|].
    intros k b Hk. discriminate Hk.
  - destruct (Nat.le_gt_cases (List.length l) i) as [Hi|Hi].
    + rewrite (Hdone (S fuel) i Hi). destruct (Hnone i Hi) as [-> ->].
      split; [reflexivity|]. split; [constructor|]. split; [reflexivity|].
      intros k b Hk. discriminate Hk.
    + cbn [batchesFrom].
      replace (i <? List.length l)%nat with true
        by (symmetry; apply Nat.ltb_lt; lia).
      unfold slice. replace (i + size - i)%nat with size by lia.
      destruct (IH (i + size)%nat) as (Hcat & Hall & Hlen & Hfull); [lia|].
      assert (Hfirst : List.length (take size (drop i l))
                       = Nat.min size (List.length l - i)).
      { now rewrite length_take, length_drop. }
      split; [|split; [|split]].
      * cbn [concat]. rewrite Hcat, <- drop_drop. apply take_drop.
      * constructor; [rewrite Hfirst; lia | exact Hall].
      * cbn [List.length]. rewrite Hlen.
        replace (List.length l - (i + size))%nat
          with (List.length l - i - size)%nat by lia.
        symmetry. apply ceil_step; lia.
      * intros [|k] b Hk Hmore.
        -- injection Hk as <-. rewrite Hfirst.
           cbn [List.length] in Hmore.
           destruct (Nat.le_gt_cases (List.length l) (i + size)) as [Hend|Hgo].
           ++ rewrite (Hdone fuel (i + size)%nat Hend) in Hmore.
              simpl in Hmore. lia.
           ++ lia.
        -- cbn [List.length] in Hmore. apply (Hfull k b Hk). lia.
Qed.

(** The embedding batches are the new hospitals cut into consecutive
    pieces: put end to end they give the list back, none is empty, none
    has more than 100 hospitals, every batch but the last has exactly 100,
    and there are as many as 100 goes into the count, rounded up. *)
Theorem embeddingBatches_partition (newHospitals : list Hospital) :
  concat (embeddingBatches newHospitals) = newHospitals
  /\ Forall (fun b => (0 < List.length b <= 100)%nat)
            (embeddingBatches newHospitals)
  /\ List.length (embeddingBatches newHospitals)
     = ((List.length newHospitals + 99) / 100)%nat
  /\ (forall k b,
        embeddingBatches newHospitals !! k = Some b ->
        (S k < List.length (embeddingBatches newHospitals))%nat ->
        List.length b = 100%nat).
Proof.
  unfold embeddingBatches, EMBEDDING_BATCH_SIZE.
  destruct (batchesFrom_spec 100 newHospitals ltac:(lia)
              (List.length newHospitals) 0 ltac:(lia))
    as (Hcat & Hall & Hlen & Hfull).
  split; [exact Hcat|]. split; [exact Hall|]. split; [|exact Hfull].
  rewrite Hlen. now rewrite Nat.sub_0_r.
Qed.

Lemma toPoints_run {W Vec R : Type} (svc : Services W Vec R)
    (batch : list Hospital) :
  forall (idx : nat) (vectors : list Vec) (st : State (Journal W)),
    exists points st',
      toPoints svc batch idx vectors st = (Ok points, st')
      /\ events (world st') = events (world st)
      /\ map payload points = map storedOf batch
      /\ map vector points
         = map (fun i => vectors !! i) (seq idx (List.length batch)).
Proof.
  induction batch as [|hospital batch IH]; intros idx vectors st.
  - exists [], st. repeat split.
  - cbn [toPoints]. rewrite bind_run. unfold call at 1.
    destruct (uuidv4 svc (outside (world st))) as [i w].
    cbv beta iota. rewrite bind_run.
    match goal with |- context [toPoints svc batch (S idx) vectors ?s] =>
      destruct (IH (S idx) vectors s) as (points & st' & E & Hev & Hp & Hv)
    end.
    rewrite E. cbv beta iota. unfold ret.
    eexists _, st'. split; [reflexivity|]. split; [exact Hev|].
    cbn [map List.length seq payload vector]. rewrite Hp, Hv.
    split; reflexivity.
Qed.

End IngestBatches.

Section IngestRetries.
Import Ingest.
Context {W Vec R : Type} (svc : Services W Vec R).

Lemma after_nil (st : State (Journal W)) :
  after st (outside (world st)) [] = st.
Proof.
  destruct st as [[w ev] c]. unfold after. simpl. now rewrite List.app_nil_r.
Qed.

Lemma after_after (st : State (Journal W)) (w w' : W) (a b : list Event) :
  after (after st w a) w' b = after st w' (a ++ b).
Proof. unfold after. simpl. now rewrite List.app_assoc. Qed.

Lemma record_run (e : Event) (st : State (Journal W)) :
  record e st = (Ok tt, after st (outside (world st)) [e]).
Proof. reflexivity. Qed.

Lemma attempt_run {A : Type} (f : W -> Res A * W) (w : W) (new : list Event)
    (st : State (Journal W)) :
  attempt f (after st w new)
  = (fst (f w), after st (snd (f w)) new).
Proof. unfold attempt, after. simpl. now destruct (f w). Qed.

Lemma embedLoop_step (fuel : nat) (texts : list string)
    (batchIndex maxRetries retries : nat) (w : W) (new : list Event)
    (st : State (Journal W)) :
  (retries < maxRetries)%nat ->
  embedLoop svc (S fuel) texts batchIndex maxRetries retries (after st w new)
  = match embedTexts svc texts w with
    | (Ok vectors, w') => (Ok (Some vectors), after st w' new)
    | (Throw error, w') =>
        if (S retries =? maxRetries)%nat then
          (Throw error,
           after st w'
             (new ++ [Printed ErrorLevel
                        (EmbeddingGaveUp (batchIndex + 1) maxRetries
                                         (message error))]))
        else
          let delay := N.min (1000 * 2 ^ N.of_nat (S retries)) 5000 in
          embedLoop svc fuel texts batchIndex maxRetries (S retries)
            (after st w'
               (new ++ [Printed LogLevel
                          (EmbeddingRetry (S retries) maxRetries
                                          (batchIndex + 1) delay);
                        Waited delay]))
    end.
Proof.
  intros Hlt. cbn [embedLoop].
  replace (retries <? maxRetries)%nat with true
    by (symmetry; apply Nat.ltb_lt; lia).
  unfold tryCatch. rewrite bind_run, attempt_run.
  destruct (embedTexts svc texts w) as [[vectors|error] w']; cbn [fst snd].
  - reflexivity.
  - destruct (S retries =? maxRetries)%nat.
    + rewrite bind_run, record_run. cbv beta iota. unfold throw.
      now rewrite after_after.
    + cbv zeta. rewrite bind_run, record_run. cbv beta iota.
      rewrite bind_run, record_run. cbv beta iota.
      rewrite !after_after. reflexivity.
Qed.

(** [processEmbeddingBatch] asks for the embeddings at most three times,
    waiting 2 s after the first failure and 4 s after the second (the 5 s
    cap is never reached).  When an attempt succeeds it returns one point
    per hospital, in order, each with the hospital's fields, its city also
    as [city_exact], and its key; it throws only when all three attempts
    failed, and then the error of the third, after printing it. *)
Theorem processEmbeddingBatch_backoff (batch : list Hospital)
    (batchIndex totalBatches : nat) (st : State (Journal W)) :
  let texts := map textOf batch in
  let run := processEmbeddingBatch svc batch batchIndex totalBatches st in
  exists new,
    events (world (snd run)) = (events (world st) ++ new)%list
    /\ match fst run with
       | Ok points =>
           map payload points = map storedOf batch
           /\ (waits new = [] \/ waits new = [2000%N]
               \/ waits new = [2000%N; 4000%N])
       | Throw error =>
           waits new = [2000%N; 4000%N]
           /\ last new
              = Some (Printed ErrorLevel
                        (EmbeddingGaveUp (batchIndex + 1) 3 (message error)))
           /\ exists e1 e2 w1 w2 w3,
                embedTexts svc texts (outside (world st)) = (Throw e1, w1)
                /\ embedTexts svc texts w1 = (Throw e2, w2)
                /\ embedTexts svc texts w2 = (Throw error, w3)
       end.
Proof.
  cbv zeta. unfold processEmbeddingBatch.
  change (map (fun hospital => name hospital ++ " | " ++ address hospital
                               ++ " | " ++ city hospital) batch)
    with (map textOf batch).
  set (texts := map textOf batch).
  rewrite bind_run, record_run. cbv beta iota zeta. rewrite bind_run.
  rewrite embedLoop_step by lia.
  destruct (embedTexts svc texts (outside (world st))) as [[vectors|e1] w1]
    eqn:E1.
  { match goal with |- context [toPoints svc batch 0 vectors ?s] =>
      destruct (toPoints_run svc batch 0 vectors s)
        as (points & st' & E & Hev & Hp & _)
    end.
    rewrite E. eexists. split; [exact Hev|]. split; [exact Hp|].
    left. reflexivity. }
  cbn [Nat.eqb]. cbv zeta. rewrite embedLoop_step by lia.
  destruct (embedTexts svc texts w1) as [[vectors|e2] w2] eqn:E2.
  { match goal with |- context [toPoints svc batch 0 vectors ?s] =>
      destruct (toPoints_run svc batch 0 vectors s)
        as (points & st' & E & Hev & Hp & _)
    end.
    rewrite E. eexists. split; [exact Hev|]. split; [exact Hp|].
    right. left. reflexivity. }
  cbn [Nat.eqb]. cbv zeta. rewrite embedLoop_step by lia.
  destruct (embedTexts svc texts w2) as [[vectors|e3] w3] eqn:E3.
  { match goal with |- context [toPoints svc batch 0 vectors ?s] =>
      destruct (toPoints_run svc batch 0 vectors s)
        as (points & st' & E & Hev & Hp & _)
    end.
    rewrite E. eexists. split; [exact Hev|]. split; [exact Hp|].
    right. right. reflexivity. }
  cbn [Nat.eqb]. eexists. split; [reflexivity|].
  split; [reflexivity|]. split; [reflexivity|].
  exists e1, e2, w1, w2, w3. auto.
Qed.

Lemma upsertPointsFast_cases (collectionName : string)
    (points : list (Point Vec)) (w : W) (new : list Event)
    (st : State (Journal W)) :
  (points = []
   /\ upsertPointsFast svc collectionName points (after st w new)
      = (Ok NothingToInsert,
         after st w (new ++ [Printed LogLevel NoPointsToInsert])))
  \/ (points <> []
      /\ exists r w',
           upsertPointsFast svc collectionName points (after st w new)
           = (r, after st w' new)).
Proof.
  unfold upsertPointsFast. destruct points as [|p points].
  - left. split; [reflexivity|]. cbn [List.length Nat.eqb].
    rewrite bind_run, record_run. cbv beta iota. unfold ret.
    now rewrite after_after.
  - right. split; [discriminate|]. cbn [List.length Nat.eqb].
    cbn [world outside events console after].
    destruct (putPoints svc collectionName (p :: points) w)
      as [[e|txt|[r|e]] w']; eexists _, w'; reflexivity.
Qed.

Lemma insertLoop_step (fuel : nat) (points : list (Point Vec))
    (batchIndex maxRetries retries : nat) (st : State (Journal W)) :
  (retries < maxRetries)%nat ->
  insertLoop svc (S fuel) points batchIndex maxRetries retries st
  = match upsertPointsFast svc COLLECTION points st with
    | (Ok _, st') => (Ok (Some (List.length points)), st')
    | (Throw error, st') =>
        if (S retries =? maxRetries)%nat then
          (Throw error,
           after st' (outside (world st'))
             [Printed ErrorLevel
                (InsertGaveUp (batchIndex + 1) maxRetries (message error))])
        else
          let delay := (1000 * N.of_nat (S retries))%N in
          insertLoop svc fuel points batchIndex maxRetries (S retries)
            (after st' (outside (world st'))
               [Printed LogLevel
                  (InsertRetry (S retries) maxRetries (batchIndex + 1) delay);
                Waited delay])
    end.
Proof.
  intros Hlt. cbn [insertLoop].
  replace (retries <? maxRetries)%nat with true
    by (symmetry; apply Nat.ltb_lt; lia).
  unfold tryCatch. rewrite bind_run.
  destruct (upsertPointsFast svc COLLECTION points st) as [[r|error] st'].
  - reflexivity.
  - destruct (S retries =? maxRetries)%nat.
    + rewrite bind_run, record_run. reflexivity.
    + cbv zeta. rewrite bind_run, record_run. cbv beta iota.
      rewrite bind_run, record_run. cbv beta iota.
      rewrite !after_after. reflexivity.
Qed.

(** [processDatabaseBatch] sends the points at most three times, waiting
    1 s after the first failure and 2 s after the second.  When an attempt
    succeeds it returns the number of points; it throws only when all three
    attempts failed, and then the error of the third, after printing it.
    An empty batch never reaches the index: it returns 0 at once. *)
Theorem processDatabaseBatch_retries (points : list (Point Vec))
    (batchIndex totalBatches : nat) (st : State (Journal W)) :
  let run := processDatabaseBatch svc points batchIndex totalBatches st in
  exists new,
    events (world (snd run)) = (events (world st) ++ new)%list
    /\ match fst run with
       | Ok count =>
           count = Some (List.length points)
           /\ (waits new = [] \/ waits new = [1000%N]
               \/ waits new = [1000%N; 2000%N])
       | Throw error =>
           points <> []
           /\ waits new = [1000%N; 2000%N]
           /\ last new
              = Some (Printed ErrorLevel
                        (InsertGaveUp (batchIndex + 1) 3 (message error)))
       end
    /\ (points = [] ->
        fst run = Ok (Some 0%nat)
        /\ outside (world (snd run)) = outside (world st)
        /\ new = [Printed LogLevel
                    (InsertingBatch (batchIndex + 1) totalBatches 0);
                  Printed LogLevel NoPointsToInsert]).
Proof.
  cbv zeta. unfold processDatabaseBatch.
  rewrite bind_run, record_run. cbv beta iota zeta.
  rewrite insertLoop_step by lia.
  match goal with |- context [upsertPointsFast svc COLLECTION points
                                (after st ?w ?new)] =>
    destruct (upsertPointsFast_cases COLLECTION points w new st)
      as [[-> E]|(Hne & r & w1 & E)]
  end; rewrite E.
  { eexists. split; [reflexivity|]. split; [|intros _; repeat split].
    split; [reflexivity | left; reflexivity]. }
  destruct r as [r|e1].
  { eexists. split; [reflexivity|]. split; [|intros ->; now elim Hne].
    split; [reflexivity | left; reflexivity]. }
  cbn [Nat.eqb]. cbv zeta. rewrite after_after.
  rewrite insertLoop_step by lia.
  match goal with |- context [upsertPointsFast svc COLLECTION points
                                (after st ?w ?new)] =>
    destruct (upsertPointsFast_cases COLLECTION points w new st)
      as [[-> _]|(_ & r & w2 & E2)]
  end; [now elim Hne|]. rewrite E2.
  destruct r as [r|e2].
  { eexists. split; [reflexivity|]. split; [|intros ->; now elim Hne].
    split; [reflexivity | right; left; reflexivity]. }
  cbn [Nat.eqb]. cbv zeta. rewrite after_after.
  rewrite insertLoop_step by lia.
  match goal with |- context [upsertPointsFast svc COLLECTION points
                                (after st ?w ?new)] =>
    destruct (upsertPointsFast_cases COLLECTION points w new st)
      as [[-> _]|(_ & r & w3 & E3)]
  end; [now elim Hne|]. rewrite E3.
  destruct r as [r|e3].
  { eexists. split; [reflexivity|]. split; [|intros ->; now elim Hne].
    split; [reflexivity | right; right; reflexivity]. }
  cbn [Nat.eqb]. rewrite after_after.
  eexists. split; [reflexivity|]. split; [|intros ->; now elim Hne].
  split; [exact Hne|]. split; reflexivity.
Qed.

End IngestRetries.

(** ** Concrete runs of the index helpers *)

Lemma hybridSearch_distinct_keys_witness :
  exists out firsts,
    hybridSearch (Scenario.answering
                    [Desk.apollo 1 "Andheri"; Desk.pune; Desk.apollo 2 "Bandra"])
      COLLECTION tt 5 None Scenario.start
    = (Ok {| result := Some out |},
       {| world := tt; console := console Scenario.start |})
    /\ out = take 5 firsts
    /\ forall h, In h firsts ->
         firstOfKey [Desk.apollo 1 "Andheri"; Desk.pune; Desk.apollo 2 "Bandra"]
                    h.
Proof.
  destruct (hybridSearch_distinct_keys
              (Scenario.answering
                 [Desk.apollo 1 "Andheri"; Desk.pune; Desk.apollo 2 "Bandra"])
              COLLECTION tt 5 None Scenario.start
              [Desk.apollo 1 "Andheri"; Desk.pune; Desk.apollo 2 "Bandra"] tt
              eq_refl)
    as (out & firsts & Hrun & _ & _ & _ & _ & Hfirst & _ & Hout).
  exists out, firsts. split; [exact Hrun|]. split; [exact Hout | exact Hfirst].
Defined.

(** ** Intent classification *)

Section IntentFacts.
Import Intent.

Lemma lookupField_setField (name : string) (v : Json)
    (fields : list (string * Json)) :
  lookupField name (setField name v fields) = Some v.
Proof.
  induction fields as [|[k old] fields IH]; simpl.
  - now rewrite String.eqb_refl.
  - destruct (String.eqb k name) eqn:E; simpl; now rewrite E.
Qed.

Lemma lookupField_setField_other (name k : string) (v : Json)
    (fields : list (string * Json)) :
  k <> name ->
  lookupField k (setField name v fields) = lookupField k fields.
Proof.
  intros Hk. induction fields as [|[k' old] fields IH]; simpl.
  - destruct (String.eqb_spec name k); [congruence | reflexivity].
  - destruct (String.eqb_spec k' name) as [->|Hne]; simpl.
    + destruct (String.eqb_spec name k); [congruence | reflexivity].
    + now rewrite IH.
Qed.

Lemma setField_same (name : string) (v : Json)
    (fields : list (string * Json)) :
  lookupField name fields = Some v -> setField name v fields = fields.
Proof.
  induction fields as [|[k old] fields IH]; simpl; [discriminate|].
  destruct (String.eqb k name); intros H.
  - now injection H as ->.
  - now rewrite IH.
Qed.

Lemma setField_twice (name : string) (v : Json)
    (fields : list (string * Json)) :
  setField name v (setField name v fields) = setField name v fields.
Proof. apply setField_same, lookupField_setField. Qed.

Lemma canonicalCity_names (city name : string) :
  canonicalCity city = Some name ->
  (name = "Bengaluru" \/ name = "Mumbai" \/ name = "Delhi")
  /\ canonicalCity name = Some name.
Proof.
  unfold canonicalCity.
  destruct (_ || _); [intros [= <-]; split; [auto | reflexivity]|].
  destruct (_ || _); [intros [= <-]; split; [auto | reflexivity]|].
  destruct (includes _ _); [intros [= <-]; split; [auto | reflexivity]|].
  discriminate.
Qed.



(** The spelling the post-processing puts in place of a city is one that
    [filterByCity] matches against every spelling the city is stored
    under: with 'Bengaluru' a candidate stored as bengaluru, bangalore or
    banglore is retained, with 'Mumbai' one stored as mumbai or bombay,
    with 'Delhi' one stored as delhi or new delhi, in any letter case. *)
Theorem canonicalCity_reaches_every_spelling (city name : string) :
  canonicalCity city = Some name ->
  exists stored,
    In (name, stored) spellings
    /\ forall payload,
         In (toLowerCase (orEmpty (field payload_city payload))) stored ->
         cityKeeps (toLowerCase name) payload = Ok true.
Proof.
  intros Hc.
  assert (Hkeeps : forall stored payload,
            In (name, stored) spellings ->
            In (toLowerCase (orEmpty (field payload_city payload))) stored ->
            cityKeeps (toLowerCase name) payload = Ok true).
  { intros stored payload Hname Hin. unfold cityKeeps.
    set (addr := toLowerCase (orEmpty (field payload_address payload))).
    clearbody addr. simpl in Hname.
    repeat (destruct Hname as [Hname|Hname];
            [inversion Hname; subst name stored; clear Hname|]);
      try contradiction; simpl in Hin;
      repeat (destruct Hin as [Hin|Hin]; [rewrite <- Hin; clear Hin|]);
      try contradiction;
      match goal with
      | |- context [toLowerCase (String ?c ?r)] =>
          let v := eval vm_compute in (toLowerCase (String c r)) in
          change (toLowerCase (String c r)) with v
      end;
      cbn; repeat (match goal with
                   | |- context [includes addr ?t] => destruct (includes addr t)
                   end; cbn); reflexivity. }
  destruct (canonicalCity_names _ _ Hc) as [[->|[->| ->]] _].
  - exists ["bengaluru"; "bangalore"; "banglore"].
    split; [now left|]. intros payload. apply Hkeeps. now left.
  - exists ["mumbai"; "bombay"].
    split; [right; now left|]. intros payload. apply Hkeeps. right. now left.
  - exists ["delhi"; "new delhi"].
    split; [right; right; now left|]. intros payload. apply Hkeeps.
    right. right. now left.
Qed.

Lemma canonicalCity_reaches_every_spelling_witness :
  exists stored,
    In ("Bengaluru", stored) spellings
    /\ forall payload,
         In (toLowerCase (orEmpty (field payload_city payload))) stored ->
         cityKeeps (toLowerCase "Bengaluru") payload = Ok true.
Proof.
  apply (canonicalCity_reaches_every_spelling "bangalore urban" "Bengaluru").
  reflexivity.
Defined.

Lemma postProcess_ok (parsed intent : Json) :
  postProcess parsed = Ok intent -> intent <> JNull /\ cityIsText intent.
Proof.
  unfold postProcess. destruct parsed as [|b|q|s|items|fields];
    try (intros [= <-]; split; [discriminate | exact I]); [discriminate|].
  destruct (truthyJ (lookupField "city" fields)) eqn:Ht.
  - destruct (lookupField "city" fields) as [[|b|q|city|items|fs]|] eqn:Hc;
      try discriminate.
    destruct (canonicalCity city) as [name|]; intros [= <-];
      (split; [discriminate|]); simpl; intros _.
    + exists name. apply lookupField_setField.
    + eauto.
  - intros [= <-]. split; [discriminate|]. simpl. congruence.
Qed.

Lemma outOfScope_ok : outOfScope <> JNull /\ cityIsText outOfScope.
Proof. split; [discriminate|]. simpl. discriminate. Qed.

Context {W : Type} (ai : Gemini W).

Lemma parseIntentStructured_text (userText : string) (st : State W)
    (j : Json) (w : W) (outText : string) :
  generate ai userText (world st) = (Ok j, w) ->
  candidateText j = Some (JString outText) ->
  isEmpty outText = false ->
  parseIntentStructured ai userText st
  = match parse ai (cleaned outText) with
    | Ok parsed =>
        match postProcess parsed with
        | Ok intent => (Ok intent, {| world := w; console := console st |})
        | Throw _ =>
            (Ok outOfScope,
             logged {| world := w; console := console st |} WarnLevel
               ("Failed to parse JSON from model: " ++ cleaned outText))
        end
    | Throw _ =>
        (Ok outOfScope,
         logged {| world := w; console := console st |} WarnLevel
           ("Failed to parse JSON from model: " ++ cleaned outText))
    end.
Proof.
  intros Hgen Htext Hne. unfold parseIntentStructured.
  rewrite bind_run. unfold lift. rewrite Hgen. cbv beta iota.
  rewrite Htext. simpl truthyJ. rewrite Hne. simpl negb. cbv iota.
  rewrite bind_run. unfold ret at 1. cbv beta iota.
  fold (cleaned outText). unfold tryCatch. rewrite bind_run.
  unfold fromRes at 1.
  destruct (parse ai (cleaned outText)) as [parsed|e]; cbv beta iota.
  - unfold fromRes. destruct (postProcess parsed) as [intent|e];
      [reflexivity|]. now rewrite bind_run.
  - now rewrite bind_run.
Qed.

(** Once the model has replied with a non-empty text,
    [parseIntentStructured] returns an intent and never throws: the parsed
    and post-processed JSON value, or 'out_of_scope' (with a warning) when
    the text does not parse or the post-processing fails.  The intent is
    never [null], and its city, when set at all, is a string. *)
Theorem parseIntentStructured_answers (userText : string) (st : State W)
    (j : Json) (w : W) (outText : string) :
  generate ai userText (world st) = (Ok j, w) ->
  candidateText j = Some (JString outText) ->
  isEmpty outText = false ->
  exists intent st',
    parseIntentStructured ai userText st = (Ok intent, st')
    /\ world st' = w
    /\ intent <> JNull
    /\ cityIsText intent
    /\ ((exists parsed,
           parse ai (cleaned outText) = Ok parsed
           /\ postProcess parsed = Ok intent
           /\ console st' = console st)
        \/ (intent = outOfScope
            /\ console st'
               = (console st
                  ++ [{| level := WarnLevel;
                         text := "Failed to parse JSON from model: "
                                 ++ cleaned outText |}])%list
            /\ forall parsed,
                 parse ai (cleaned outText) = Ok parsed ->
                 exists e, postProcess parsed = Throw e)).
Proof.
  intros Hgen Htext Hne.
  rewrite (parseIntentStructured_text _ _ _ _ _ Hgen Htext Hne).
  destruct (parse ai (cleaned outText)) as [parsed|e] eqn:Hp.
  - destruct (postProcess parsed) as [intent|e] eqn:Hq.
    + destruct (postProcess_ok _ _ Hq) as [Hnull Hcity].
      eexists _, _. split; [reflexivity|]. split; [reflexivity|].
      split; [exact Hnull|]. split; [exact Hcity|]. left. eauto.
    + destruct outOfScope_ok as [Hnull Hcity].
      eexists _, _. split; [reflexivity|]. split; [reflexivity|].
      split; [exact Hnull|]. split; [exact Hcity|]. right.
      split; [reflexivity|]. split; [reflexivity|].
      intros parsed' [= <-]. eauto.
  - destruct outOfScope_ok as [Hnull Hcity].
    eexists _, _. split; [reflexivity|]. split; [reflexivity|].
    split; [exact Hnull|]. split; [exact Hcity|]. right.
    split; [reflexivity|]. split; [reflexivity|]. intros parsed' [=].
Qed.

Lemma parseIntentStructured_ok (userText : string) (st st' : State W)
    (intent : Json) :
  parseIntentStructured ai userText st = (Ok intent, st') ->
  intent <> JNull /\ cityIsText intent.
Proof.
  unfold parseIntentStructured. rewrite bind_run. unfold lift.
  destruct (generate ai userText (world st)) as [[j|e] w]; [|discriminate].
  cbv beta iota. rewrite bind_run.
  destruct (truthyJ (candidateText j)); cbn [negb]; cbv beta iota;
    [|discriminate].
  destruct (candidateText j) as [[|b|q|outText|items|fields]|];
    try discriminate.
  unfold ret at 1. cbv beta iota. unfold tryCatch. rewrite bind_run.
  unfold fromRes at 1.
  destruct (parse ai _) as [parsed|e]; cbv beta iota.
  - unfold fromRes. destruct (postProcess parsed) as [intent'|e] eqn:Hq.
    + intros [= <- _]. now apply (postProcess_ok parsed).
    + rewrite bind_run. intros [= <- _]. apply outOfScope_ok.
  - rewrite bind_run. intros [= <- _]. apply outOfScope_ok.
Qed.

(** [parseIntentFromAudio] never throws: whatever the speech model and
    the language model do, it returns an intent that is not [null] and
    whose city, when set at all, is a string; when the transcription fails
    or is blank the intent is 'out_of_scope' and the reason is printed. *)
Theorem parseIntentFromAudio_never_throws (audioBase64 : string)
    (st : State W) :
  exists intent st',
    parseIntentFromAudio ai audioBase64 st = (Ok intent, st')
    /\ intent <> JNull
    /\ cityIsText intent
    /\ match speechToText ai audioBase64 st with
       | (Throw e, st1) =>
           intent = outOfScope
           /\ st' = logged st1 ErrorLevel
                      ("Audio intent parsing error: " ++ message e)
       | (Ok transcription, st1) =>
           trim transcription = transcription
           /\ (isEmpty transcription = true ->
               intent = outOfScope
               /\ st' = logged st1 WarnLevel
                          "No transcription returned, treating as out_of_scope")
       end.
Proof.
  unfold parseIntentFromAudio, tryCatch. rewrite bind_run.
  destruct (speechToText ai audioBase64 st) as [[transcription|e] st1] eqn:Hs.
  - assert (Htrim : trim transcription = transcription).
    { revert Hs. unfold speechToText. rewrite bind_run.
      destruct (transcribe ai audioBase64 (world st)) as [[e|n txt|[r|e]] w];
        try discriminate.
      cbv beta iota. destruct (truthyJ (candidateText r)); simpl negb;
        cbv iota; [|discriminate].
      destruct (candidateText r) as [[|b|q|t|items|fields]|]; try discriminate.
      intros [= <- _]. apply trim_idem. }
    destruct (isEmpty transcription) eqn:He.
    + rewrite bind_run. destruct outOfScope_ok as [Hnull Hcity].
      eexists _, _. split; [reflexivity|]. split; [exact Hnull|].
      split; [exact Hcity|]. split; [exact Htrim|]. intros _. now split.
    + destruct (parseIntentStructured ai transcription st1)
        as [[intent|e] st2] eqn:Hp.
      * destruct (parseIntentStructured_ok _ _ _ _ Hp) as [Hnull Hcity].
        eexists _, _. split; [reflexivity|]. split; [exact Hnull|].
        split; [exact Hcity|]. split; [exact Htrim|]. discriminate.
      * rewrite bind_run. destruct outOfScope_ok as [Hnull Hcity].
        eexists _, _. split; [reflexivity|]. split; [exact Hnull|].
        split; [exact Hcity|]. split; [exact Htrim|]. discriminate.
  - rewrite bind_run. destruct outOfScope_ok as [Hnull Hcity].
    eexists _, _. split; [reflexivity|]. split; [exact Hnull|].
    split; [exact Hcity|]. now split.
Qed.

End IntentFacts.

Lemma parseIntentStructured_answers_witness :
  exists intent st',
    Intent.parseIntentStructured
      (Intent.scripted (Intent.JString "```json {} ```") "{}"
                       (Intent.JObject [("city", Intent.JNumber 5)]))
      "hello" Scenario.start
    = (Ok intent, st')
    /\ world st' = tt
    /\ intent <> Intent.JNull
    /\ Intent.cityIsText intent
    /\ ((exists parsed,
           Intent.parse
             (Intent.scripted (Intent.JString "```json {} ```") "{}"
                              (Intent.JObject [("city", Intent.JNumber 5)]))
             (Intent.cleaned "```json {} ```") = Ok parsed
           /\ Intent.postProcess parsed = Ok intent
           /\ console st' = console Scenario.start)
        \/ (intent = Intent.outOfScope
            /\ console st'
               = (console Scenario.start
                  ++ [{| level := WarnLevel;
                         text := "Failed to parse JSON from model: "
                                 ++ Intent.cleaned "```json {} ```" |}])%list
            /\ forall parsed,
                 Intent.parse
                   (Intent.scripted (Intent.JString "```json {} ```") "{}"
                                    (Intent.JObject [("city", Intent.JNumber 5)]))
                   (Intent.cleaned "```json {} ```") = Ok parsed ->
                 exists e, Intent.postProcess parsed = Throw e)).
Proof.
  apply (parseIntentStructured_answers
           (Intent.scripted (Intent.JString "```json {} ```") "{}"
                            (Intent.JObject [("city", Intent.JNumber 5)]))
           "hello" Scenario.start
           (Intent.saying (Intent.JString "```json {} ```")) tt
           "```json {} ```"); reflexivity.
Defined.

(** ** The chat route *)

Section ChatFacts.
Import Chat.

Lemma filter_below_head {A : Type} (f : A -> Q) (bound : Q) (x : A)
    (rest : list A) :
  StronglySorted (notBelow f) (x :: rest) ->
  Qle_bool bound (f x) = false ->
  List.filter (fun m => Qle_bool bound (f m)) (x :: rest) = [].
Proof.
  intros Hs Hx. apply StronglySorted_inv in Hs as [_ Hall].
  simpl. rewrite Hx. apply filter_nil_iff. intros y Hy.
  rewrite List.Forall_forall in Hall. specialize (Hall y Hy).
  unfold notBelow in Hall.
  destruct (Qle_bool bound (f y)) eqn:E; [|reflexivity].
  apply Qle_bool_iff in E.
  assert (Hb : Qle_bool bound (f x) = true) by (apply Qle_bool_iff; lra).
  congruence.
Qed.

(** the first of the matches is the best of the candidates *)
Lemma topMatches_head (hospitalName mainName : string)
    (locationTerms : list string) (cityFiltered : list Candidate) :
  match topMatches hospitalName mainName locationTerms cityFiltered with
  | [] =>
      forall c, In c cityFiltered ->
        (scoreOf hospitalName mainName locationTerms c < 25 # 100)%Q
  | best :: _ =>
      (25 # 100 <= totalSimilarity best)%Q
      /\ (exists c, In c cityFiltered
                    /\ best = scoreCandidate hospitalName mainName
                                             locationTerms c)
      /\ forall c, In c cityFiltered ->
           (scoreOf hospitalName mainName locationTerms c
            <= totalSimilarity best)%Q
  end.
Proof.
  unfold topMatches, scoreOf.
  set (scored := map (scoreCandidate hospitalName mainName locationTerms)
                     cityFiltered).
  change (fun a b => (totalSimilarity b - totalSimilarity a)%Q)
    with (descending totalSimilarity).
  pose proof (sort_sorted totalSimilarity scored) as Hsorted.
  assert (Hin : forall c, In c cityFiltered ->
            In (scoreCandidate hospitalName mainName locationTerms c)
               (sort (descending totalSimilarity) scored)).
  { intros c Hc. apply sort_In. unfold scored. now apply List.in_map. }
  assert (Hback : forall m, In m (sort (descending totalSimilarity) scored) ->
            exists c, In c cityFiltered
                      /\ m = scoreCandidate hospitalName mainName
                                            locationTerms c).
  { intros m Hm. apply sort_In in Hm. unfold scored in Hm.
    apply List.in_map_iff in Hm as (c & <- & Hc). eauto. }
  destruct (sort (descending totalSimilarity) scored) as [|x rest].
  - simpl. intros c Hc. destruct (Hin c Hc).
  - destruct (Qle_bool (25 # 100) (totalSimilarity x)) eqn:Hx.
    + cbn [List.filter]. rewrite Hx. cbn [take].
      apply Qle_bool_iff in Hx. split; [exact Hx|].
      split; [apply Hback; now left|].
      intros c Hc. destruct (Hin c Hc) as [<-|Hr]; [lra|].
      apply StronglySorted_inv in Hsorted as [_ Hall].
      rewrite List.Forall_forall in Hall. exact (Hall _ Hr).
    + rewrite (filter_below_head totalSimilarity (25 # 100) x rest Hsorted Hx).
      cbn [take]. intros c Hc.
      assert (Hle : (totalSimilarity
                       (scoreCandidate hospitalName mainName locationTerms c)
                     <= totalSimilarity x)%Q).
      { destruct (Hin c Hc) as [<-|Hr]; [lra|].
        apply StronglySorted_inv in Hsorted as [_ Hall].
        rewrite List.Forall_forall in Hall. exact (Hall _ Hr). }
      destruct (Qlt_le_dec (totalSimilarity x) (25 # 100)) as [Hlt|Hge];
        [lra|].
      apply Qle_bool_iff in Hge. congruence.
Qed.

(** the one candidate that beats every other by [margin] heads the
    matches as soon as it reaches the threshold *)
Lemma topMatches_clear_best (hospitalName mainName : string)
    (locationTerms : list string) (cityFiltered : list Candidate)
    (best : Candidate) :
  In best cityFiltered ->
  (forall c, In c cityFiltered ->
     c = best
     \/ (scoreOf hospitalName mainName locationTerms c + margin
         <= scoreOf hospitalName mainName locationTerms best)%Q) ->
  (25 # 100 <= scoreOf hospitalName mainName locationTerms best)%Q ->
  exists rest,
    topMatches hospitalName mainName locationTerms cityFiltered
    = scoreCandidate hospitalName mainName locationTerms best :: rest.
Proof.
  intros Hin Hclear Hgood.
  pose proof (topMatches_head hospitalName mainName locationTerms cityFiltered)
    as Hhead.
  destruct (topMatches hospitalName mainName locationTerms cityFiltered)
    as [|first rest].
  - specialize (Hhead best Hin). lra.
  - destruct Hhead as (_ & (c & Hc & ->) & Hbest).
    exists rest. f_equal.
    destruct (Hclear c Hc) as [->|Hlow]; [reflexivity|].
    specialize (Hbest best Hin). fold (scoreOf hospitalName mainName
      locationTerms c) in Hbest.
    unfold margin in Hlow. lra.
Qed.


End ChatFacts.


Section ChatRuns.
Import Chat.
Context {W Vec : Type} (be : Backend W Vec).

Lemma quiet_within {A : Type} (m : M W A) : quiet (within m).
Proof.
  intros st. unfold within. destruct (m _) as [r st'].
  eexists _, _. split; reflexivity.
Qed.

Lemma quiet_textToSpeech (text : string) : quiet (textToSpeech be text).
Proof.
  intros st. unfold textToSpeech.
  destruct (voice be text _) as [[e|n t|[a|e]] w];
    eexists _, _; split; reflexivity.
Qed.

Lemma quiet_notifyHuman (reqText : string) : quiet (notifyHuman be reqText).
Proof.
  unfold notifyHuman. cbv zeta. destruct (_ || _).
  - intros st. eexists _, _. split; reflexivity.
  - apply quiet_within.
Qed.

Lemma quiet_fromRes {A : Type} (r : Res A) : quiet (W := W) (fromRes r).
Proof. intros st. eexists _, _. split; reflexivity. Qed.

Lemma settles_bind {A : Type} (sid : string) (m : M (Server W) A)
    (k : A -> M (Server W) Response) :
  quiet m -> (forall a, settles sid (k a)) -> settles sid (bind m k).
Proof.
  intros Hm Hk st. rewrite bind_run.
  destruct (Hm st) as (r & st1 & E & Hs). rewrite E.
  destruct r as [a|e].
  - destruct (Hk a st1) as [(reply & audio & items & st' & E' & Hs')
                           |(e & st' & E' & Hs')].
    + left. exists reply, audio, items, st'. split; [exact E'|].
      rewrite Hs'. unfold sessionOf. now rewrite Hs.
    + right. exists e, st'. split; [exact E'|]. now rewrite Hs'.
  - right. eauto.
Qed.

Lemma settles_answer (sid reply : string) (items : Items) :
  settles sid (answer be sid reply items).
Proof.
  intros st. unfold answer. rewrite bind_run.
  destruct (quiet_textToSpeech reply st) as (r & st1 & E & Hs). rewrite E.
  destruct r as [audio|e]; [|right; eauto].
  left. exists reply, audio, items. eexists. split; [reflexivity|].
  simpl. unfold sessionOf. now rewrite Hs.
Qed.

(** everything the handler does once the user's turn is recorded *)
Lemma settles_respond (sid text : string) :
  settles sid
    (intent <- within (lift (classifier be text)) ;;
     if isAction (action intent) "out_of_scope" then
       notifyHuman be text ;;;
       answer be sid
         "I'm sorry, I can't help with that. Forwarding to a human agent."
         NoItems
     else if isAction (action intent) "confirm" then
       let hospitalName := orEmpty (hospital_name intent) in
       let city := orEmpty (city intent) in
       if isEmpty hospitalName then
         answer be sid "Which hospital would you like me to check?" NoItems
       else
         matches <-
           within (confirmHospital (collaborators be) (JsString hospitalName)
                                   (Some city)) ;;
         reply <- fromRes (confirmReply hospitalName city matches) ;;
         answer be sid reply (Matches matches)
     else if isAction (action intent) "search" then
       let city :=
         match city intent with
         | Some c => if isEmpty (trim c) then None else Some (trim c)
         | None => None
         end in
       let limit :=
         match limit intent with
         | Some (S n) => S n
         | _ => 3%nat
         end in
       items <- within (searchHospitals (collaborators be) city limit) ;;
       answer be sid (searchSummary city items) (Hospitals items)
     else
       answer be sid "Sorry, I couldn't process that request." NoItems).
Proof.
  apply settles_bind; [apply quiet_within|]. intros intent.
  destruct (isAction (action intent) "out_of_scope").
  { apply settles_bind; [apply quiet_notifyHuman|]. intros _.
    apply settles_answer. }
  destruct (isAction (action intent) "confirm").
  { cbv zeta. destruct (isEmpty _); [apply settles_answer|].
    apply settles_bind; [apply quiet_within|]. intros matches.
    apply settles_bind; [apply quiet_fromRes|]. intros reply.
    apply settles_answer. }
  destruct (isAction (action intent) "search").
  { cbv zeta. apply settles_bind; [apply quiet_within|]. intros items.
    apply settles_answer. }
  apply settles_answer.
Qed.

Lemma openSession_run (sid : string) (st : State (Server W)) :
  exists st',
    openSession sid st = (Ok (sessionOf sid (world st)), st')
    /\ sessions (world st')
       = <[sid := sessionOf sid (world st)]> (sessions (world st))
    /\ sessionOf sid (world st') = sessionOf sid (world st).
Proof.
  unfold openSession, sessionOf.
  destruct (sessions (world st) !! sid) as [session|] eqn:E.
  - exists st. simpl. split; [reflexivity|]. split.
    + symmetry. now apply insert_id.
    + now rewrite E.
  - eexists. split; [reflexivity|]. simpl. split; [reflexivity|].
    now rewrite lookup_insert_eq.
Qed.

Lemma insert_after (sid : string) (a b : list Turn)
    (s : gmap string (list Turn)) :
  <[sid := b]> (<[sid := a]> s) = <[sid := b]> s.
Proof. apply insert_insert_eq. Qed.

Lemma push_run (sid : string) (turn : Turn) (st : State (Server W)) :
  push sid turn st
  = (Ok tt,
     {| world := {| outer := outer (world st);
                    sessions :=
                      <[sid := (sessionOf sid (world st) ++ [turn])%list]>
                        (sessions (world st)) |};
        console := console st |}).
Proof. reflexivity. Qed.

(** what a request with a session and a text does to the sessions, and
    what it answers *)
Lemma chat_run (req : Request) (st : State (Server W)) :
  truthy (sessionId req) = true -> truthy (req_text req) = true ->
  let sid := orEmpty (sessionId req) in
  let before := sessionOf sid (world st) in
  let greeting :=
    if (List.length before =? 0)%nat
    then [{| role := assistant; turn_text := intro |}] else [] in
  let asked := {| role := user; turn_text := orEmpty (req_text req) |} in
  (exists reply audioBase64 items st',
     chat be req st = (Ok (Json200 reply audioBase64 "audio/wav" items), st')
     /\ sessions (world st')
        = <[sid := (before ++ greeting
                    ++ [asked; {| role := assistant; turn_text := reply |}])%list]>
            (sessions (world st)))
  \/ (exists e st0,
        chat be req st
        = (Ok (Status500 e),
           logged st0 ErrorLevel ("chat error " ++ message e))
        /\ (sessions (world st0)
            = <[sid := (before ++ greeting ++ [asked])%list]>
                (sessions (world st))
            \/ (before = []
                /\ sessions (world st0)
                   = <[sid := []]> (sessions (world st))))).
Proof.
  intros Hsid Htext. cbv zeta. unfold chat, tryCatch.
  rewrite Hsid, Htext. cbn [negb orb]. cbv zeta.
  set (sid := orEmpty (sessionId req)).
  set (text := orEmpty (req_text req)).
  pose proof (settles_respond sid text) as Htail. cbv zeta in Htail.
  rewrite bind_run.
  destruct (openSession_run sid st) as (st1 & E1 & Hs1 & Hcur1). rewrite E1.
  cbv beta iota. rewrite bind_run.
  destruct (List.length (sessionOf sid (world st)) =? 0)%nat eqn:Hlen.
  - assert (Hb : sessionOf sid (world st) = [])
      by (destruct (sessionOf sid (world st)); [reflexivity|discriminate]).
    rewrite bind_run.
    destruct (quiet_textToSpeech intro st1) as (r & st2 & E2 & Hs2).
    rewrite E2. destruct r as [audio|e]; cbv beta iota.
    + rewrite push_run. cbv beta iota. rewrite bind_run, push_run.
      cbv beta iota.
      match goal with
      | |- context [bind (within (lift (classifier be text))) ?k ?s] =>
          destruct (Htail s) as [(reply & a & items & st' & E & Hs)
                                |(e & st' & E & Hs)];
          rewrite E
      end.
      * left. exists reply, a, items, st'. split; [reflexivity|].
        rewrite Hs. unfold sessionOf in *.
        repeat first [ rewrite lookup_insert_eq | rewrite insert_insert_eq
                     | progress cbn [world sessions outer console default
                                     from_option id] ].
        rewrite Hs2, Hs1.
        repeat first [ rewrite lookup_insert_eq | rewrite insert_insert_eq
                     | progress cbn [world sessions outer console default
                                     from_option id] ].
        rewrite Hb. reflexivity.
      * right. exists e, st'. rewrite bind_run. split; [reflexivity|].
        left. rewrite Hs. unfold sessionOf in *.
        repeat first [ rewrite lookup_insert_eq | rewrite insert_insert_eq
                     | progress cbn [world sessions outer console default
                                     from_option id] ].
        rewrite Hs2, Hs1.
        repeat first [ rewrite lookup_insert_eq | rewrite insert_insert_eq
                     | progress cbn [world sessions outer console default
                                     from_option id] ].
        rewrite Hb. reflexivity.
    + right. exists e, st2. rewrite bind_run. split; [reflexivity|].
      right. split; [exact Hb|]. rewrite Hs2, Hs1. now rewrite Hb.
  - change (ret tt st1) with (Ok tt, st1). cbv beta iota.
    rewrite bind_run, push_run. cbv beta iota.
    match goal with
    | |- context [bind (within (lift (classifier be text))) ?k ?s] =>
        destruct (Htail s) as [(reply & a & items & st' & E & Hs)
                              |(e & st' & E & Hs)];
        rewrite E
    end.
    * left. exists reply, a, items, st'. split; [reflexivity|].
      rewrite Hs. unfold sessionOf in *.
      repeat first [ rewrite lookup_insert_eq | rewrite insert_insert_eq
                   | progress cbn [world sessions outer console default
                                   from_option id] ].
      rewrite Hs1.
      repeat first [ rewrite lookup_insert_eq | rewrite insert_insert_eq
                   | progress cbn [world sessions outer console default
                                   from_option id] ].
      now rewrite <- !List.app_assoc.
    * right. exists e, st'. rewrite bind_run. split; [reflexivity|].
      left. rewrite Hs. unfold sessionOf in *.
      repeat first [ rewrite lookup_insert_eq | rewrite insert_insert_eq
                   | progress cbn [world sessions outer console default
                                   from_option id] ].
      rewrite Hs1.
      repeat first [ rewrite lookup_insert_eq | rewrite insert_insert_eq
                   | progress cbn [world sessions outer console default
                                   from_option id] ].
      reflexivity.
Qed.

(** The handler answers every request and never throws.  A request
    without a session identifier or without a text gets status 400 and
    touches nothing: no service is called, no session is opened.  Every
    other request gets a reply with audio, or status 500 after the error
    has been printed. *)
Theorem chat_always_answers (req : Request) (st : State (Server W)) :
  exists resp st',
    chat be req st = (Ok resp, st')
    /\ (truthy (sessionId req) && truthy (req_text req) = false ->
        resp = Status400 "sessionId and text required" /\ st' = st)
    /\ (truthy (sessionId req) && truthy (req_text req) = true ->
        (exists reply audioBase64 items,
           resp = Json200 reply audioBase64 "audio/wav" items)
        \/ (exists e st0,
              resp = Status500 e
              /\ st' = logged st0 ErrorLevel ("chat error " ++ message e))).
Proof.
  destruct (truthy (sessionId req)) eqn:Hsid;
    [destruct (truthy (req_text req)) eqn:Htext|].
  - destruct (chat_run req st Hsid Htext)
      as [(reply & a & items & st' & E & _)|(e & st0 & E & _)].
    + exists (Json200 reply a "audio/wav" items), st'.
      split; [exact E|]. split; [discriminate|]. intros _. left. eauto.
    + eexists _, _. split; [exact E|]. split; [discriminate|].
      intros _. right. eauto.
  - exists (Status400 "sessionId and text required"), st.
    split; [|split; [auto | discriminate]].
    unfold chat, tryCatch. now rewrite Hsid, Htext.
  - exists (Status400 "sessionId and text required"), st.
    split; [|split; [auto | discriminate]].
    unfold chat, tryCatch. now rewrite Hsid.
Qed.


End ChatRuns.


(** ** The keys already stored *)

Section ScrollFacts.
Import Scroll.

Lemma addKeys_union (points : list Scrolled) :
  forall keys : gset string,
    addKeys points keys = keys ∪ keysOf [points].
Proof.
  unfold addKeys, keysOf. simpl concat. rewrite List.app_nil_r.
  induction points as [|p points IH]; intros keys.
  - simpl. now rewrite union_empty_r_L.
  - cbn [fold_left omap list_omap]. rewrite IH.
    destruct (scrolled_key p) as [k|]; simpl truthy; [|reflexivity].
    destruct (isEmpty k); simpl negb; cbv iota; [reflexivity|].
    cbn [orEmpty list_to_set]. 
    rewrite (union_comm_L {[k]} keys), <- union_assoc_L. reflexivity.
Qed.

Lemma keysOf_cons (page : list Scrolled) (pages : list (list Scrolled)) :
  keysOf (page :: pages) = keysOf [page] ∪ keysOf pages.
Proof.
  unfold keysOf. simpl concat. rewrite List.app_nil_r.
  now rewrite omap_app, list_to_set_app_L.
Qed.

Lemma keysOf_truthy (pages : list (list Scrolled)) :
  EmptyString ∉ keysOf pages.
Proof.
  unfold keysOf. rewrite elem_of_list_to_set, list_elem_of_omap.
  intros (p & _ & Hp). destruct (scrolled_key p) as [k|]; simpl in Hp;
    [|discriminate].
  destruct (isEmpty k) eqn:E; simpl in Hp; [discriminate|].
  injection Hp as ->. discriminate E.
Qed.

Context {W : Type}
        (scroll : string -> option Offset -> W -> ScrollOutcome * W).

Lemma scrollLoop_serves (collectionName : string) (offset : option Offset)
    (w w' : W) (pages : list (list Scrolled)) :
  Serves scroll collectionName offset w pages w' ->
  offset = None \/ truthyOffset offset = true ->
  forall (fuel : nat) (keys : gset string) (lines : list LogEntry),
    (List.length pages < fuel)%nat ->
    exists lines',
      scrollLoop scroll fuel collectionName keys offset
                 {| world := w; console := lines |}
      = (Ok (Some (keys ∪ keysOf pages)),
         {| world := w'; console := lines' |}).
Proof.
  intros Hserves.
  induction Hserves as [offset w w' txt Hs Htxt
                       |offset w w' result Hs Hnone
                       |offset w w' result p ps Hs Hpoints Hlast
                       |offset w w1 w' result p ps pages Hs Hpoints Hnext Hrest IH];
    intros Hoff fuel keys lines Hfuel;
    (destruct fuel as [|fuel]; [simpl in Hfuel; lia|]);
    cbn [scrollLoop world console];
    assert (Hsame : (if truthyOffset offset then offset else None) = offset)
      by (destruct Hoff as [-> | ->]; reflexivity);
    rewrite Hsame, Hs.
  - rewrite Htxt. exists lines. unfold keysOf. simpl.
    now rewrite union_empty_r_L.
  - rewrite Hnone. simpl. exists lines. unfold keysOf. simpl.
    now rewrite union_empty_r_L.
  - rewrite Hpoints. simpl default. cbn [List.length Nat.eqb].
    rewrite Hlast. simpl negb. cbv iota. exists lines.
    now rewrite addKeys_union.
  - rewrite Hpoints. simpl default. cbn [List.length Nat.eqb].
    rewrite Hnext. simpl negb. cbv iota. rewrite bind_run.
    unfold print at 1. cbn [world console].
    cbv beta iota.
    match goal with
    | |- context [scrollLoop scroll fuel collectionName ?k _
                    {| world := w1; console := ?l |}] =>
        destruct (IH (or_intror Hnext) fuel k l) as (lines' & E);
          [simpl in Hfuel; lia|]
    end.
    rewrite E. exists lines'.
    rewrite addKeys_union, (keysOf_cons (p :: ps) pages).
    now rewrite union_assoc_L.
Qed.

(** [getAllExistingKeys] collects what the index serves: when the index
    serves some pages and then ends the scroll (with a page without
    points, a page without a next offset, or a 'Not found'), the function
    returns, after one request per page and one more unless the last page
    had no next offset, exactly the truthy [unique_key]s of the points of
    those pages; the empty string is never among them. *)
Theorem getAllExistingKeys_pages (collectionName : string) (st : State W)
    (pages : list (list Scrolled)) (w' : W) (fuel : nat) :
  Serves scroll collectionName None (world st) pages w' ->
  (List.length pages < fuel)%nat ->
  exists st',
    getAllExistingKeys scroll fuel collectionName st
    = (Ok (Some (keysOf pages)), st')
    /\ world st' = w'
    /\ EmptyString ∉ keysOf pages.
Proof.
  intros Hserves Hfuel. unfold getAllExistingKeys, tryCatch.
  destruct st as [w lines]. simpl in Hserves.
  destruct (scrollLoop_serves collectionName None w w' pages Hserves
              (or_introl eq_refl) fuel ∅ lines Hfuel) as (lines' & E).
  rewrite E. rewrite union_empty_l_L.
  eexists. split; [reflexivity|]. split; [reflexivity|].
  apply keysOf_truthy.
Qed.

End ScrollFacts.

Lemma getAllExistingKeys_pages_witness :
  exists st',
    Scroll.getAllExistingKeys Scroll.twoPages 3 COLLECTION
      {| world := 0%nat; console := [] |}
    = (Ok (Some (Scroll.keysOf
                   [ [ {| Scroll.scrolled_key := Some "a|x|1" |};
                       {| Scroll.scrolled_key := None |} ];
                     [ {| Scroll.scrolled_key := Some "b|y|2" |} ] ])), st')
    /\ world st' = 2%nat
    /\ EmptyString ∉ Scroll.keysOf
                       [ [ {| Scroll.scrolled_key := Some "a|x|1" |};
                           {| Scroll.scrolled_key := None |} ];
                         [ {| Scroll.scrolled_key := Some "b|y|2" |} ] ].
Proof.
  apply (getAllExistingKeys_pages Scroll.twoPages COLLECTION
           {| world := 0%nat; console := [] |}
           [ [ {| Scroll.scrolled_key := Some "a|x|1" |};
               {| Scroll.scrolled_key := None |} ];
             [ {| Scroll.scrolled_key := Some "b|y|2" |} ] ] 2%nat 3%nat).
  - eapply Scroll.serves_more; [reflexivity | reflexivity | reflexivity |].
    eapply Scroll.serves_last; reflexivity.
  - simpl. lia.
Defined.

(** ** Search path, ranked *)

Lemma filter_true {A : Type} (f : A -> bool) (l : list A) :
  Forall (fun x => f x = true) l -> List.filter f l = l.
Proof.
  induction 1 as [|x l Hx Hl IH]; simpl; [reflexivity|].
  now rewrite Hx, IH.
Qed.

Lemma filter_false {A : Type} (f : A -> bool) (l : list A) :
  Forall (fun x => f x = false) l -> List.filter f l = [].
Proof.
  induction 1 as [|x l Hx Hl IH]; simpl; [reflexivity|].
  now rewrite Hx, IH.
Qed.

(** when no two hits share a key, every hit is the first of its key *)
Lemma firsts_all (firsts hits : list Hit) :
  sublist firsts hits ->
  (forall h, In h hits -> In (hitKey h) (map hitKey firsts)) ->
  List.NoDup (map hitKey hits) ->
  firsts = hits.
Proof.
  induction 1 as [|x l k Hsub IH|x l k Hsub IH]; intros Hall Hn.
  - reflexivity.
  - simpl in Hn. apply List.NoDup_cons_iff in Hn as [Hx Hn].
    f_equal. apply IH; [|exact Hn].
    intros h Hh. destruct (Hall h (or_intror Hh)) as [E|Hin]; [|exact Hin].
    exfalso. apply Hx. rewrite E. now apply List.in_map.
  - simpl in Hn. apply List.NoDup_cons_iff in Hn as [Hx Hn].
    exfalso. apply Hx.
    specialize (Hall x (or_introl eq_refl)).
    apply List.in_map_iff in Hall as (y & E & Hy). rewrite <- E.
    apply List.in_map. eapply sublist_In; eassumption.
Qed.



(** ** Location terms, as the decomposer yields them *)

Lemma lit_consumes (k : cont) (p : string) :
  forall b s x,
    lit p k b s = Some x ->
    exists m s' b', s = m ++ s' /\ ci_match p m = true /\ k b' s' = Some x.
Proof.
  induction p as [|a p IH]; intros b s x; simpl.
  - intros H. exists EmptyString, s, b. auto.
  - destruct s as [|c s]; [discriminate|].
    destruct (ci_eq a c) eqn:Eac; [|discriminate].
    intros H. destruct (IH _ _ _ H) as (m & s' & b' & -> & Hm & Hk).
    exists (String c m), s', b'. simpl. rewrite Eac. auto.
Qed.

Lemma many_consumes (k : cont) (p : ascii -> bool) :
  forall s b x,
    many p k b s = Some x ->
    exists m s' b', s = m ++ s' /\ allChars p m = true /\ k b' s' = Some x.
Proof.
  induction s as [|c s IH]; intros b x; simpl.
  - intros H. exists EmptyString, EmptyString, b. auto.
  - destruct (p c) eqn:Epc.
    + destruct (many p k (isWordChar c) s) as [y|] eqn:E.
      * intros [= <-]. destruct (IH _ _ E) as (m & s' & b' & -> & Hm & Hk).
        exists (String c m), s', b'. simpl. rewrite Epc. auto.
      * intros H. exists EmptyString, (String c s), b. auto.
    + intros H. exists EmptyString, (String c s), b. auto.
Qed.

(** whatever the matcher accepts, it consumed a text of the expression *)
Lemma rmatch_consumes (r : regex) :
  forall (k : cont) b s x,
    rmatch r k b s = Some x ->
    exists m s' b', s = m ++ s' /\ consumes r m /\ k b' s' = Some x.
Proof.
  induction r as [p|p|p|r IH|r1 IH1 r2 IH2|r1 IH1 r2 IH2| |];
    intros k b s x; simpl.
  - apply lit_consumes.
  - destruct s as [|c s]; [discriminate|].
    destruct (p c) eqn:Epc; [|discriminate].
    intros H. destruct (many_consumes _ _ _ _ _ H)
      as (m & s' & b' & -> & Hm & Hk).
    exists (String c m), s', b'. simpl. rewrite Epc. auto.
  - apply many_consumes.
  - destruct (rmatch r k b s) as [y|] eqn:E.
    + intros [= <-]. destruct (IH _ _ _ _ E) as (m & s' & b' & ? & ? & ?).
      exists m, s', b'. auto.
    + intros H. exists EmptyString, s, b. auto.
  - destruct (rmatch r1 k b s) as [y|] eqn:E.
    + intros [= <-]. destruct (IH1 _ _ _ _ E) as (m & s' & b' & ? & ? & ?).
      exists m, s', b'. auto.
    + intros H. destruct (IH2 _ _ _ _ H) as (m & s' & b' & ? & ? & ?).
      exists m, s', b'. auto.
  - intros H. destruct (IH1 _ _ _ _ H) as (m1 & s1 & b1 & -> & Hm1 & H1).
    destruct (IH2 _ _ _ _ H1) as (m2 & s2 & b2 & -> & Hm2 & H2).
    exists (m1 ++ m2), s2, b2. rewrite append_assoc.
    split; [reflexivity|]. split; [|exact H2]. exists m1, m2. auto.
  - destruct (xorb b (atWordStart s)); [|discriminate].
    intros H. exists EmptyString, s, b. auto.
  - destruct s; [|discriminate].
    intros H. exists EmptyString, EmptyString, b. auto.
Qed.

Lemma exec_consumes (r : regex) (b : bool) (s : string) (n : nat) :
  exec r b s = Some n ->
  exists m s', s = m ++ s' /\ consumes r m /\ n = String.length m.
Proof.
  unfold exec.
  destruct (rmatch r (fun _ rest => Some rest) b s) as [rest|] eqn:E;
    [|discriminate].
  intros [= <-].
  destruct (rmatch_consumes _ _ _ _ _ E) as (m & s' & b' & -> & Hm & [= ->]).
  exists m, rest. split; [reflexivity|]. split; [exact Hm|].
  rewrite length_append. lia.
Qed.

Lemma substring_append (m s : string) :
  substring 0 (String.length m) (m ++ s) = m.
Proof.
  induction m as [|c m IH].
  - now destruct s.
  - rewrite append_cons. cbn [String.length substring]. now rewrite IH.
Qed.

Lemma length_zero (m : string) : String.length m = 0%nat -> m = EmptyString.
Proof. destruct m; [reflexivity | discriminate]. Qed.

(** every match of [r] is a text [r] consumes *)
Lemma match_go_consumes (r : regex) (s : string) :
  forall skip b m, In m (match_go r skip b s) -> consumes r m.
Proof.
  induction s as [|c s IH]; intros skip b m H; simpl in H.
  - destruct skip; [|destruct H].
    destruct (exec r b EmptyString) as [n|] eqn:E; [|destruct H].
    destruct H as [<-|[]].
    destruct (exec_consumes _ _ _ _ E) as (m & s' & Es & Hm & _).
    destruct m; [exact Hm | discriminate Es].
  - destruct skip as [|k]; [|eapply IH; exact H].
    destruct (exec r b (String c s)) as [[|n]|] eqn:E.
    + destruct H as [<-|H]; [|eapply IH; exact H].
      destruct (exec_consumes _ _ _ _ E) as (m & s' & _ & Hm & Hn).
      symmetry in Hn. apply length_zero in Hn. now subst.
    + destruct H as [<-|H]; [|eapply IH; exact H].
      destruct (exec_consumes _ _ _ _ E) as (m & s' & Es & Hm & Hn).
      change (consumes r (substring 0 (S n) (String c s))).
      rewrite Es, Hn, substring_append. exact Hm.
    + eapply IH; exact H.
Qed.

Lemma oneOf_consumes (ws : list string) :
  forall w m, consumes (oneOf w ws) m ->
              exists p, In p (w :: ws) /\ ci_match p m = true.
Proof.
  induction ws as [|w' ws IH]; intros w m; simpl.
  - intros H. exists w. auto.
  - intros [H|H]; [exists w; auto|].
    destruct (IH _ _ H) as (p & Hp & Hm). exists p. auto.
Qed.

(** in lower-case text a lower-case literal matches itself only *)
Lemma ci_match_lowered (p : string) :
  forall m, ci_match p m = true -> lowered p -> lowered m -> m = p.
Proof.
  induction p as [|a p IH]; intros [|c m]; simpl; try discriminate;
    [reflexivity|].
  intros H Hp Hm. apply andb_true_iff in H as [Hac H].
  apply lowered_cons in Hp as [Ha Hp]. apply lowered_cons in Hm as [Hc Hm].
  unfold ci_eq in Hac. apply Ascii.eqb_eq in Hac.
  rewrite Ha, Hc in Hac. subst c. f_equal. now apply IH.
Qed.

Lemma trimStart_tight (s : string) : startsTight s = true -> trimStart s = s.
Proof.
  destruct s as [|c s]; simpl; [discriminate|].
  now destruct (isSpace c).
Qed.

Lemma trimEnd_tight (s : string) : endsTight s = true -> trimEnd s = s.
Proof.
  induction s as [|c s IH]; [discriminate|].
  cbn [endsTight trimEnd]. destruct s as [|d s].
  - simpl. destruct (isSpace c); [discriminate | reflexivity].
  - intros H. rewrite (IH H). cbn [isEmpty]. now rewrite andb_false_r.
Qed.

Lemma trim_tight (s : string) :
  startsTight s = true -> endsTight s = true -> trim s = s.
Proof.
  intros Hs He. unfold trim. rewrite (trimStart_tight s Hs).
  now apply trimEnd_tight.
Qed.

Lemma startsTight_append (s t : string) :
  startsTight s = true -> startsTight (s ++ t) = true.
Proof. destruct s; [discriminate | exact id]. Qed.

Lemma endsTight_append (s t : string) :
  endsTight t = true -> endsTight (s ++ t) = true.
Proof.
  intros Ht. induction s as [|c s IH]; [exact Ht|].
  rewrite append_cons. cbn [endsTight].
  destruct (s ++ t) eqn:E; [|exact IH].
  destruct s; [|discriminate E]. rewrite append_nil_l in E.
  rewrite E in Ht. discriminate Ht.
Qed.

Lemma isWordChar_no_space (c : ascii) : isWordChar c = true -> isSpace c = false.
Proof. destruct c as [[] [] [] [] [] [] [] []]; vm_compute; congruence. Qed.

Lemma word_startsTight (w : string) :
  isEmpty w = false -> allChars isWordChar w = true -> startsTight w = true.
Proof.
  destruct w as [|c w]; [discriminate|]. simpl. intros _ H.
  apply andb_true_iff in H as [Hc _].
  now rewrite (isWordChar_no_space c Hc).
Qed.

Lemma word_endsTight (w : string) :
  isEmpty w = false -> allChars isWordChar w = true -> endsTight w = true.
Proof.
  induction w as [|c w IH]; [discriminate|]. intros _ H.
  cbn [allChars] in H. apply andb_true_iff in H as [Hc Hw].
  cbn [endsTight]. destruct w as [|d w].
  - now rewrite (isWordChar_no_space c Hc).
  - now apply IH.
Qed.

Lemma length_nonempty (s : string) :
  isEmpty s = false -> (1 <= String.length s)%nat.
Proof. destruct s; [discriminate | simpl; lia]. Qed.

(** a match of a location pattern in lower-case text, once trimmed, is
    longer than 4 characters unless it is one of the two short names of
    the gazetteer *)
Lemma location_match_short (pattern : regex) (m : string) :
  In pattern locationPatterns ->
  consumes pattern m ->
  lowered m ->
  (4 <? String.length (trim m))%nat = true
  \/ trim m = "btm" \/ trim m = "hsr".
Proof.
  intros Hp Hm Hl.
  destruct Hp as [<-|[<-|[<-|[]]]].
  - destruct Hm as (m1 & m2 & -> & -> & g & m3 & -> & Hg & m4 & m5 & ->
                    & -> & Hm5).
    destruct m5; [|discriminate Hm5].
    rewrite !append_nil_l, append_nil_r in *.
    apply oneOf_consumes in Hg as (p & Hp & Hg).
    assert (E : lowered p -> g = p) by (intros Hlp; now apply ci_match_lowered).
    repeat (destruct Hp as [<-|Hp];
            [rewrite E by reflexivity; vm_compute; auto|]).
    destruct Hp.
  - destruct Hm as (m1 & m2 & -> & -> & w & m3 & -> & [Hw1 Hw2] & sp & m4 & ->
                    & [Hs1 Hs2] & rd & m5 & -> & Hrd & m6 & m7 & -> & ->
                    & Hm7).
    destruct m7; [|discriminate Hm7].
    rewrite !append_nil_l, append_nil_r in *.
    apply lowered_append in Hl as [_ Hl]. apply lowered_append in Hl as [_ Hl].
    apply oneOf_consumes in Hrd as (p & Hp & Hrd).
    assert (E : lowered p -> rd = p) by (intros Hlp; now apply ci_match_lowered).
    left. apply Nat.ltb_lt.
    pose proof (length_nonempty w Hw1). pose proof (length_nonempty sp Hs1).
    assert (Hrd' : endsTight rd = true /\ (4 <= String.length rd)%nat).
    { repeat (destruct Hp as [<-|Hp];
              [rewrite E by reflexivity; split; [reflexivity | simpl; lia]|]).
      destruct Hp. }
    destruct Hrd' as [Hend Hlen].
    rewrite trim_tight.
    + rewrite !length_append. lia.
    + apply startsTight_append. now apply word_startsTight.
    + now do 2 apply endsTight_append.
  - destruct Hm as (m1 & m2 & -> & -> & o & m3 & -> & Ho & sp & m4 & ->
                    & [Hs1 Hs2] & w & m5 & -> & [Hw1 Hw2] & m6 & m7 & -> & ->
                    & Hm7).
    destruct m7; [|discriminate Hm7].
    rewrite !append_nil_l, append_nil_r in *.
    apply lowered_append in Hl as [Hl _].
    apply oneOf_consumes in Ho as (p & Hp & Ho).
    assert (E : lowered p -> o = p) by (intros Hlp; now apply ci_match_lowered).
    left. apply Nat.ltb_lt.
    pose proof (length_nonempty w Hw1). pose proof (length_nonempty sp Hs1).
    assert (Ho' : startsTight o = true /\ (3 <= String.length o)%nat).
    { repeat (destruct Hp as [<-|Hp];
              [rewrite E by reflexivity; split; [reflexivity | simpl; lia]|]).
      destruct Hp. }
    destruct Ho' as [Hstart Hlen].
    rewrite trim_tight.
    + rewrite !length_append. lia.
    + now apply startsTight_append.
    + do 2 apply endsTight_append. now apply word_endsTight.
Qed.

(** the terms of at most 4 characters that [extractLocationTerms] can
    yield *)
Lemma extractLocationTerms_short (hospitalName term : string) :
  In term (extractLocationTerms hospitalName) ->
  (4 <? String.length term)%nat = true \/ term = "btm" \/ term = "hsr".
Proof.
  unfold extractLocationTerms, uniq.
  match goal with |- context [uniq_from ∅ ?l] =>
    destruct (uniq_from_spec l ∅) as [_ Hin] end.
  intros Hterm. apply Hin in Hterm as [Hterm _].
  apply List.in_flat_map in Hterm as (pattern & Hp & Hterm).
  apply List.in_map_iff in Hterm as (m & <- & Hm).
  apply (location_match_short pattern m Hp).
  - eapply match_go_consumes. exact Hm.
  - eapply lowered_piece; [apply toLowerCase_idem|].
    eapply match_go_includes. exact Hm.
Qed.

(** for such a term the guard on the length decides nothing *)
Lemma credit_any_length (address name term : string) :
  (4 <? String.length term)%nat = true \/ term = "btm" \/ term = "hsr" ->
  Prose.creditLongTerms address name term
  = Prose.creditAnyLength address name term.
Proof.
  unfold Prose.creditLongTerms, Prose.creditAnyLength.
  intros [H|[->| ->]].
  - now rewrite H.
  - unfold Prose.contained, Prose.partContained.
    change (toLowerCase "btm") with "btm".
    change (split isSpaceOrHyphen "btm") with ["btm"].
    cbn [existsb String.length Nat.leb Nat.ltb andb orb].
    destruct (includes (toLowerCase address) "btm"
              || includes (toLowerCase name) "btm"); reflexivity.
  - unfold Prose.contained, Prose.partContained.
    change (toLowerCase "hsr") with "hsr".
    change (split isSpaceOrHyphen "hsr") with ["hsr"].
    cbn [existsb String.length Nat.leb Nat.ltb andb orb].
    destruct (includes (toLowerCase address) "hsr"
              || includes (toLowerCase name) "hsr"); reflexivity.
Qed.

Lemma sumCredits_ext (credit credit' : string -> Q) (terms : list string) :
  (forall term, In term terms -> credit term = credit' term) ->
  Prose.sumCredits credit terms = Prose.sumCredits credit' terms.
Proof.
  induction terms as [|t terms IH]; intros H; simpl; [reflexivity|].
  rewrite (H t) by now left. rewrite IH; [reflexivity|].
  intros term Hterm. apply H. now right.
Qed.

(** C6. With the location terms [extractLocationTerms] yields for a name,
    as [confirmHospital] passes them, a term contained in the candidate
    address or name earns full credit, any other term earns half credit
    0.5 whenever one of its hyphen/space-split sub-parts of length >= 3 is
    contained in the address or name, the credits are summed, divided by
    the number of terms and clamped to 1.0 before the weight 0.35 applies;
    with no location terms the component is 0.  The guard of the code,
    which opens half credit to terms longer than 4 characters only,
    decides nothing here: the terms of at most 4 characters are "btm" and
    "hsr", whose only sub-part is the term itself. *)
Theorem locationScore_credits_extracted
    (originalQuery mainName hospitalName : string)
    (payload : option Payload) :
  (locationScore
     (calculateEnhancedSimilarity originalQuery mainName
        (extractLocationTerms hospitalName) payload)
   == Prose.locationComponent Prose.creditAnyLength
        (extractLocationTerms hospitalName)
        (orEmpty (field payload_address payload))
        (orEmpty (field payload_name payload)))%Q
  /\ locationScore
       (calculateEnhancedSimilarity originalQuery mainName [] payload) = 0%Q
  /\ Forall (fun term => (4 <? String.length term)%nat = true
                         \/ term = "btm" \/ term = "hsr")
            (extractLocationTerms hospitalName).
Proof.
  assert (Hshort : forall term,
            In term (extractLocationTerms hospitalName) ->
            (4 <? String.length term)%nat = true
            \/ term = "btm" \/ term = "hsr")
    by (intros term; apply extractLocationTerms_short).
  split; [|split; [reflexivity | now apply List.Forall_forall]].
  unfold calculateEnhancedSimilarity, calculateLocationScore. simpl.
  destruct (extractLocationTerms hospitalName) as [|t terms]; [reflexivity|].
  change (0 <? List.length (t :: terms))%nat with true. cbv iota.
  unfold Prose.locationComponent.
  rewrite matchedTerms_spec. rewrite Qplus_0_l.
  match goal with
  | |- context [Prose.sumCredits (Prose.creditLongTerms ?a ?n) ?l] =>
      rewrite (sumCredits_ext (Prose.creditLongTerms a n)
                 (Prose.creditAnyLength a n) l)
  end; [reflexivity|].
  intros term Hterm. apply credit_any_length. now apply Hshort.
Qed.

(** ** Main name, layered *)

Lemma replace_go_firstMatch_none (r : regex) (s : string) :
  forall b, firstMatch_go r b s = None -> replace_go r 0 b s = s.
Proof.
  induction s as [|c s IH]; intros b H; [reflexivity|].
  cbn [firstMatch_go replace_go] in *.
  destruct (exec r b (String c s)) as [[|n]|]; try discriminate H;
    (destruct (firstMatch_go r (isWordChar c) s) eqn:E; [discriminate H|];
     now rewrite IH).
Qed.

Lemma replace_go_firstMatch (r : regex) (kept tail : string) :
  toTheEnd r ->
  forall b,
    firstMatch_go r b (kept ++ tail) = Some (String.length kept) ->
    replace_go r 0 b (kept ++ tail) = kept.
Proof.
  intros Hr. induction kept as [|c kept IH]; intros b H.
  - rewrite append_nil_l in *. destruct tail as [|c s]; [reflexivity|].
    cbn [firstMatch_go replace_go String.length] in *.
    destruct (exec r b (String c s)) as [[|n]|] eqn:E;
      try (destruct (firstMatch_go r (isWordChar c) s); discriminate H).
    apply Hr in E. simpl in E. injection E as ->.
    now apply replace_go_skip.
  - rewrite append_cons in *.
    cbn [firstMatch_go replace_go String.length] in *.
    destruct (exec r b (String c (kept ++ tail))) as [[|n]|];
      try discriminate H;
      (destruct (firstMatch_go r (isWordChar c) (kept ++ tail)) eqn:E;
       [|discriminate H]; injection H as ->; now rewrite IH).
Qed.

(** what [cutsAt] is for: the replacement leaves [kept] *)
Lemma cutsAt_replaceAll (r : regex) (kept tail : string) :
  toTheEnd r -> cutsAt r kept tail -> replaceAll r (kept ++ tail) = kept.
Proof.
  unfold cutsAt, firstMatch, replaceAll. intros Hr H.
  destruct tail as [|c tail]; cbn [isEmpty] in H.
  - rewrite append_nil_r in *. now apply replace_go_firstMatch_none.
  - now apply replace_go_firstMatch.
Qed.

Lemma toTheEnd_stripLocality : toTheEnd stripLocality.
Proof. exact (toTheEnd_cat [RPlus isSpace; gazetteer; RStar isDot]). Qed.

Lemma toTheEnd_stripRoad : toTheEnd stripRoad.
Proof.
  exact (toTheEnd_cat [RPlus isSpace; RPlus isWordChar; RPlus isSpace;
                       roadWord; RStar isDot]).
Qed.

Lemma toTheEnd_stripSuffix : toTheEnd stripSuffix.
Proof.
  exact (toTheEnd_cat [RPlus isSpace;
                       oneOf "hospital" ["medical center"; "clinic"];
                       ROpt (RLit "s")]).
Qed.

(** a lower-case, trimmed name with nothing to strip is its own main name *)
Lemma extractMainHospitalName_settled (main : string) :
  lowered main -> trim main = main -> settled main ->
  extractMainHospitalName main = main.
Proof.
  intros Hl Ht (H1 & H2 & H3). unfold extractMainHospitalName.
  rewrite Hl.
  now rewrite (replaceAll_no_match _ _ H1), (replaceAll_no_match _ _ H2),
    (replaceAll_no_match _ _ H3).
Qed.



(** a name with a road clause: "Apollo Clinic 5th Cross HSR Layout" is
    "apollo", " clinic", " 5th cross" and " hsr layout" *)
Example extractMainHospitalName_road_clause :
  toLowerCase "Apollo Clinic 5th Cross HSR Layout"
  = "apollo" ++ " clinic" ++ " 5th cross" ++ " hsr layout"
  /\ cutsAt stripLocality ("apollo" ++ " clinic" ++ " 5th cross") " hsr layout"
  /\ cutsAt stripRoad ("apollo" ++ " clinic") " 5th cross"
  /\ cutsAt stripSuffix "apollo" " clinic"
  /\ extractMainHospitalName "Apollo Clinic 5th Cross HSR Layout" = "apollo".
Proof. vm_compute. repeat split. Qed.

(** white space or a line break after the suffix hides it from the first
    application, and the second strips it *)
Example extractMainHospitalName_trailing_blank :
  extractMainHospitalName ("Apollo Hospital" ++ " ") = "apollo hospital"
  /\ extractMainHospitalName
       (extractMainHospitalName ("Apollo Hospital" ++ " ")) = "apollo"
  /\ extractMainHospitalName
       ("Apollo Sarjapur" ++ String (ascii_of_nat 10) EmptyString)
     = "apollo sarjapur"
  /\ extractMainHospitalName
       (extractMainHospitalName
          ("Apollo Sarjapur" ++ String (ascii_of_nat 10) EmptyString))
     = "apollo".
Proof. vm_compute. repeat split. Qed.
